(** * Section extraction and bundle synchronisation of the UNFCCC scraper

    A shallow embedding of

    - [merge_bundles], [clean_extracted_text] and the span resolution of
      [extract_sections_from_pdf] in
      [alicia_ass7_pdfextraction/scrape_unfccc.py], and
    - [extract_sections_by_keywords] in [Ass8-9/pdf_scraper.py],

    followed by the properties of the specification that concern them;
    then of the code around them: [slugify], [build_json_entry],
    [write_section_outputs] and [main] of the first file,
    [normalize_whitespace], [find_section_ranges], [extract_sections]
    and [SupabaseClient.upsert_country_sections] of the second, with
    the properties that the code itself shows.

    Conventions.  A Python [str] is a sequence of code points; the
    text-processing functions are modelled on [list ascii], each
    [ascii] standing for one code point below 256 (Latin-1 text).  The
    fields of a bundle entry are only compared, so they are [string]s;
    [String.compare] orders them character by character as Python
    orders [str] (the order of UTF-8 bytes is the order of the code
    points they encode).  Offsets, line numbers and lengths are [nat]. *)

From Stdlib Require Import List Arith Lia Bool String Ascii Permutation.
From Stdlib Require Import Sorted OrderedTypeEx.
Import ListNotations.

(* ################################################################# *)
(** * Part I: the embedding *)

(* ================================================================= *)
(** ** Text normalisation ([clean_extracted_text]) *)

Module Text.

Definition str : Type := list ascii.

Definition nl : ascii := "010"%char.
Definition cr : ascii := "013"%char.
Definition tab : ascii := "009"%char.
Definition space : ascii := " "%char.
Definition hyphen : ascii := "-"%char.

Definition is_nl (c : ascii) : bool := Ascii.eqb c nl.
Definition is_cr (c : ascii) : bool := Ascii.eqb c cr.

(** The character class [[ \t]]. *)
Definition is_blank (c : ascii) : bool := Ascii.eqb c space || Ascii.eqb c tab.

Definition in_range (lo hi : nat) (c : ascii) : bool :=
  (lo <=? nat_of_ascii c) && (nat_of_ascii c <=? hi).

(** [str.isspace] and the class [\s] below code point 256: the ASCII
    controls 9-13 and 28-31, the space, NEL and the no-break space. *)
Definition is_space (c : ascii) : bool :=
  in_range 9 13 c || in_range 28 32 c || in_range 133 133 c || in_range 160 160 c.

(** The class [\w] of a [str] pattern below code point 256: letters,
    digits and other numeric characters, and the underscore. *)
Definition is_word (c : ascii) : bool :=
  in_range 48 57 c || in_range 65 90 c || in_range 95 95 c || in_range 97 122 c ||
  in_range 170 170 c || in_range 178 179 c || in_range 181 181 c ||
  in_range 185 186 c || in_range 188 190 c ||
  in_range 192 214 c || in_range 216 246 c || in_range 248 255 c.

(** [re.sub(pattern, repl, text)] for a pattern that never matches the
    empty string and does not look behind.  [m s] is the length of the
    match that starts at the head of [s], [0] when there is none.  The
    scan goes left to right: where the pattern matches, [repl] is
    emitted and the matched characters are skipped ([skip] counts the
    ones still to pass); elsewhere the character is copied. *)
Fixpoint re_sub (m : str -> nat) (repl : str) (skip : nat) (s : str) : str :=
  match s with
  | [] => []
  | c :: s' =>
      match skip with
      | S k => re_sub m repl k s'
      | O => match m s with
             | O => c :: re_sub m repl 0 s'
             | S k => repl ++ re_sub m repl k s'
             end
      end
  end.

(** Length of the longest prefix of characters in a class: what a
    greedy [[...]+] consumes. *)
Fixpoint span_len (p : ascii -> bool) (s : str) : nat :=
  match s with
  | c :: s' => if p c then S (span_len p s') else 0
  | [] => 0
  end.

Definition starts_with (p : ascii -> bool) (s : str) : bool :=
  match s with
  | c :: _ => p c
  | [] => false
  end.

(** [-\n(?=\w)] *)
Definition hyphen_break (s : str) : nat :=
  match s with
  | h :: n :: w :: _ =>
      if Ascii.eqb h hyphen && is_nl n && is_word w then 2 else 0
  | _ => 0
  end.

(** [[ \t]+\n]: giving back blanks cannot help, the character after a
    shorter run is a blank. *)
Definition blanks_newline (s : str) : nat :=
  let n := span_len is_blank s in
  if (1 <=? n) && starts_with is_nl (skipn n s) then S n else 0.

(** [\n{3,}] *)
Definition newlines3 (s : str) : nat :=
  let n := span_len is_nl s in
  if 3 <=? n then n else 0.

(** [[ \t]{2,}] *)
Definition blanks2 (s : str) : nat :=
  let n := span_len is_blank s in
  if 2 <=? n then n else 0.

(** [text.replace("\r", "\n")] *)
Definition replace_cr (s : str) : str :=
  map (fun c => if is_cr c then nl else c) s.

Fixpoint lstrip (s : str) : str :=
  match s with
  | c :: s' => if is_space c then lstrip s' else s
  | [] => []
  end.

Definition rstrip (s : str) : str := rev (lstrip (rev s)).

(** [str.strip()] *)
Definition strip (s : str) : str := rstrip (lstrip s).

Definition clean_extracted_text (text : str) : str :=
  let text := replace_cr text in
  let text := re_sub hyphen_break [] 0 text in
  let text := re_sub blanks_newline [nl] 0 text in
  let text := re_sub newlines3 [nl; nl] 0 text in
  let text := re_sub blanks2 [space] 0 text in
  strip text.

(** No hyphen directly followed by a line break and a word character. *)
Fixpoint hyphen_break_free (s : str) : bool :=
  match s with
  | [] => true
  | _ :: s' => (hyphen_break s =? 0) && hyphen_break_free s'
  end.

Definition of_string (s : string) : str := list_ascii_of_string s.

(** A line that ends in a hyphen and a trailing space. *)
Definition hyphen_space_break : str :=
  of_string "co- " ++ [nl] ++ of_string "operation".

Definition plain_text : str :=
  of_string "Energy  sector " ++ [cr; nl; nl; nl; nl] ++ of_string "Transport".

End Text.

(* ================================================================= *)
(** ** Bundle synchronisation ([merge_bundles]) *)

Module Sync.

(** One element of a bundle, as written by [build_json_entry]. *)
Record Entry : Type := mkEntry {
  country : string;
  section : string;
  source_doc : string;
  doc_url : string;
  extracted_text : string;
  created_utc : string;
  stale : bool
}.

(** [key_fields = ("country", "section", "source_doc", "doc_url")]. *)
Definition Key : Type := (string * string * string * string)%type.

Definition key_of (e : Entry) : Key :=
  (country e, section e, source_doc e, doc_url e).

Definition key_eqb (a b : Key) : bool :=
  match a, b with
  | (a1, a2, a3, a4), (b1, b2, b3, b4) =>
      String.eqb a1 b1 && String.eqb a2 b2 &&
      String.eqb a3 b3 && String.eqb a4 b4
  end.

(** [existing["stale"] = True] *)
Definition set_stale (e : Entry) : Entry :=
  mkEntry (country e) (section e) (source_doc e) (doc_url e)
          (extracted_text e) (created_utc e) true.

(** [entry["created_utc"] = existing.get("created_utc", ...)] followed by
    [entry["stale"] = existing.get("stale", False)]; an entry of a
    bundle file carries both fields. *)
Definition refresh (entry existing : Entry) : Entry :=
  mkEntry (country entry) (section entry) (source_doc entry) (doc_url entry)
          (extracted_text entry) (created_utc existing) (stale existing).

(** A Python [dict] keyed by identity tuples: an association list in
    insertion order.  Assigning to a key that is present replaces the
    value in place, assigning to a new key appends it. *)
Definition Dict : Type := list (Key * Entry).

Fixpoint dict_get (k : Key) (d : Dict) : option Entry :=
  match d with
  | [] => None
  | (k', v) :: d' => if key_eqb k k' then Some v else dict_get k d'
  end.

Fixpoint dict_set (k : Key) (v : Entry) (d : Dict) : Dict :=
  match d with
  | [] => [(k, v)]
  | (k', v') :: d' =>
      if key_eqb k k' then (k, v) :: d' else (k', v') :: dict_set k v d'
  end.

(** [{tuple(entry[f] for f in key_fields): entry for entry in existing_entries}] *)
Definition existing_lookup (existing_entries : list Entry) : Dict :=
  fold_left (fun d e => dict_set (key_of e) e d) existing_entries [].

(** [updated_entries] holds references.  An entry taken from
    [existing_lookup] is the very object stored there, so it is
    recorded by its key and read back from the store at the end; an
    entry of the incoming batch is an object of its own
    ([build_json_entry] returns a new [dict] for each). *)
Inductive Slot : Type :=
| Existing (k : Key)
| Incoming (e : Entry).

Record LoopState : Type := mkState {
  lookup : Dict;
  updated_entries : list Slot;
  seen_keys : list Key
}.

Definition key_in (k : Key) (ks : list Key) : bool :=
  existsb (key_eqb k) ks.

(** The body of [for entry in new_entries]. *)
Definition merge_step (st : LoopState) (entry : Entry) : LoopState :=
  let key := key_of entry in
  let seen := key :: seen_keys st in
  match dict_get key (lookup st) with
  | Some existing =>
      if String.eqb (extracted_text existing) (extracted_text entry)
      then mkState (lookup st)
                   (updated_entries st ++ [Incoming (refresh entry existing)])
                   seen
      else mkState (dict_set key (set_stale existing) (lookup st))
                   (updated_entries st ++ [Existing key; Incoming entry])
                   seen
  | None =>
      mkState (lookup st) (updated_entries st ++ [Incoming entry]) seen
  end.

(** The body of [for key, entry in existing_lookup.items()]. *)
Definition stale_step (st : LoopState) (key : Key) : LoopState :=
  if key_in key (seen_keys st) then st
  else match dict_get key (lookup st) with
       | Some entry =>
           mkState (dict_set key (set_stale entry) (lookup st))
                   (updated_entries st ++ [Existing key])
                   (seen_keys st)
       | None => st
       end.

Definition deref (d : Dict) (s : Slot) : list Entry :=
  match s with
  | Existing k => match dict_get k d with Some e => [e] | None => [] end
  | Incoming e => [e]
  end.

(** Python compares the sort keys [(country, source_doc, created_utc)]
    as tuples, component by component, and [str] by code point. *)
Definition sort_key (e : Entry) : string * string * string :=
  (country e, source_doc e, created_utc e).

Definition key3_ltb (a b : string * string * string) : bool :=
  match a, b with
  | (a1, a2, a3), (b1, b2, b3) =>
      match String.compare a1 b1 with
      | Lt => true
      | Gt => false
      | Eq => match String.compare a2 b2 with
              | Lt => true
              | Gt => false
              | Eq => String.ltb a3 b3
              end
      end
  end.

(** [list.sort] is stable: an element moves in front of an element
    that preceded it only when its key is strictly smaller. *)
Fixpoint insert_sorted (x : Entry) (l : list Entry) : list Entry :=
  match l with
  | [] => [x]
  | y :: l' =>
      if key3_ltb (sort_key y) (sort_key x)
      then y :: insert_sorted x l'
      else x :: l
  end.

Definition sort_entries (l : list Entry) : list Entry :=
  fold_right insert_sorted [] l.

(** [merge_bundles]; [existing_entries] is the content of the bundle
    file, [[]] when the file does not exist. *)
Definition merge_bundles (existing_entries new_entries : list Entry)
  : list Entry :=
  let st0 := mkState (existing_lookup existing_entries) [] [] in
  let st1 := fold_left merge_step new_entries st0 in
  let st2 := fold_left stale_step (map fst (lookup st1)) st1 in
  sort_entries (flat_map (deref (lookup st2)) (updated_entries st2)).

(** *** Vocabulary of the specification *)

Definition Entry_eq_dec (a b : Entry) : {a = b} + {a <> b}.
Proof. decide equality; (apply string_dec || apply bool_dec). Defined.

Definition live (e : Entry) : bool := negb (stale e).

Definition entries_at (k : Key) (l : list Entry) : list Entry :=
  filter (fun e => key_eqb (key_of e) k) l.

Definition live_at (k : Key) (l : list Entry) : list Entry :=
  filter (fun e => key_eqb (key_of e) k && negb (stale e)) l.

(** At most one non-stale entry per identity key. *)
Definition one_live_per_key (l : list Entry) : Prop :=
  forall k, List.length (live_at k l) <= 1.

(** An entry is still present, at most with [stale] flipped to true. *)
Definition retained (e : Entry) (l : list Entry) : Prop :=
  In e l \/ In (set_stale e) l.

Definition sorted_bundle (l : list Entry) : Prop :=
  StronglySorted
    (fun a b => key3_ltb (sort_key b) (sort_key a) = false) l.

(** The specification's reading of "idempotent on unchanged input":
    after a second run with the same batch every submitted key has the
    same single non-stale entry as after the first run, and no stale
    entry occurs more often than before. *)
Definition second_run_settled (existing batch : list Entry) : Prop :=
  (forall n, In n batch ->
     exists e,
       live_at (key_of n) (merge_bundles (merge_bundles existing batch) batch) = [e] /\
       live_at (key_of n) (merge_bundles existing batch) = [e]) /\
  (forall e, stale e = true ->
     count_occ Entry_eq_dec (merge_bundles (merge_bundles existing batch) batch) e <=
     count_occ Entry_eq_dec (merge_bundles existing batch) e).

(** The incoming entry meets a stale entry with its own text: the
    first loop copies that entry's [stale] flag onto it. *)
Definition carried_stale (existing : list Entry) (n : Entry) : bool :=
  match dict_get (key_of n) (existing_lookup existing) with
  | Some e => String.eqb (extracted_text e) (extracted_text n) && stale e
  | None => false
  end.

End Sync.

(** Bundles and batches used as concrete inputs below. *)
Module SyncExamples.
Import Sync.
#[local] Open Scope string_scope.

Definition cuba (text created : string) (is_stale : bool) : Entry :=
  mkEntry "Cuba" "GHG Inventory Module" "BUR1"
          "https://unfccc.int/documents/BUR1.pdf" text created is_stale.

Definition kenya (text created : string) (is_stale : bool) : Entry :=
  mkEntry "Kenya" "GHG Inventory Module" "NC2"
          "https://unfccc.int/documents/NC2.pdf" text created is_stale.

(** Three runs: the text changes in the second and stays in the third. *)
Definition run1_entry : Entry := cuba "first text" "2024-01-01T00:00:00Z" false.
Definition run2_entry : Entry := cuba "second text" "2024-02-01T00:00:00Z" false.
Definition run3_entry : Entry := cuba "second text" "2024-03-01T00:00:00Z" false.

Definition bundle_after_run2 : list Entry :=
  [set_stale run1_entry; run2_entry].

(** A sorted bundle whose stale entry follows the non-stale one. *)
Definition live_entry : Entry := cuba "text T" "2024-01-01T00:00:00Z" false.
Definition late_stale_entry : Entry := cuba "text T2" "2024-02-01T00:00:00Z" true.
Definition changed_entry : Entry := cuba "text T2" "2024-03-01T00:00:00Z" false.

(** A batch that lists one identity key twice. *)
Definition twice_a : Entry := cuba "text a" "2024-03-01T00:00:00Z" false.
Definition twice_b : Entry := cuba "text b" "2024-03-01T00:00:00Z" false.

(** An entry that an earlier run had marked stale. *)
Definition dropped_entry : Entry := cuba "second text" "2024-02-01T00:00:00Z" true.

Definition kenya_entry : Entry := kenya "kenya text" "2024-01-15T00:00:00Z" false.

End SyncExamples.

(* ================================================================= *)
(** ** Section location and span resolution ([extract_sections_from_pdf]) *)

Module Locator.
Import Text.

(** [str.lower()] below code point 256: the ASCII capitals and the
    Latin-1 capitals other than the multiplication sign. *)
Definition to_lower (c : ascii) : ascii :=
  if in_range 65 90 c || in_range 192 214 c || in_range 216 222 c
  then ascii_of_nat (nat_of_ascii c + 32)
  else c.

(** [sep.join(parts)] *)
Fixpoint join (sep : str) (parts : list str) : str :=
  match parts with
  | [] => []
  | [x] => x
  | x :: rest => x ++ sep ++ join sep rest
  end.

(** [text[a:b]] for offsets [a], [b] that are not negative. *)
Definition slice (a b : nat) (text : str) : str := firstn (b - a) (skipn a text).

(** [text.rfind("\n", 0, stop)], [None] for [-1]; [i] is the offset of
    the head of [s]. *)
Fixpoint rfind_from (i : nat) (s : str) (stop : nat) : option nat :=
  match s, stop with
  | c :: s', S stop' =>
      match rfind_from (S i) s' stop' with
      | Some j => Some j
      | None => if is_nl c then Some i else None
      end
  | _, _ => None
  end.

Definition rfind_nl (text : str) (stop : nat) : option nat :=
  rfind_from 0 text stop.

Definition is_roman (c : ascii) : bool :=
  existsb (Ascii.eqb (to_lower c)) (of_string "ivxlcdm").

(** [re.match(r"^\s*[ivxlcdm]+\.\s*$", line, flags=re.IGNORECASE)]: the
    three classes are disjoint, so the greedy reading is the only one. *)
Definition roman_label (line : str) : bool :=
  let body := lstrip line in
  let n := span_len is_roman body in
  (1 <=? n) &&
  match skipn n body with
  | dot :: rest => Ascii.eqb dot "."%char && forallb is_space rest
  | [] => false
  end.

(** The value of [config.get("headings", [])] or
    [config.get("patterns", [])]: a single pattern, an iterable of
    patterns, or something else. *)
Inductive RawPatterns : Type :=
| RawStr (p : str)
| RawIter (ps : list str)
| RawOther.

Definition as_patterns (raw : RawPatterns) : list str :=
  match raw with
  | RawStr p => [p]
  | RawIter ps => ps
  | RawOther => []
  end.

Record SectionConfig : Type := mkConfig {
  headings : RawPatterns;
  patterns : RawPatterns
}.

(** The two flag sets the function searches with. *)
Inductive Flags : Type :=
| HeadingFlags   (* re.IGNORECASE | re.MULTILINE *)
| FallbackFlags. (* re.IGNORECASE | re.DOTALL *)

(** What [re.search] does: raise [re.error], find nothing, or return
    a match with its [start()] and [end()]. *)
Inductive SearchResult : Type :=
| ReError
| NoMatch
| Match (start stop : nat).

(** A located seed: [section_spans.items()]. *)
Definition Seed : Type := (string * (nat * nat))%type.

Definition seed_start (item : Seed) : nat := fst (snd item).

(** Assignment to a key of a [dict] with [str] keys. *)
Fixpoint assoc_set {V : Type} (k : string) (v : V) (d : list (string * V))
  : list (string * V) :=
  match d with
  | [] => [(k, v)]
  | (k', v') :: d' =>
      if String.eqb k k' then (k, v) :: d' else (k', v') :: assoc_set k v d'
  end.

Fixpoint assoc_get {V : Type} (k : string) (d : list (string * V)) : option V :=
  match d with
  | [] => None
  | (k', v) :: d' => if String.eqb k k' then Some v else assoc_get k d'
  end.

(** [sorted(section_spans.items(), key=lambda item: item[1][0])], a
    stable sort. *)
Fixpoint insert_by_start (x : Seed) (l : list Seed) : list Seed :=
  match l with
  | [] => [x]
  | y :: l' =>
      if seed_start y <? seed_start x
      then y :: insert_by_start x l'
      else x :: l
  end.

Definition ordered_sections (section_spans : list Seed) : list Seed :=
  fold_right insert_by_start [] section_spans.

(** The start of the span: pulled back over a roman-numeral label. *)
Definition resolved_start (text : str) (start : nat) : nat :=
  match rfind_nl text start with
  | Some previous_newline =>
      if roman_label (slice (S previous_newline) start text)
      then S previous_newline
      else start
  | None => start
  end.

(** One round of the loop over [ordered_sections]: the section, the
    seed start it was located at, and the final [start] and
    [next_start] that delimit its text. *)
Record Resolved : Type := mkResolved {
  r_section : string;
  r_seed : nat;
  r_start : nat;
  r_stop : nat
}.

Fixpoint resolve_from (text : str) (ordered : list Seed) : list Resolved :=
  match ordered with
  | [] => []
  | (section, (start, _)) :: rest =>
      let next_start :=
        match rest with
        | item :: _ => seed_start item
        | [] => List.length text
        end in
      mkResolved section start (resolved_start text start) next_start
        :: resolve_from text rest
  end.

Definition resolved_spans (text : str) (section_spans : list Seed)
  : list Resolved :=
  resolve_from text (ordered_sections section_spans).

Definition section_text (text : str) (r : Resolved) : str :=
  strip (slice (r_start r) (r_stop r) text).

Definition keep_section (text : str) (extracted : list (string * str))
    (r : Resolved) : list (string * str) :=
  match section_text text r with
  | [] => extracted
  | t => assoc_set (r_section r) t extracted
  end.

(** Lines 449-473: from the located seeds to the extracted texts. *)
Definition extract_from_spans (text : str) (section_spans : list Seed)
  : list (string * str) :=
  fold_left (keep_section text) (resolved_spans text section_spans) [].

Section Extraction.

(** [re.search(pattern, text, flags)] *)
Variable re_search : Flags -> str -> str -> SearchResult.

(** The two [for pattern in ...] loops: an invalid pattern is logged
    and skipped, the first match wins. *)
Fixpoint first_match (flags : Flags) (ps : list str) (text : str)
  : option (nat * nat) :=
  match ps with
  | [] => None
  | p :: ps' =>
      match re_search flags p text with
      | Match start stop => Some (start, stop)
      | _ => first_match flags ps' text
      end
  end.

Definition locate_section (text : str) (config : SectionConfig)
  : option (nat * nat) :=
  match first_match HeadingFlags (as_patterns (headings config)) text with
  | Some span => Some span
  | None => first_match FallbackFlags (as_patterns (patterns config)) text
  end.

Definition locate_step (text : str) (section_spans : list Seed)
    (item : string * SectionConfig) : list Seed :=
  match locate_section text (snd item) with
  | Some span => assoc_set (fst item) span section_spans
  | None => section_spans
  end.

Definition locate (text : str) (section_definitions : list (string * SectionConfig))
  : list Seed :=
  fold_left (locate_step text) section_definitions [].

(** [extract_sections_from_pdf]; [pages] are the page texts that
    PyMuPDF returns for the file. *)
Definition extract_sections_from_pdf (pages : list str)
    (section_definitions : list (string * SectionConfig)) : list (string * str) :=
  let combined_text := clean_extracted_text (join [nl] pages) in
  match locate combined_text section_definitions with
  | [] => []
  | section_spans => extract_from_spans combined_text section_spans
  end.

End Extraction.

(** *** Vocabulary of the specification *)





(** The match that starts at offset [start] comes right after a line,
    beginning at offset [label], that holds a roman-numeral label and
    nothing else. *)
Definition label_line_before (text : str) (label start : nat) : Prop :=
  label < start /\
  nth_error text (start - 1) = Some nl /\
  roman_label (slice label (start - 1) text) = true /\
  Forall (fun c => is_nl c = false) (slice label (start - 1) text) /\
  (label = 0 \/ nth_error text (label - 1) = Some nl).

(** [re.search] for a pattern of letters and spaces under
    [re.IGNORECASE]: the first place where the pattern occurs, letter
    case apart. *)
Fixpoint prefix_ci (p s : str) : bool :=
  match p, s with
  | [], _ => true
  | a :: p', b :: s' => Ascii.eqb (to_lower a) (to_lower b) && prefix_ci p' s'
  | _ :: _, [] => false
  end.

Fixpoint find_ci (p s : str) (i : nat) : option nat :=
  match s with
  | [] => if prefix_ci p [] then Some i else None
  | _ :: s' => if prefix_ci p s then Some i else find_ci p s' (S i)
  end.

Definition literal_search (flags : Flags) (p text : str) : SearchResult :=
  match find_ci p text 0 with
  | Some i => Match i (i + List.length p)
  | None => NoMatch
  end.

(** *** Documents used as concrete inputs below *)

#[local] Open Scope string_scope.
#[local] Open Scope list_scope.



(** The label on a line of its own, the heading on the next line; the
    shipped heading pattern [^\s*Institutional\sarrangements[^\n]*]
    matches that line, offsets 13 to 39. *)
Definition label_line_document : str :=
  of_string "Overview" ++ [nl] ++
  of_string "iv." ++ [nl] ++
  of_string "Institutional arrangements" ++ [nl] ++
  of_string "Text A".

Definition label_line_seeds : list Seed :=
  [("Institutional framework for climate action", (13, 39))].

(** The label and the heading on the first line of the document; the
    shipped fallback pattern for "Institutional setup" matches at
    offsets 4 to 23. *)
Definition first_line_document : str :=
  of_string "IV. Institutional setup" ++ [nl] ++ of_string "Text A".

Definition first_line_seeds : list Seed :=
  [("Institutional framework for climate action", (4, 23))].

(** The example of the specification. *)
Definition adaptation_document : str :=
  of_string "Summary" ++ [nl] ++
  of_string "IV. Adaptation actions" ++ [nl] ++
  of_string "Text A" ++ [nl; nl] ++
  of_string "V. Next Heading" ++ [nl] ++
  of_string "Text B".

(** Two sections whose heading patterns match at the same offset. *)
Definition policy_page : str := of_string "National policy framework of Cuba".

Definition policy_config : SectionConfig :=
  mkConfig (RawStr (of_string "National policy")) (RawIter []).

Definition policy_framework_config : SectionConfig :=
  mkConfig (RawStr (of_string "National policy framework")) (RawIter []).

Definition policy_definitions : list (string * SectionConfig) :=
  [("Policy", policy_config); ("Policy framework", policy_framework_config)].

Definition policy_definitions_reordered : list (string * SectionConfig) :=
  [("Policy framework", policy_framework_config); ("Policy", policy_config)].

Definition cuba_page : str :=
  of_string "Institutional setup of Cuba" ++ [nl] ++
  of_string "National policy framework of Cuba".

Definition cuba_definitions : list (string * SectionConfig) :=
  [("Policy", policy_config);
   ("Institutions", mkConfig (RawIter []) (RawStr (of_string "Institutional setup")))].

Definition cuba_definitions_reordered : list (string * SectionConfig) :=
  [("Institutions", mkConfig (RawIter []) (RawStr (of_string "Institutional setup")));
   ("Policy", policy_config)].

End Locator.

(* ================================================================= *)
(** ** The keyword pass ([extract_sections_by_keywords]) *)

Module Keywords.
Import Text Locator.

(** [text.replace("\r\n", "\n")] *)
Fixpoint replace_crlf (s : str) : str :=
  match s with
  | [] => []
  | c :: s' =>
      match s' with
      | d :: s'' =>
          if is_cr c && is_nl d then nl :: replace_crlf s'' else c :: replace_crlf s'
      | [] => [c]
      end
  end.

(** [text.split("\n")] *)
Fixpoint split_nl (s : str) : list str :=
  match s with
  | [] => [[]]
  | c :: s' =>
      if is_nl c then [] :: split_nl s'
      else match split_nl s' with
           | line :: rest => (c :: line) :: rest
           | [] => [[c]]
           end
  end.

(** [normalize_whitespace]; on a line without newline
    [re.sub(r"\s+$", "", line)] removes the trailing whitespace. *)
Definition normalize_whitespace (text : str) : str :=
  let text := replace_cr (replace_crlf text) in
  join [nl] (map rstrip (split_nl text)).

(** [line.lower()] *)
Definition lower (s : str) : str := map to_lower s.

Fixpoint is_prefix (p s : str) : bool :=
  match p, s with
  | [], _ => true
  | a :: p', b :: s' => Ascii.eqb a b && is_prefix p' s'
  | _ :: _, [] => false
  end.

(** [kw in lower_line] *)
Fixpoint contains (kw s : str) : bool :=
  match s with
  | [] => is_prefix kw []
  | _ :: s' => is_prefix kw s || contains kw s'
  end.

(** [any(kw in lower_line for kw in keywords)] *)
Definition line_matches (keywords : list str) (line : str) : bool :=
  existsb (fun kw => contains kw (lower line)) keywords.

(** [for idx, line in enumerate(lines)]; [idx] numbers the head of
    [lines]. *)
Fixpoint matched_from (idx : nat) (keywords : list str) (lines : list str)
  : list nat :=
  match lines with
  | [] => []
  | line :: rest =>
      if line_matches keywords line
      then idx :: matched_from (S idx) keywords rest
      else matched_from (S idx) keywords rest
  end.

Definition matched_indices (keywords : list str) (lines : list str) : list nat :=
  matched_from 0 keywords lines.

Definition Window : Type := (nat * nat)%type.

(** [for i in matched_indices[1:]] with the running [start], [prev],
    and the [clusters.append((start, prev))] that follows the loop. *)
Fixpoint cluster_loop (start prev : nat) (rest : list nat) : list Window :=
  match rest with
  | [] => [(start, prev)]
  | i :: rest' =>
      if i - prev <=? 2
      then cluster_loop start i rest'
      else (start, prev) :: cluster_loop i i rest'
  end.

Definition clusters (matched : list nat) : list Window :=
  match matched with
  | [] => []
  | first :: rest => cluster_loop first first rest
  end.

Definition window_eqb (a b : Window) : bool :=
  (fst a =? fst b) && (snd a =? snd b).

(** [(max(start_idx - 5, 0), min(end_idx + 5, len(lines) - 1))] *)
Definition expand (n_lines : nat) (cluster : Window) : Window :=
  (fst cluster - 5, Nat.min (snd cluster + 5) (n_lines - 1)).

(** [lines[ctx_start : ctx_end + 1]] followed by the blank line. *)
Definition window_lines (lines : list str) (w : Window) : list str :=
  firstn (S (snd w) - fst w) (skipn (fst w) lines) ++ [[]].

(** [for start_idx, end_idx in clusters]; [seen] is [seen_spans]. *)
Fixpoint context_loop (lines : list str) (seen : list Window)
    (cl : list Window) : list str :=
  match cl with
  | [] => []
  | cluster :: rest =>
      let span := expand (List.length lines) cluster in
      if existsb (window_eqb span) seen
      then context_loop lines seen rest
      else window_lines lines span ++ context_loop lines (span :: seen) rest
  end.

(** The windows that the loop does not skip. *)
Fixpoint surviving_windows (n_lines : nat) (seen : list Window)
    (cl : list Window) : list Window :=
  match cl with
  | [] => []
  | cluster :: rest =>
      let span := expand n_lines cluster in
      if existsb (window_eqb span) seen
      then surviving_windows n_lines seen rest
      else span :: surviving_windows n_lines (span :: seen) rest
  end.

(** The body of [for section_name in SECTION_NAMES] for the keywords
    [SECTION_KEYWORDS.get(section_name, [])]. *)
Definition keyword_section (section_keywords : list str) (lines : list str) : str :=
  let keywords := map lower section_keywords in
  match keywords with
  | [] => []
  | _ =>
      match matched_indices keywords lines with
      | [] => []
      | matched => strip (join [nl] (context_loop lines [] (clusters matched)))
      end
  end.

(** [SECTION_KEYWORDS.get(section_name, [])] *)
Definition keywords_of (SECTION_KEYWORDS : list (string * list str))
    (section_name : string) : list str :=
  match assoc_get section_name SECTION_KEYWORDS with
  | Some kws => kws
  | None => []
  end.

(** [extract_sections_by_keywords], for any [SECTION_NAMES] and
    [SECTION_KEYWORDS]. *)
Definition extract_sections_by_keywords
    (SECTION_NAMES : list string) (SECTION_KEYWORDS : list (string * list str))
    (text : str) : list (string * str) :=
  let cleaned := normalize_whitespace text in
  let lines := split_nl cleaned in
  fold_left
    (fun sections section_name =>
       assoc_set section_name
         (keyword_section (keywords_of SECTION_KEYWORDS section_name) lines)
         sections)
    SECTION_NAMES [].

(** *** The keyword pass in the words of the specification *)

(** Lines that contain a keyword, letter case apart. *)
Definition spec_matching_lines (keywords : list str) (lines : list str)
  : list nat :=
  filter (fun i => line_matches (map lower keywords) (nth i lines []))
         (seq 0 (List.length lines)).

(** Matching line numbers at most two apart go into one cluster. *)
Fixpoint spec_cluster (matched : list nat) : list (list nat) :=
  match matched with
  | [] => []
  | i :: rest =>
      match spec_cluster rest with
      | (j :: group) :: groups =>
          if j - i <=? 2
          then (i :: j :: group) :: groups
          else [i] :: (j :: group) :: groups
      | _ => [[i]]
      end
  end.

(** A cluster with five lines of context on each side, within the
    document. *)
Definition spec_window (n_lines : nat) (group : list nat) : Window :=
  (hd 0 group - 5, Nat.min (last group 0 + 5) (n_lines - 1)).

(** A window equal to an earlier one is dropped. *)
Fixpoint spec_drop_repeated (ws : list Window) : list Window :=
  match ws with
  | [] => []
  | w :: rest =>
      w :: filter (fun v => negb (window_eqb v w)) (spec_drop_repeated rest)
  end.

Definition spec_windows (keywords : list str) (lines : list str) : list Window :=
  spec_drop_repeated
    (map (spec_window (List.length lines))
         (spec_cluster (spec_matching_lines keywords lines))).

(** The windows in document order, a blank line after each. *)
Definition spec_keyword_section (keywords : list str) (lines : list str) : str :=
  strip (join [nl] (flat_map (window_lines lines) (spec_windows keywords lines))).

(** The specification as it stands: surviving windows do not overlap. *)
Definition windows_overlap (a b : Window) : Prop :=
  fst a <= snd b /\ fst b <= snd a.

Definition no_overlapping_windows (ws : list Window) : Prop :=
  forall i j a b, i <> j -> nth_error ws i = Some a -> nth_error ws j = Some b ->
                  ~ windows_overlap a b.

(** The lines the pass works on. *)
Definition document_lines (text : str) : list str :=
  split_nl (normalize_whitespace text).

(** *** A document used as concrete input below *)

#[local] Open Scope string_scope.
#[local] Open Scope list_scope.

(** Twelve lines; the first and the fourth mention the NDC. *)
Definition ndc_lines : list str :=
  map of_string
    ["The NDC of Kenya"; "line 1"; "line 2"; "Tracking the ndc"; "line 4";
     "line 5"; "line 6"; "line 7"; "line 8"; "line 9"; "line 10"; "line 11"].

Definition ndc_keywords : list str := [of_string "NDC"].

End Keywords.

(* ================================================================= *)
(** ** File names ([slugify]) *)

Module Slug.
Import Text Locator Keywords.

Definition underscore : ascii := "_"%char.

(** The class [[a-z0-9]]. *)
Definition is_slug_char (c : ascii) : bool :=
  in_range 97 122 c || in_range 48 57 c.

Definition is_underscore (c : ascii) : bool := Ascii.eqb c underscore.

(** [[^a-z0-9]+] *)
Definition other_run (s : str) : nat :=
  span_len (fun c => negb (is_slug_char c)) s.

(** [_{2,}] *)
Definition underscores2 (s : str) : nat :=
  let n := span_len is_underscore s in
  if 2 <=? n then n else 0.

(** [str.strip(chars)] for the characters of a class. *)
Fixpoint lstrip_of (p : ascii -> bool) (s : str) : str :=
  match s with
  | c :: s' => if p c then lstrip_of p s' else s
  | [] => []
  end.

Definition rstrip_of (p : ascii -> bool) (s : str) : str :=
  rev (lstrip_of p (rev s)).

Definition strip_of (p : ascii -> bool) (s : str) : str :=
  rstrip_of p (lstrip_of p s).

Definition slugify (value : str) : str :=
  let value := lower (strip value) in
  let value := re_sub other_run [underscore] 0 value in
  strip_of is_underscore (re_sub underscores2 [underscore] 0 value).

End Slug.

(* ================================================================= *)
(** ** Heading ranges ([find_section_ranges], [extract_sections]) *)

Module Ranges.
Import Text Locator Keywords.

(** [patterns], the dict comprehension over [SECTION_NAMES]: each
    name with the pattern [re.escape(name)], compiled under
    [re.IGNORECASE]. *)
Definition patterns (SECTION_NAMES : list string) : list (string * str) :=
  fold_left (fun d name => assoc_set name (of_string name) d) SECTION_NAMES [].

(** [pattern.search(line)] for such a pattern: does the name occur in
    the line, letter case apart. *)
Definition pattern_search (pattern line : str) : bool :=
  match find_ci pattern line 0 with
  | Some _ => true
  | None => false
  end.

Definition has_key {V : Type} (k : string) (d : list (string * V)) : bool :=
  match assoc_get k d with
  | Some _ => true
  | None => false
  end.

(** The body of [for section_name, pattern in patterns.items()] for
    line [i]. *)
Definition starts_step (i : nat) (line : str) (starts : list (string * nat))
    (item : string * str) : list (string * nat) :=
  if has_key (fst item) starts then starts
  else if pattern_search (snd item) line then assoc_set (fst item) i starts
  else starts.

(** [for i, line in enumerate(lines)]; [i] numbers the head of
    [lines]. *)
Fixpoint starts_from (i : nat) (pats : list (string * str)) (lines : list str)
    (starts : list (string * nat)) : list (string * nat) :=
  match lines with
  | [] => starts
  | line :: rest =>
      starts_from (S i) pats rest (fold_left (starts_step i line) pats starts)
  end.

Definition section_starts (SECTION_NAMES : list string) (lines : list str)
  : list (string * nat) :=
  starts_from 0 (patterns SECTION_NAMES) lines [].

(** [[s for s in SECTION_NAMES if s in starts]] *)
Definition sorted_sections (SECTION_NAMES : list string)
    (starts : list (string * nat)) : list string :=
  filter (fun s => has_key s starts) SECTION_NAMES.

(** [starts[name]] for a name of [sorted_sections], which is a key of
    [starts]. *)
Definition start_of (starts : list (string * nat)) (name : string) : nat :=
  match assoc_get name starts with
  | Some i => i
  | None => 0
  end.

(** [for idx, section_name in enumerate(sorted_sections)], on the
    sections from [idx] on. *)
Fixpoint ranges_loop (n_lines : nat) (starts : list (string * nat))
    (sorted : list string) (ranges : list (string * (nat * nat)))
  : list (string * (nat * nat)) :=
  match sorted with
  | [] => ranges
  | section_name :: rest =>
      let start := start_of starts section_name in
      let stop :=
        match rest with
        | next_section :: _ => start_of starts next_section
        | [] => n_lines
        end in
      ranges_loop n_lines starts rest (assoc_set section_name (start, stop) ranges)
  end.

Definition find_section_ranges (SECTION_NAMES : list string) (lines : list str)
  : list (string * (nat * nat)) :=
  let starts := section_starts SECTION_NAMES lines in
  ranges_loop (List.length lines) starts (sorted_sections SECTION_NAMES starts) [].

(** ["\n".join(lines[start:end]).strip()] *)
Definition range_text (lines : list str) (range : nat * nat) : str :=
  strip (join [nl] (firstn (snd range - fst range) (skipn (fst range) lines))).

(** [extract_sections], for any [SECTION_NAMES] and [SECTION_KEYWORDS]. *)
Definition extract_sections
    (SECTION_NAMES : list string) (SECTION_KEYWORDS : list (string * list str))
    (text : str) : list (string * str) :=
  let cleaned := normalize_whitespace text in
  let lines := split_nl cleaned in
  match find_section_ranges SECTION_NAMES lines with
  | [] => extract_sections_by_keywords SECTION_NAMES SECTION_KEYWORDS text
  | ranges =>
      fold_left
        (fun sections name =>
           let extracted :=
             match assoc_get name ranges with
             | Some range => range_text lines range
             | None => []
             end in
           assoc_set name extracted sections)
        SECTION_NAMES []
  end.

(** The first line that a name occurs in, letter case apart. *)
Fixpoint first_line (name : string) (lines : list str) : option nat :=
  match lines with
  | [] => None
  | line :: rest =>
      if pattern_search (of_string name) line then Some 0
      else option_map S (first_line name rest)
  end.

#[local] Open Scope string_scope.
#[local] Open Scope list_scope.

(** *** A document used as concrete input below *)

Definition module_names : list string :=
  ["NDC Tracking Module"; "Support Needed and Received Module";
   "Other baseline initiatives"].

(** The second module's heading comes before the first one's. *)
Definition swapped_document : str :=
  of_string "Support needed and received module" ++ [nl] ++
  of_string "Finance received" ++ [nl] ++
  of_string "NDC tracking module" ++ [nl] ++
  of_string "Indicators".

(** The two module headings in the configured order; the word
    "baseline" is in the text but the third heading is not. *)
Definition headed_document : str :=
  of_string "NDC Tracking Module" ++ [nl] ++
  of_string "Indicators" ++ [nl] ++
  of_string "Baseline projects" ++ [nl] ++
  of_string "Support Needed and Received Module" ++ [nl] ++
  of_string "Finance received".

Definition baseline_keywords : list (string * list str) :=
  [("Other baseline initiatives", [of_string "baseline"])].

(** No module heading at all. *)
Definition plain_document : str :=
  of_string "Tracking the NDC" ++ [nl] ++
  of_string "Baseline projects".

End Ranges.

(* ================================================================= *)
(** ** The stored sections ([SupabaseClient.upsert_country_sections]) *)

Module Upsert.
Import Text Locator.

(** The JSON objects of the sections column.  A key that the code
    reads with [.get] or tests with [in] may be missing: [None]. *)
Record Document : Type := mkDocument {
  doc_type : option string;
  extracted_text : option str
}.

Record SectionObj : Type := mkSection {
  name : option string;
  documents : option (list Document)
}.

(** What [existing.get(sections_column) or {}] can be: a dict with
    the key "sections", a dict without it (the old format maps a
    section name to a dict from document type to text), or nothing. *)
Inductive Stored : Type :=
| NewFormat (sections : list SectionObj)
| OldFormat (sections_data : list (string * list (string * str)))
| NoData.

(** [doc.get("doc_type") == doc_type] *)
Definition has_doc_type (dt : string) (doc : Document) : bool :=
  match doc_type doc with
  | Some t => String.eqb t dt
  | None => false
  end.

(** [sec.get("name") == section_name] *)
Definition has_name (section_name : string) (sec : SectionObj) : bool :=
  match name sec with
  | Some n => String.eqb n section_name
  | None => false
  end.

(** The old format, section by section in the order of
    [SECTION_NAMES]; empty texts and sections left without document
    are not taken over. *)
Definition convert_documents (old : list (string * str)) : list Document :=
  map (fun item => mkDocument (Some (fst item)) (Some (snd item)))
      (filter (fun item => match snd item with [] => false | _ => true end) old).

Definition convert_section (sections_data : list (string * list (string * str)))
    (section_name : string) : list SectionObj :=
  match assoc_get section_name sections_data with
  | Some old =>
      match convert_documents old with
      | [] => []
      | docs => [mkSection (Some section_name) (Some docs)]
      end
  | None => []
  end.

(** [sections_list] before the loop over the new sections. *)
Definition stored_sections (SECTION_NAMES : list string) (sections_data : Stored)
  : list SectionObj :=
  match sections_data with
  | NewFormat sections => sections
  | OldFormat [] => []
  | OldFormat ((first_key, docs) :: rest) =>
      if existsb (String.eqb first_key) SECTION_NAMES
      then flat_map (convert_section ((first_key, docs) :: rest)) SECTION_NAMES
      else []
  | NoData => []
  end.

(** [for doc in section_obj["documents"]] with its [break], and the
    [append] when no document has the type. *)
Fixpoint set_document (dt : string) (text : str) (docs : list Document)
  : list Document :=
  match docs with
  | [] => [mkDocument (Some dt) (Some text)]
  | doc :: rest =>
      if has_doc_type dt doc
      then mkDocument (doc_type doc) (Some text) :: rest
      else doc :: set_document dt text rest
  end.

(** [section_obj["documents"]] after [if "documents" not in section_obj]. *)
Definition documents_of (sec : SectionObj) : list Document :=
  match documents sec with
  | Some docs => docs
  | None => []
  end.

(** [for sec in sections_list] with its [break], the new section when
    none has the name, and the update of the section found or made. *)
Fixpoint set_section (section_name dt : string) (text : str)
    (sections_list : list SectionObj) : list SectionObj :=
  match sections_list with
  | [] => [mkSection (Some section_name) (Some (set_document dt text []))]
  | sec :: rest =>
      if has_name section_name sec
      then mkSection (name sec) (Some (set_document dt text (documents_of sec))) :: rest
      else sec :: set_section section_name dt text rest
  end.

(** The body of [for section_name, text in new_sections_for_doc.items()]. *)
Definition upsert_step (dt : string) (sections_list : list SectionObj)
    (item : string * str) : list SectionObj :=
  match snd item with
  | [] => sections_list
  | text => set_section (fst item) dt text sections_list
  end.

(** [upsert_country_sections]: the list under "sections" in the
    payload that is sent. *)
Definition upsert_country_sections (SECTION_NAMES : list string)
    (sections_data : Stored) (new_sections_for_doc : list (string * str))
    (dt : string) : list SectionObj :=
  fold_left (upsert_step dt) new_sections_for_doc
            (stored_sections SECTION_NAMES sections_data).

(** *** Reading the store *)

Fixpoint find_document (dt : string) (docs : list Document) : option Document :=
  match docs with
  | [] => None
  | doc :: rest => if has_doc_type dt doc then Some doc else find_document dt rest
  end.

Fixpoint find_section (section_name : string) (sections_list : list SectionObj)
  : option SectionObj :=
  match sections_list with
  | [] => None
  | sec :: rest =>
      if has_name section_name sec then Some sec else find_section section_name rest
  end.

(** The text of the first document of type [dt] in the first section
    called [section_name]. *)
Definition stored_text (sections_list : list SectionObj)
    (section_name dt : string) : option str :=
  match find_section section_name sections_list with
  | Some sec =>
      match find_document dt (documents_of sec) with
      | Some doc => extracted_text doc
      | None => None
      end
  | None => None
  end.

(** *** Stores used as concrete inputs below *)

#[local] Open Scope string_scope.
#[local] Open Scope list_scope.

Definition bur1_store : Stored :=
  NewFormat
    [mkSection (Some "NDC Tracking Module")
       (Some [mkDocument (Some "BUR1") (Some (of_string "Indicators 2019"))])].

Definition old_store : Stored :=
  OldFormat
    [("NDC Tracking Module", [("BUR1", of_string "Indicators 2019"); ("BUR2", [])])].

Definition summary_first_store : Stored :=
  OldFormat
    [("Summary", [("BUR1", of_string "In short")]);
     ("NDC Tracking Module", [("BUR1", of_string "Indicators 2019")])].

Definition bur2_sections : list (string * str) :=
  [("NDC Tracking Module", of_string "Indicators 2021");
   ("Support Needed and Received Module", []);
   ("Other baseline initiatives", of_string "Projects")].

End Upsert.

(* ================================================================= *)
(** ** The run ([main], [write_section_outputs], [build_json_entry]) *)

Module Pipeline.
Import Text Locator.

Record PDFLink : Type := mkLink {
  title : string;
  url : string;
  source_doc : string;
  local_path : option string
}.

(** [link.url if link.url else str(link.local_path)] *)
Definition link_key (link : PDFLink) : string :=
  match url link with
  | EmptyString =>
      match local_path link with
      | Some path => path
      | None => "None"%string
      end
  | _ => url link
  end.

(** [for link in pdf_links] with [seen_urls] and [deduped]. *)
Fixpoint dedupe_loop (seen_urls : list string) (pdf_links : list PDFLink)
  : list PDFLink :=
  match pdf_links with
  | [] => []
  | link :: rest =>
      let key := link_key link in
      if existsb (String.eqb key) seen_urls
      then dedupe_loop seen_urls rest
      else link :: dedupe_loop (key :: seen_urls) rest
  end.

Definition deduped (pdf_links : list PDFLink) : list PDFLink :=
  dedupe_loop [] pdf_links.

(** [build_json_entry]; [created] is the rendering
    [timestamp.replace(microsecond=0).isoformat().replace("+00:00", "Z")]
    of the time stamp. *)
Definition build_json_entry (country section source_doc url : string)
    (text : str) (created : string) : Sync.Entry :=
  Sync.mkEntry country section source_doc url (string_of_list_ascii text)
               created false.

(** [collected[section_name].append(entry)]; [None] is the [KeyError]
    of a section name that is not a key. *)
Fixpoint append_to (section_name : string) (entry : Sync.Entry)
    (collected : list (string * list Sync.Entry))
  : option (list (string * list Sync.Entry)) :=
  match collected with
  | [] => None
  | (k, entries) :: rest =>
      if String.eqb section_name k
      then Some ((k, entries ++ [entry]) :: rest)
      else option_map (cons (k, entries)) (append_to section_name entry rest)
  end.

(** [docs.setdefault(entry["source_doc"], []).append(entry)] *)
Definition group_step (docs : list (string * list Sync.Entry))
    (entry : Sync.Entry) : list (string * list Sync.Entry) :=
  match assoc_get (Sync.source_doc entry) docs with
  | Some doc_entries =>
      assoc_set (Sync.source_doc entry) (doc_entries ++ [entry]) docs
  | None => assoc_set (Sync.source_doc entry) [entry] docs
  end.

Definition group_by_doc (entries : list Sync.Entry)
  : list (string * list Sync.Entry) :=
  fold_left group_step entries [].

(** [slugify(source_doc or "document") + ".json"] *)
Definition doc_name (source_doc : string) : str :=
  Slug.slugify (of_string match source_doc with
                          | EmptyString => "document"%string
                          | _ => source_doc
                          end)
  ++ of_string ".json".

(** The objects of the batch once [merge_bundles] has returned: its
    first loop assigns [created_utc] and [stale] of an entry in place
    before it appends it, and [write_section_outputs] goes on to use
    the same objects. *)
Definition incoming (s : Sync.Slot) : list Sync.Entry :=
  match s with
  | Sync.Incoming e => [e]
  | Sync.Existing _ => []
  end.

Definition entries_after_merge (existing_entries new_entries : list Sync.Entry)
  : list Sync.Entry :=
  let st0 := Sync.mkState (Sync.existing_lookup existing_entries) [] [] in
  flat_map incoming (Sync.updated_entries (fold_left Sync.merge_step new_entries st0)).

(** What [write_section_outputs] writes: the bundle, and for each
    source document the name and the content of its file, in the order
    of writing.  [existing_entries] is the content of the bundle file
    before, [[]] when there is none. *)
Definition write_section_outputs (existing_entries entries : list Sync.Entry)
  : list Sync.Entry * list (str * list Sync.Entry) :=
  let merged_entries := Sync.merge_bundles existing_entries entries in
  let docs := group_by_doc (entries_after_merge existing_entries entries) in
  (merged_entries, map (fun item => (doc_name (fst item), snd item)) docs).

Section Run.

Variable re_search : Flags -> str -> str -> SearchResult.

(** The page texts of the file that [download_pdf] returns for a
    link. *)
Variable pages_of : PDFLink -> list str.

Variable SECTION_DEFINITIONS : list (string * SectionConfig).

(** The content of the bundle file of a section before the run;
    each section has a bundle file of its own, as in the shipped
    [SECTION_DEFINITIONS]. *)
Variable bundle_of : string -> list Sync.Entry.

Variables country created : string.

(** [{section: [] for section in SECTION_DEFINITIONS}] *)
Definition no_entries : list (string * list Sync.Entry) :=
  fold_left (fun d item => assoc_set (fst item) [] d) SECTION_DEFINITIONS [].

(** The body of [for section_name, text in sections.items()]. *)
Definition collect_section (pdf : PDFLink)
    (collected : option (list (string * list Sync.Entry)))
    (item : string * str) : option (list (string * list Sync.Entry)) :=
  match collected with
  | Some c =>
      append_to (fst item)
        (build_json_entry country (fst item) (source_doc pdf) (url pdf)
                          (snd item) created)
        c
  | None => None
  end.

(** The body of [for pdf in pdf_links]. *)
Definition collect_pdf (collected : option (list (string * list Sync.Entry)))
    (pdf : PDFLink) : option (list (string * list Sync.Entry)) :=
  fold_left (collect_section pdf)
            (extract_sections_from_pdf re_search (pages_of pdf) SECTION_DEFINITIONS)
            collected.

Definition collect (pdf_links : list PDFLink)
  : option (list (string * list Sync.Entry)) :=
  fold_left collect_pdf pdf_links (Some no_entries).

(** The body of [for section_name, entries in collected.items()]. *)
Definition write_section (item : string * list Sync.Entry)
  : list (string * (list Sync.Entry * list (str * list Sync.Entry))) :=
  match snd item with
  | [] => []
  | entries => [(fst item, write_section_outputs (bundle_of (fst item)) entries)]
  end.

(** [main] from the list of links on, every download taken to
    succeed: for each section with entries what is written for it;
    [None] for a run that the [KeyError] of [append_to] ends. *)
Definition main (pdf_links : list PDFLink)
  : option (list (string * (list Sync.Entry * list (str * list Sync.Entry)))) :=
  match deduped pdf_links with
  | [] => Some []
  | links => option_map (flat_map write_section) (collect links)
  end.

End Run.

(** *** Links used as concrete inputs below *)

#[local] Open Scope string_scope.
#[local] Open Scope list_scope.

Definition bur1_link : PDFLink :=
  mkLink "First Biennial Update Report" "https://unfccc.int/cuba_bur1.pdf" "BUR1" None.

Definition nc3_link : PDFLink :=
  mkLink "Third National Communication" "https://unfccc.int/cuba_nc3.pdf" "NC" None.

(** A run for Cuba over two links to one document text, with
    bundles that hold an entry of Kenya. *)
Definition example_pages (link : PDFLink) : list str := [cuba_page].

Definition example_bundle (section_name : string) : list Sync.Entry :=
  [SyncExamples.kenya_entry].

Definition example_run
  : option (list (string * (list Sync.Entry * list (str * list Sync.Entry)))) :=
  main literal_search example_pages cuba_definitions example_bundle
       "Cuba" "2024-03-01T00:00:00Z" [bur1_link; nc3_link; bur1_link].

Definition example_outputs
  : list (string * (list Sync.Entry * list (str * list Sync.Entry))) :=
  match example_run with
  | Some outs => outs
  | None => []
  end.

End Pipeline.

(* ################################################################# *)
(** * Part II: properties *)

(* ================================================================= *)
(** ** Facts about [merge_bundles] *)

Module SyncFacts.
Import Sync.

#[local] Arguments key_eqb : simpl never.
#[local] Arguments key_of : simpl never.
#[local] Arguments sort_key : simpl never.
#[local] Arguments key3_ltb : simpl never.
#[local] Arguments key_in : simpl never.
#[local] Arguments Entry_eq_dec : simpl never.

Lemma key_eqb_spec (a b : Key) : reflect (a = b) (key_eqb a b).
Proof.
  destruct a as [[[a1 a2] a3] a4], b as [[[b1 b2] b3] b4]; unfold key_eqb.
  destruct (String.eqb_spec a1 b1), (String.eqb_spec a2 b2),
    (String.eqb_spec a3 b3), (String.eqb_spec a4 b4);
    simpl; constructor; congruence.
Qed.

Lemma key_eqb_refl k : key_eqb k k = true.
Proof. destruct (key_eqb_spec k k); congruence. Qed.

Lemma key_eqb_neq a b : a <> b -> key_eqb a b = false.
Proof. destruct (key_eqb_spec a b); congruence. Qed.

Lemma key_eqb_sym a b : key_eqb a b = key_eqb b a.
Proof.
  destruct (key_eqb_spec a b), (key_eqb_spec b a); congruence.
Qed.

Lemma key_in_spec k ks : reflect (In k ks) (key_in k ks).
Proof.
  unfold key_in. induction ks as [|k' ks IH]; simpl.
  - constructor; tauto.
  - destruct (key_eqb_spec k k') as [->|Hne]; simpl.
    + constructor; auto.
    + destruct IH; constructor; intuition congruence.
Qed.

Lemma key_of_set_stale e : key_of (set_stale e) = key_of e.
Proof. reflexivity. Qed.


Lemma set_stale_fixed e : stale e = true -> set_stale e = e.
Proof. destruct e; simpl; intros ->; reflexivity. Qed.


(** *** The store *)

Lemma dict_get_set_same k v d : dict_get k (dict_set k v d) = Some v.
Proof.
  induction d as [|[k' v'] d IH]; simpl.
  - now rewrite key_eqb_refl.
  - destruct (key_eqb k k') eqn:E; simpl; rewrite ?key_eqb_refl, ?E; auto.
Qed.

Lemma dict_get_set_other k k' v d :
  k' <> k -> dict_get k' (dict_set k v d) = dict_get k' d.
Proof.
  intros Hne. induction d as [|[k0 v0] d IH]; simpl.
  - now rewrite (key_eqb_neq _ _ Hne).
  - destruct (key_eqb_spec k k0) as [->|Hk]; simpl.
    + now rewrite (key_eqb_neq _ _ Hne).
    + destruct (key_eqb k' k0); auto.
Qed.

Lemma dict_keys_set_present k v d e :
  dict_get k d = Some e -> map fst (dict_set k v d) = map fst d.
Proof.
  induction d as [|[k0 v0] d IH]; simpl; [discriminate|].
  destruct (key_eqb_spec k k0) as [->|Hk]; simpl; intros H.
  - reflexivity.
  - now rewrite IH.
Qed.

Lemma dict_get_in_keys k d e : dict_get k d = Some e -> In k (map fst d).
Proof.
  induction d as [|[k0 v0] d IH]; simpl; [discriminate|].
  destruct (key_eqb_spec k k0) as [->|Hk]; auto.
Qed.


Lemma dict_get_none_not_in k d : dict_get k d = None -> ~ In k (map fst d).
Proof.
  induction d as [|[k0 v0] d IH]; simpl; auto.
  destruct (key_eqb_spec k k0) as [->|Hk]; [discriminate|].
  intros G [E|Hin]; [congruence | now apply IH].
Qed.

Lemma dict_keys_set_absent k v d :
  dict_get k d = None -> map fst (dict_set k v d) = map fst d ++ [k].
Proof.
  induction d as [|[k0 v0] d IH]; simpl; auto.
  destruct (key_eqb_spec k k0) as [->|Hk]; simpl; [discriminate|].
  intros H. now rewrite IH.
Qed.

(** A store is well formed when its keys are distinct and every value
    is filed under its own identity key. *)
Definition dict_wf (d : Dict) : Prop :=
  NoDup (map fst d) /\ forall k e, dict_get k d = Some e -> key_of e = k.

Lemma dict_wf_nil : dict_wf [].
Proof. split; [constructor | discriminate]. Qed.

Lemma dict_wf_set k v d : dict_wf d -> key_of v = k -> dict_wf (dict_set k v d).
Proof.
  intros [Hnd Hk] Hv. split.
  - destruct (dict_get k d) eqn:G.
    + now rewrite (dict_keys_set_present _ _ _ _ G).
    + rewrite (dict_keys_set_absent _ _ _ G).
      apply NoDup_app; auto.
      * constructor; [simpl; tauto | constructor].
      * intros x Hx [Hx'|[]]; subst x.
        now apply (dict_get_none_not_in _ _ G).
  - intros k' e. destruct (key_eqb_spec k' k) as [->|Hne].
    + rewrite dict_get_set_same. congruence.
    + rewrite dict_get_set_other by auto. apply Hk.
Qed.

Lemma existing_lookup_wf_from l d :
  dict_wf d -> dict_wf (fold_left (fun d e => dict_set (key_of e) e d) l d).
Proof.
  revert d. induction l as [|e l IH]; simpl; auto.
  intros d Hd. apply IH. now apply dict_wf_set.
Qed.

Lemma existing_lookup_wf l : dict_wf (existing_lookup l).
Proof. apply existing_lookup_wf_from, dict_wf_nil. Qed.

(** *** The loops, read as values

    [per_entry d entry] is what one round of the first loop appends,
    [store_after d entry] the store it leaves behind. *)

Definition per_entry (d : Dict) (entry : Entry) : list Entry :=
  match dict_get (key_of entry) d with
  | Some existing =>
      if String.eqb (extracted_text existing) (extracted_text entry)
      then [refresh entry existing]
      else [set_stale existing; entry]
  | None => [entry]
  end.

Definition store_after (d : Dict) (entry : Entry) : Dict :=
  match dict_get (key_of entry) d with
  | Some existing =>
      if String.eqb (extracted_text existing) (extracted_text entry)
      then d
      else dict_set (key_of entry) (set_stale existing) d
  | None => d
  end.

Fixpoint batch_values (d : Dict) (batch : list Entry) : list Entry :=
  match batch with
  | [] => []
  | n :: batch' => per_entry d n ++ batch_values (store_after d n) batch'
  end.

Fixpoint batch_store (d : Dict) (batch : list Entry) : Dict :=
  match batch with
  | [] => d
  | n :: batch' => batch_store (store_after d n) batch'
  end.

Fixpoint unseen_values (d : Dict) (seen ks : list Key) : list Entry :=
  match ks with
  | [] => []
  | k :: ks' =>
      if key_in k seen then unseen_values d seen ks'
      else match dict_get k d with
           | Some e =>
               set_stale e :: unseen_values (dict_set k (set_stale e) d) seen ks'
           | None => unseen_values d seen ks'
           end
  end.

Definition values (st : LoopState) : list Entry :=
  flat_map (deref (lookup st)) (updated_entries st).

(** Every reference already appended points at an entry that is stale,
    so a later [existing["stale"] = True] cannot change what it shows. *)
Definition refs_stale (st : LoopState) : Prop :=
  forall k, In (Existing k) (updated_entries st) ->
            exists e, dict_get k (lookup st) = Some e /\ stale e = true.

Lemma deref_set_stale d upd k e :
  (forall k', In (Existing k') upd ->
              exists e', dict_get k' d = Some e' /\ stale e' = true) ->
  dict_get k d = Some e ->
  flat_map (deref (dict_set k (set_stale e) d)) upd = flat_map (deref d) upd.
Proof.
  intros Hrefs Hk. induction upd as [|s upd IH]; simpl; auto.
  rewrite IH by (intros; apply Hrefs; simpl; auto). f_equal.
  destruct s as [k'|n]; simpl; auto.
  destruct (key_eqb_spec k' k) as [->|Hne].
  - rewrite dict_get_set_same, Hk.
    destruct (Hrefs k (or_introl eq_refl)) as (e' & He' & Hs).
    rewrite Hk in He'. injection He' as <-. now rewrite set_stale_fixed.
  - now rewrite dict_get_set_other.
Qed.

Lemma refs_stale_set st k e upd' :
  refs_stale st ->
  dict_get k (lookup st) = Some e ->
  (forall k', In (Existing k') upd' -> k' = k) ->
  refs_stale (mkState (dict_set k (set_stale e) (lookup st))
                      (updated_entries st ++ upd') (seen_keys st)).
Proof.
  intros Hrefs Hk Hnew k' Hin; simpl in *.
  destruct (key_eqb_spec k' k) as [->|Hne].
  - rewrite dict_get_set_same. eauto.
  - rewrite dict_get_set_other by auto.
    apply in_app_or in Hin. destruct Hin as [Hin|Hin]; auto.
    apply Hnew in Hin. contradiction.
Qed.

Lemma merge_step_values st n :
  refs_stale st ->
  refs_stale (merge_step st n) /\
  values (merge_step st n) = values st ++ per_entry (lookup st) n /\
  lookup (merge_step st n) = store_after (lookup st) n /\
  seen_keys (merge_step st n) = key_of n :: seen_keys st.
Proof.
  intros Hrefs. unfold merge_step, per_entry, store_after, values.
  destruct (dict_get (key_of n) (lookup st)) as [e|] eqn:G.
  - destruct (String.eqb (extracted_text e) (extracted_text n)); simpl.
    + repeat split; auto.
      * intros k Hin; simpl in *. apply in_app_or in Hin.
        destruct Hin as [Hin|[Hin|[]]]; [auto | discriminate].
      * now rewrite flat_map_app.
    + repeat split; auto.
      * pose proof (refs_stale_set st (key_of n) e
                      [Existing (key_of n); Incoming n] Hrefs G) as H.
        intros k Hin. apply H; auto.
        intros k' [E|[E|[]]]; congruence.
      * rewrite flat_map_app, (@deref_set_stale _ _ _ _ Hrefs G); simpl.
        now rewrite dict_get_set_same.
  - simpl. repeat split; auto.
    + intros k Hin; simpl in *. apply in_app_or in Hin.
      destruct Hin as [Hin|[Hin|[]]]; [auto | discriminate].
    + now rewrite flat_map_app.
Qed.

Lemma merge_loop_values batch : forall st,
  refs_stale st ->
  let st1 := fold_left merge_step batch st in
  refs_stale st1 /\
  values st1 = values st ++ batch_values (lookup st) batch /\
  lookup st1 = batch_store (lookup st) batch /\
  seen_keys st1 = rev (map key_of batch) ++ seen_keys st.
Proof.
  induction batch as [|n batch IH]; intros st Hrefs; simpl.
  - now rewrite app_nil_r.
  - destruct (merge_step_values _ n Hrefs) as (H1 & H2 & H3 & H4).
    destruct (IH _ H1) as (I1 & I2 & I3 & I4).
    repeat split; auto.
    + now rewrite I2, H2, H3, <- app_assoc.
    + now rewrite I3, H3.
    + now rewrite I4, H4, <- app_assoc.
Qed.

Lemma stale_step_values st k :
  refs_stale st ->
  let st' := stale_step st k in
  refs_stale st' /\ seen_keys st' = seen_keys st /\
  forall ks, values st' ++ unseen_values (lookup st') (seen_keys st) ks =
             values st ++ unseen_values (lookup st) (seen_keys st) (k :: ks).
Proof.
  intros Hrefs. unfold stale_step; simpl.
  destruct (key_in k (seen_keys st)); [now auto|].
  destruct (dict_get k (lookup st)) as [e|] eqn:G; [|now auto].
  repeat split.
  - apply refs_stale_set; auto. intros k' [E|[]]; congruence.
  - intros ks. unfold values; simpl.
    rewrite flat_map_app, (@deref_set_stale _ _ _ _ Hrefs G); simpl.
    now rewrite dict_get_set_same, <- app_assoc.
Qed.

Lemma stale_loop_values ks : forall st,
  refs_stale st ->
  values (fold_left stale_step ks st) =
  values st ++ unseen_values (lookup st) (seen_keys st) ks.
Proof.
  induction ks as [|k ks IH]; intros st Hrefs; simpl fold_left.
  - simpl. now rewrite app_nil_r.
  - destruct (stale_step_values _ k Hrefs) as (H1 & H2 & H3).
    rewrite (IH _ H1), H2. apply H3.
Qed.

(** [merge_bundles] without references. *)
Lemma merge_bundles_values existing batch :
  merge_bundles existing batch =
  let d := existing_lookup existing in
  sort_entries
    (batch_values d batch ++
     unseen_values (batch_store d batch) (rev (map key_of batch))
                   (map fst (batch_store d batch))).
Proof.
  unfold merge_bundles. cbv zeta.
  set (st0 := mkState (existing_lookup existing) [] []).
  assert (H0 : refs_stale st0) by (intros k []).
  destruct (merge_loop_values batch _ H0) as (H1 & H2 & H3 & H4).
  fold (values (fold_left stale_step
                  (map fst (lookup (fold_left merge_step batch st0)))
                  (fold_left merge_step batch st0))).
  rewrite (stale_loop_values _ _ H1), H2, H3, H4. simpl.
  now rewrite app_nil_r.
Qed.

(** *** The order of the sort keys *)

Lemma str_compare_refl a : String.compare a a = Eq.
Proof. now apply String_as_OT.cmp_eq. Qed.

Lemma str_compare_lt_trans a b c :
  String.compare a b = Lt -> String.compare b c = Lt -> String.compare a c = Lt.
Proof.
  intros H1 H2. apply String_as_OT.cmp_lt.
  apply String_as_OT.lt_trans with b; now apply String_as_OT.cmp_lt.
Qed.


Definition key3_compare (a b : string * string * string) : comparison :=
  match a, b with
  | (a1, a2, a3), (b1, b2, b3) =>
      match String.compare a1 b1 with
      | Eq => match String.compare a2 b2 with
              | Eq => String.compare a3 b3
              | c => c
              end
      | c => c
      end
  end.

Lemma key3_ltb_compare a b : key3_ltb a b = true <-> key3_compare a b = Lt.
Proof.
  destruct a as [[a1 a2] a3], b as [[b1 b2] b3]; unfold key3_ltb, String.ltb; simpl.
  destruct (String.compare a1 b1); [|tauto|split; discriminate].
  destruct (String.compare a2 b2); [|tauto|split; discriminate].
  destruct (String.compare a3 b3); split; auto; discriminate.
Qed.

Lemma key3_compare_eq a b : key3_compare a b = Eq -> a = b.
Proof.
  destruct a as [[a1 a2] a3], b as [[b1 b2] b3]; simpl.
  destruct (String.compare a1 b1) eqn:E1; try discriminate.
  destruct (String.compare a2 b2) eqn:E2; try discriminate.
  intros E3. apply String.compare_eq_iff in E1, E2, E3. congruence.
Qed.

Lemma key3_compare_antisym a b : key3_compare a b = CompOpp (key3_compare b a).
Proof.
  destruct a as [[a1 a2] a3], b as [[b1 b2] b3]; simpl.
  rewrite (String.compare_antisym a1 b1), (String.compare_antisym a2 b2),
    (String.compare_antisym a3 b3).
  destruct (String.compare b1 a1), (String.compare b2 a2); reflexivity.
Qed.

Lemma key3_compare_lt_trans a b c :
  key3_compare a b = Lt -> key3_compare b c = Lt -> key3_compare a c = Lt.
Proof.
  destruct a as [[a1 a2] a3], b as [[b1 b2] b3], c as [[c1 c2] c3]; simpl.
  destruct (String.compare a1 b1) eqn:A1; try discriminate;
    destruct (String.compare b1 c1) eqn:B1; try discriminate;
    try (apply String.compare_eq_iff in A1; subst b1);
    try (apply String.compare_eq_iff in B1; subst c1);
    rewrite ?A1, ?B1, ?(str_compare_lt_trans _ _ _ A1 B1); auto.
  rewrite str_compare_refl.
  destruct (String.compare a2 b2) eqn:A2; try discriminate;
    destruct (String.compare b2 c2) eqn:B2; try discriminate;
    try (apply String.compare_eq_iff in A2; subst b2);
    try (apply String.compare_eq_iff in B2; subst c2);
    rewrite ?A2, ?B2, ?(str_compare_lt_trans _ _ _ A2 B2); auto.
  rewrite str_compare_refl. apply str_compare_lt_trans.
Qed.

(** [not_after a b]: the key of [b] is not strictly below that of [a]. *)
Definition not_after (a b : Entry) : Prop :=
  key3_ltb (sort_key b) (sort_key a) = false.

Lemma not_after_of_lt a b :
  key3_ltb (sort_key a) (sort_key b) = true -> not_after a b.
Proof.
  unfold not_after. intros H. apply key3_ltb_compare in H.
  destruct (key3_ltb (sort_key b) (sort_key a)) eqn:E; auto.
  apply key3_ltb_compare in E.
  rewrite key3_compare_antisym, H in E. discriminate.
Qed.

Lemma not_after_trans a b c : not_after a b -> not_after b c -> not_after a c.
Proof.
  unfold not_after. intros Hab Hbc.
  destruct (key3_ltb (sort_key c) (sort_key a)) eqn:Hca; auto.
  apply key3_ltb_compare in Hca.
  destruct (key3_compare (sort_key b) (sort_key a)) eqn:Hba.
  - apply key3_compare_eq in Hba. rewrite <- Hba in Hca.
    apply key3_ltb_compare in Hca. congruence.
  - apply key3_ltb_compare in Hba. congruence.
  - assert (Hab' : key3_compare (sort_key a) (sort_key b) = Lt)
      by (rewrite key3_compare_antisym, Hba; reflexivity).
    pose proof (key3_compare_lt_trans _ _ _ Hca Hab') as Hcb.
    apply key3_ltb_compare in Hcb. congruence.
Qed.

(** *** The sort *)

Lemma insert_sorted_perm x l : Permutation (insert_sorted x l) (x :: l).
Proof.
  induction l as [|y l IH]; cbn [insert_sorted]; auto.
  destruct (key3_ltb (sort_key y) (sort_key x)); auto.
  apply perm_trans with (y :: x :: l); [apply perm_skip, IH | apply perm_swap].
Qed.

Lemma sort_entries_perm l : Permutation (sort_entries l) l.
Proof.
  induction l as [|x l IH]; simpl; auto.
  apply perm_trans with (x :: sort_entries l);
    [apply insert_sorted_perm | apply perm_skip, IH].
Qed.

Lemma insert_sorted_sorted x l :
  StronglySorted not_after l -> StronglySorted not_after (insert_sorted x l).
Proof.
  induction 1 as [|y l Hl IH Hy]; cbn [insert_sorted].
  - repeat constructor.
  - destruct (key3_ltb (sort_key y) (sort_key x)) eqn:E.
    + constructor; auto.
      eapply Permutation_Forall; [symmetry; apply insert_sorted_perm|].
      constructor; auto. now apply not_after_of_lt.
    + constructor; [now constructor|].
      constructor; auto.
      eapply Forall_impl; [|exact Hy].
      intros z Hz. now apply not_after_trans with y.
Qed.

Lemma sort_entries_sorted l : sorted_bundle (sort_entries l).
Proof.
  unfold sorted_bundle. change (StronglySorted not_after (sort_entries l)).
  induction l as [|x l IH]; simpl.
  - constructor.
  - now apply insert_sorted_sorted.
Qed.

Lemma entries_at_perm k l l' :
  Permutation l l' -> Permutation (entries_at k l) (entries_at k l').
Proof.
  unfold entries_at. induction 1; simpl;
    repeat match goal with |- context [if ?c then _ else _] => destruct c end;
    eauto using Permutation.
Qed.

(** *** One identity key at a time

    With pairwise distinct keys in the batch, what [merge_bundles]
    returns for a key depends only on the entry the store holds for
    that key and on the incoming entry for that key. *)

Definition incoming_at (k : Key) (batch : list Entry) : option Entry :=
  find (fun n => key_eqb (key_of n) k) batch.

Definition outcome (ex inc : option Entry) : list Entry :=
  match inc, ex with
  | Some n, Some e =>
      if String.eqb (extracted_text e) (extracted_text n)
      then [refresh n e]
      else [set_stale e; n]
  | Some n, None => [n]
  | None, Some e => [set_stale e]
  | None, None => []
  end.

Fixpoint last_opt {A : Type} (l : list A) : option A :=
  match l with
  | [] => None
  | x :: l' => match last_opt l' with Some y => Some y | None => Some x end
  end.

Lemma incoming_at_none k batch :
  ~ In k (map key_of batch) -> incoming_at k batch = None.
Proof.
  unfold incoming_at. induction batch as [|n batch IH]; simpl; auto.
  intros H. destruct (key_eqb_spec (key_of n) k); [tauto|].
  apply IH; tauto.
Qed.

Lemma incoming_at_some k batch n :
  incoming_at k batch = Some n -> In n batch /\ key_of n = k.
Proof.
  unfold incoming_at. intros H. apply find_some in H. destruct H as [H1 H2].
  split; auto. now destruct (key_eqb_spec (key_of n) k).
Qed.

Lemma incoming_at_in k batch :
  In k (map key_of batch) -> exists n, incoming_at k batch = Some n.
Proof.
  unfold incoming_at. induction batch as [|n batch IH]; simpl; [tauto|].
  intros [E|H].
  - rewrite E, key_eqb_refl. eauto.
  - destruct (key_eqb (key_of n) k); eauto.
Qed.

Lemma incoming_at_member batch n :
  NoDup (map key_of batch) -> In n batch -> incoming_at (key_of n) batch = Some n.
Proof.
  intros Hnd Hin.
  destruct (incoming_at_in (key_of n) batch) as [m Hm]; [now apply in_map|].
  rewrite Hm. f_equal.
  destruct (incoming_at_some _ _ _ Hm) as [Hm1 Hm2].
  clear Hm. induction batch as [|x l IH]; [contradiction|].
  simpl in Hnd. inversion Hnd as [|? ? Hx Hl]; subst.
  destruct Hin as [->|Hin], Hm1 as [->|Hm1]; auto.
  - exfalso. apply Hx. rewrite <- Hm2. now apply in_map.
  - exfalso. apply Hx. rewrite Hm2. now apply in_map.
Qed.

Lemma store_after_wf d n : dict_wf d -> dict_wf (store_after d n).
Proof.
  intros Hd. unfold store_after.
  destruct (dict_get (key_of n) d) as [e|] eqn:G; auto.
  destruct (String.eqb _ _); auto.
  apply dict_wf_set; auto. rewrite key_of_set_stale. now apply Hd.
Qed.

Lemma store_after_other d n k :
  k <> key_of n -> dict_get k (store_after d n) = dict_get k d.
Proof.
  intros Hne. unfold store_after.
  destruct (dict_get (key_of n) d) as [e|]; auto.
  destruct (String.eqb _ _); auto.
  now apply dict_get_set_other.
Qed.

Lemma store_after_keys d n : map fst (store_after d n) = map fst d.
Proof.
  unfold store_after.
  destruct (dict_get (key_of n) d) as [e|] eqn:G; auto.
  destruct (String.eqb _ _); auto.
  eapply dict_keys_set_present; eauto.
Qed.

Lemma batch_store_wf batch : forall d, dict_wf d -> dict_wf (batch_store d batch).
Proof.
  induction batch as [|n batch IH]; simpl; auto using store_after_wf.
Qed.

Lemma batch_store_keys batch : forall d, map fst (batch_store d batch) = map fst d.
Proof.
  induction batch as [|n batch IH]; simpl; auto.
  intros d. now rewrite IH, store_after_keys.
Qed.

Lemma batch_store_other batch k : forall d,
  ~ In k (map key_of batch) -> dict_get k (batch_store d batch) = dict_get k d.
Proof.
  induction batch as [|n batch IH]; simpl; auto.
  intros d H. rewrite IH by tauto. apply store_after_other. intuition.
Qed.

Lemma per_entry_keys d n :
  dict_wf d -> Forall (fun e => key_of e = key_of n) (per_entry d n).
Proof.
  intros Hd. unfold per_entry.
  destruct (dict_get (key_of n) d) as [e|] eqn:G.
  - destruct (String.eqb _ _); repeat constructor.
    rewrite key_of_set_stale. now apply Hd.
  - repeat constructor.
Qed.

Lemma entries_at_all k l :
  Forall (fun e => key_of e = k) l -> entries_at k l = l.
Proof.
  unfold entries_at. induction 1 as [|e l He Hl IH]; simpl; auto.
  now rewrite He, key_eqb_refl, IH.
Qed.

Lemma entries_at_none k k' l :
  k' <> k -> Forall (fun e => key_of e = k') l -> entries_at k l = [].
Proof.
  unfold entries_at. intros Hne. induction 1 as [|e l He Hl IH]; simpl; auto.
  now rewrite He, (key_eqb_neq _ _ Hne).
Qed.

Lemma entries_at_app k l l' :
  entries_at k (l ++ l') = entries_at k l ++ entries_at k l'.
Proof. apply filter_app. Qed.

Lemma per_entry_ext d d' n :
  dict_get (key_of n) d = dict_get (key_of n) d' -> per_entry d n = per_entry d' n.
Proof. unfold per_entry. now intros ->. Qed.

Lemma batch_values_at k batch : forall d,
  dict_wf d -> NoDup (map key_of batch) ->
  entries_at k (batch_values d batch) =
  match incoming_at k batch with Some n => per_entry d n | None => [] end.
Proof.
  induction batch as [|n batch IH]; simpl; auto.
  intros d Hd Hnd. inversion Hnd as [|? ? Hn Hnd']; subst.
  rewrite entries_at_app, (IH _ (store_after_wf _ n Hd) Hnd').
  unfold incoming_at; simpl. fold (incoming_at k batch).
  destruct (key_eqb_spec (key_of n) k) as [E|Hne].
  - subst k. rewrite (incoming_at_none _ _ Hn), app_nil_r.
    apply entries_at_all, per_entry_keys, Hd.
  - rewrite (entries_at_none _ _ _ Hne (per_entry_keys _ n Hd)). simpl.
    destruct (incoming_at k batch) as [m|] eqn:Hm; auto.
    apply incoming_at_some in Hm. destruct Hm as [_ Hm].
    apply per_entry_ext. apply store_after_other. congruence.
Qed.

Lemma key_in_cons k k0 ks : key_in k (k0 :: ks) = key_eqb k k0 || key_in k ks.
Proof. reflexivity. Qed.

Lemma entries_at_cons k e l :
  entries_at k (e :: l) =
  if key_eqb (key_of e) k then e :: entries_at k l else entries_at k l.
Proof. reflexivity. Qed.

Lemma unseen_values_at k seen ks : forall d,
  dict_wf d -> NoDup ks ->
  entries_at k (unseen_values d seen ks) =
  if key_in k seen then []
  else if key_in k ks
       then match dict_get k d with Some e => [set_stale e] | None => [] end
       else [].
Proof.
  induction ks as [|k0 ks IH]; intros d Hd Hnd; cbn [unseen_values].
  - now destruct (key_in k seen).
  - inversion Hnd as [|? ? Hk0 Hnd']; subst. rewrite key_in_cons.
    destruct (key_in k0 seen) eqn:Hs0.
    + rewrite (IH _ Hd Hnd').
      destruct (key_eqb_spec k k0) as [->|Hne]; simpl; auto.
      now rewrite Hs0.
    + destruct (dict_get k0 d) as [e|] eqn:G.
      * assert (Hd' : dict_wf (dict_set k0 (set_stale e) d)).
        { apply dict_wf_set; auto. rewrite key_of_set_stale. now apply Hd. }
        rewrite entries_at_cons, key_of_set_stale, (proj2 Hd _ _ G).
        rewrite (IH _ Hd' Hnd'), (key_eqb_sym k0 k).
        destruct (key_eqb_spec k k0) as [->|Hne]; simpl.
        -- rewrite Hs0, G.
           destruct (key_in_spec k0 ks); [tauto | reflexivity].
        -- now rewrite (dict_get_set_other _ _ _ _ Hne).
      * rewrite (IH _ Hd Hnd').
        destruct (key_eqb_spec k k0) as [->|Hne]; simpl; auto.
        rewrite Hs0, G. now destruct (key_in k0 ks).
Qed.

Lemma key_in_keys_get k d :
  key_in k (map fst d) = match dict_get k d with Some _ => true | None => false end.
Proof.
  destruct (dict_get k d) eqn:G.
  - apply dict_get_in_keys in G. now destruct (key_in_spec k (map fst d)).
  - apply dict_get_none_not_in in G. now destruct (key_in_spec k (map fst d)).
Qed.

(** The entries returned for key [k]. *)
Lemma merge_bundles_at k existing batch :
  NoDup (map key_of batch) ->
  Permutation (entries_at k (merge_bundles existing batch))
              (outcome (dict_get k (existing_lookup existing))
                       (incoming_at k batch)).
Proof.
  intros Hnd. rewrite merge_bundles_values. cbv zeta.
  set (d := existing_lookup existing).
  assert (Hd : dict_wf d) by apply existing_lookup_wf.
  eapply perm_trans; [apply entries_at_perm, sort_entries_perm|].
  rewrite entries_at_app, (batch_values_at k _ _ Hd Hnd).
  rewrite unseen_values_at;
    [| now apply batch_store_wf | rewrite batch_store_keys; apply Hd].
  rewrite key_in_keys_get.
  destruct (incoming_at k batch) as [n|] eqn:Hn.
  - destruct (incoming_at_some _ _ _ Hn) as [Hin Hk].
    assert (Hseen : key_in k (rev (map key_of batch)) = true).
    { destruct (key_in_spec k (rev (map key_of batch))) as [|Hno]; auto.
      exfalso. apply Hno. rewrite <- in_rev, <- Hk. now apply in_map. }
    rewrite Hseen, app_nil_r. unfold per_entry, outcome. rewrite Hk.
    apply Permutation_refl.
  - assert (Hno : ~ In k (map key_of batch)).
    { intros Hin. apply incoming_at_in in Hin. destruct Hin as [n Hin]. congruence. }
    assert (Hseen : key_in k (rev (map key_of batch)) = false).
    { destruct (key_in_spec k (rev (map key_of batch))) as [Hin|]; auto.
      rewrite <- in_rev in Hin. contradiction. }
    rewrite Hseen, (batch_store_other _ _ _ Hno). simpl.
    destruct (dict_get k d); apply Permutation_refl.
Qed.

(** The store built from a bundle keeps, for each key, the last entry
    the bundle lists under it. *)
Lemma lookup_from_last k l : forall d,
  dict_get k (fold_left (fun d e => dict_set (key_of e) e d) l d) =
  match last_opt (entries_at k l) with
  | Some e => Some e
  | None => dict_get k d
  end.
Proof.
  induction l as [|e l IH]; intros d; simpl; auto.
  rewrite IH. destruct (key_eqb_spec (key_of e) k) as [E|Hne]; simpl.
  - destruct (last_opt (entries_at k l)); auto.
    rewrite <- E. apply dict_get_set_same.
  - destruct (last_opt (entries_at k l)); auto.
    apply dict_get_set_other. congruence.
Qed.

Lemma existing_lookup_last k l :
  dict_get k (existing_lookup l) = last_opt (entries_at k l).
Proof.
  unfold existing_lookup. rewrite lookup_from_last.
  now destruct (last_opt (entries_at k l)).
Qed.

(** *** What a second run sees *)

Lemma filter_perm {A : Type} (f : A -> bool) l l' :
  Permutation l l' -> Permutation (filter f l) (filter f l').
Proof.
  induction 1; simpl;
    repeat match goal with |- context [if ?c then _ else _] => destruct c end;
    eauto using Permutation.
Qed.

Lemma live_at_entries k l : live_at k l = filter live (entries_at k l).
Proof.
  unfold live_at, entries_at, live. induction l as [|e l IH]; simpl; auto.
  destruct (key_eqb (key_of e) k); simpl; rewrite IH; auto.
Qed.

Lemma count_occ_entries_at l e :
  count_occ Entry_eq_dec l e = count_occ Entry_eq_dec (entries_at (key_of e) l) e.
Proof.
  unfold entries_at. induction l as [|x l IH]; simpl; auto.
  destruct (Entry_eq_dec x e) as [->|Hne].
  - rewrite key_eqb_refl. simpl.
    destruct (Entry_eq_dec e e); [now rewrite IH | contradiction].
  - destruct (key_eqb (key_of x) (key_of e)); simpl; auto.
    destruct (Entry_eq_dec x e); [contradiction | auto].
Qed.

Lemma perm_short_eq {A : Type} (l l' : list A) :
  Permutation l l' -> List.length l <= 1 -> l = l'.
Proof.
  intros H Hlen. destruct l as [|a [|b l]]; simpl in Hlen; try lia.
  - symmetry. now apply Permutation_nil.
  - symmetry. now apply Permutation_length_1_inv.
Qed.

Lemma last_opt_in {A : Type} (l : list A) x : last_opt l = Some x -> In x l.
Proof.
  induction l as [|a l IH]; simpl; [discriminate|].
  destruct (last_opt l) as [y|].
  - intros E. right. apply IH. exact E.
  - intros E. left. congruence.
Qed.



Lemma refresh_self n : refresh n n = n.
Proof. now destruct n. Qed.

Lemma outcome_live_le1 ex inc : List.length (filter live (outcome ex inc)) <= 1.
Proof.
  destruct inc as [n|], ex as [e|]; simpl; auto.
  - destruct (String.eqb _ _); simpl.
    + destruct (live (refresh n e)); simpl; lia.
    + destruct (live n); simpl; lia.
  - destruct (live n); simpl; lia.
Qed.

(** Feeding the entries returned for a key back in, with the same
    incoming entry, gives a sub-multiset with the same live entries. *)
Lemma resync_outcome ex inc seen1 :
  Permutation seen1 (outcome ex inc) ->
  filter live (outcome (last_opt seen1) inc) = filter live (outcome ex inc) /\
  forall x, count_occ Entry_eq_dec (outcome (last_opt seen1) inc) x <=
            count_occ Entry_eq_dec (outcome ex inc) x.
Proof.
  intros Hp. apply Permutation_sym in Hp.
  destruct inc as [n|], ex as [e|]; simpl in Hp.
  - simpl (outcome (Some e) (Some n)) in *.
    destruct (String.eqb (extracted_text e) (extracted_text n)) eqn:E.
    + apply Permutation_length_1_inv in Hp. subst seen1. simpl.
      rewrite String.eqb_refl. auto.
    + apply Permutation_length_2_inv in Hp. destruct Hp as [-> | ->]; simpl.
      * rewrite String.eqb_refl, refresh_self. split; auto.
        intros x. simpl.
        repeat match goal with
               | |- context [Entry_eq_dec ?a ?b] => destruct (Entry_eq_dec a b)
               end; lia.
      * rewrite E. auto.
  - apply Permutation_length_1_inv in Hp. subst seen1. simpl.
    rewrite String.eqb_refl, refresh_self. auto.
  - apply Permutation_length_1_inv in Hp. subst seen1. simpl. auto.
  - apply Permutation_nil in Hp. subst seen1. simpl. auto.
Qed.

Lemma in_entries_at e l : In e l -> In e (entries_at (key_of e) l).
Proof.
  intros H. unfold entries_at. apply filter_In. split; auto.
  apply key_eqb_refl.
Qed.

Lemma entries_at_incl k e l : In e (entries_at k l) -> In e l /\ key_of e = k.
Proof.
  unfold entries_at. intros H. apply filter_In in H. destruct H as [H1 H2].
  split; auto. now destruct (key_eqb_spec (key_of e) k).
Qed.

(** *** What the merge does keep

    The three cases of the contract, for a batch with pairwise distinct
    identity keys and the entry that the store holds for a key, the
    last one the bundle lists under it. *)

Lemma refresh_same n e :
  key_of n = key_of e -> extracted_text e = extracted_text n -> refresh n e = e.
Proof.
  destruct n, e. unfold key_of, refresh. simpl. intros [= -> -> -> ->] ->.
  reflexivity.
Qed.

Lemma merge_bundles_retains_last existing batch e :
  NoDup (map key_of batch) ->
  last_opt (entries_at (key_of e) existing) = Some e ->
  retained e (merge_bundles existing batch).
Proof.
  intros Hnd Hlast.
  pose proof (merge_bundles_at (key_of e) existing batch Hnd) as Hp.
  rewrite existing_lookup_last, Hlast in Hp. apply Permutation_sym in Hp.
  assert (Hin : forall x, In x (outcome (Some e) (incoming_at (key_of e) batch)) ->
                          In x (merge_bundles existing batch)).
  { intros x Hx. apply (Permutation_in _ Hp) in Hx.
    now apply entries_at_incl in Hx. }
  destruct (incoming_at (key_of e) batch) as [n|] eqn:I; simpl in Hin.
  - destruct (incoming_at_some _ _ _ I) as [_ Hk].
    destruct (String.eqb_spec (extracted_text e) (extracted_text n)) as [Ht|Ht].
    + left. apply Hin. left. now apply refresh_same.
    + right. apply Hin. now left.
  - right. apply Hin. now left.
Qed.

Lemma merge_changed_text_when_last existing batch n e :
  NoDup (map key_of batch) -> In n batch ->
  last_opt (entries_at (key_of n) existing) = Some e ->
  extracted_text e <> extracted_text n ->
  Permutation (entries_at (key_of n) (merge_bundles existing batch))
              [set_stale e; n].
Proof.
  intros Hnd Hin Hlast Htext.
  pose proof (merge_bundles_at (key_of n) existing batch Hnd) as Hp.
  rewrite existing_lookup_last, Hlast, (incoming_at_member _ _ Hnd Hin) in Hp.
  simpl in Hp.
  now destruct (String.eqb_spec (extracted_text e) (extracted_text n)).
Qed.

Lemma merge_same_text_untouched existing batch n e :
  NoDup (map key_of batch) -> In n batch ->
  last_opt (entries_at (key_of n) existing) = Some e ->
  extracted_text e = extracted_text n ->
  entries_at (key_of n) (merge_bundles existing batch) = [e].
Proof.
  intros Hnd Hin Hlast Htext.
  pose proof (merge_bundles_at (key_of n) existing batch Hnd) as Hp.
  rewrite existing_lookup_last, Hlast, (incoming_at_member _ _ Hnd Hin) in Hp.
  simpl in Hp. rewrite Htext, String.eqb_refl in Hp.
  apply Permutation_sym, Permutation_length_1_inv in Hp. rewrite Hp.
  f_equal. apply refresh_same; auto.
  apply last_opt_in, entries_at_incl in Hlast. now destruct Hlast.
Qed.



(** *** The claims about synchronisation *)

Import SyncExamples.

(** C1 (the code loses records).  The bundle written by the second of
    three runs holds the superseded entry, marked stale, next to its
    successor.  The third run, whose batch repeats the successor's text,
    returns the successor alone: the store [existing_lookup] keeps one
    entry per identity key, so the stale record is neither returned nor
    marked, it is gone. *)
Theorem merge_bundles_forgets_superseded_entry :
  merge_bundles [] [run1_entry] = [run1_entry] /\
  merge_bundles [run1_entry] [run2_entry] = bundle_after_run2 /\
  merge_bundles bundle_after_run2 [run3_entry] = [run2_entry] /\
  In (set_stale run1_entry) bundle_after_run2 /\
  ~ retained (set_stale run1_entry) (merge_bundles bundle_after_run2 [run3_entry]).
Proof.
  repeat split; try reflexivity.
  - left. reflexivity.
  - intros [H|H]; vm_compute in H; destruct H as [H|[]]; discriminate.
Qed.



(** C6, as stated, fails: two fresh entries under one identity key are
    both returned non-stale. *)
Lemma merge_twice_listed_key_two_live :
  one_live_per_key [] /\
  Forall (fun n => stale n = false) [twice_a; twice_b] /\
  merge_bundles [] [twice_a; twice_b] = [twice_a; twice_b] /\
  ~ one_live_per_key (merge_bundles [] [twice_a; twice_b]).
Proof.
  repeat split.
  - intros k. simpl. lia.
  - repeat constructor.
  - intros H. specialize (H (key_of twice_a)). vm_compute in H. lia.
Qed.

(** C6, amended.  When the identity keys of the batch are pairwise
    distinct, the bundle returned holds at most one non-stale entry per
    identity key and is sorted ascending by
    [(country, source_doc, created_utc)], whatever the existing bundle. *)
Theorem merge_one_live_per_key_sorted (existing batch : list Entry) :
  NoDup (map key_of batch) ->
  one_live_per_key (merge_bundles existing batch) /\
  sorted_bundle (merge_bundles existing batch).
Proof.
  intros Hnd. split.
  - intros k. rewrite live_at_entries.
    rewrite (Permutation_length
               (filter_perm live _ _ (merge_bundles_at k existing batch Hnd))).
    apply outcome_live_le1.
  - rewrite merge_bundles_values. apply sort_entries_sorted.
Qed.

(** The amended C6 at a bundle of one entry and a batch of two keys. *)
Lemma merge_one_live_per_key_sorted_witness :
  NoDup (map key_of [run2_entry; kenya_entry]) /\
  one_live_per_key (merge_bundles [run1_entry] [run2_entry; kenya_entry]) /\
  sorted_bundle (merge_bundles [run1_entry] [run2_entry; kenya_entry]).
Proof.
  assert (H : NoDup (map key_of [run2_entry; kenya_entry])).
  { repeat constructor; simpl; intuition discriminate. }
  split; [exact H|].
  exact (merge_one_live_per_key_sorted [run1_entry] [run2_entry; kenya_entry] H).
Defined.

(** C3, as stated, fails twice over.  An incoming entry that meets a
    stale entry with its own text inherits the stale flag, so its key
    has no non-stale entry after either run; and a batch that lists a
    key twice gains stale duplicates on the second run. *)
Lemma second_run_not_settled :
  ~ second_run_settled [dropped_entry] [run3_entry] /\
  ~ second_run_settled [] [twice_a; twice_b].
Proof.
  split; intros [H1 H2].
  - destruct (H1 run3_entry (or_introl eq_refl)) as (e & He & _).
    vm_compute in He. discriminate.
  - specialize (H2 (set_stale twice_b) eq_refl). vm_compute in H2. lia.
Qed.

(** C3, amended.  For a batch with pairwise distinct identity keys, a
    second run with the identical batch returns for every identity key
    exactly the non-stale entries of the first run (at most one, hence
    with its [created_utc] unchanged) and no entry more often than the
    first run did; a submitted non-stale entry has exactly one
    non-stale entry under its key unless it inherited a stale flag. *)
Theorem second_run_keeps_live_entries (existing batch : list Entry) :
  NoDup (map key_of batch) ->
  (forall k,
     live_at k (merge_bundles (merge_bundles existing batch) batch) =
     live_at k (merge_bundles existing batch) /\
     List.length (live_at k (merge_bundles existing batch)) <= 1) /\
  (forall e,
     count_occ Entry_eq_dec (merge_bundles (merge_bundles existing batch) batch) e <=
     count_occ Entry_eq_dec (merge_bundles existing batch) e) /\
  (forall n, In n batch -> stale n = false -> carried_stale existing n = false ->
     exists e,
       live_at (key_of n) (merge_bundles (merge_bundles existing batch) batch) = [e]).
Proof.
  intros Hnd.
  set (b1 := merge_bundles existing batch).
  set (b2 := merge_bundles b1 batch).
  pose (ex0 := fun k => dict_get k (existing_lookup existing)).
  pose (inc := fun k => incoming_at k batch).
  assert (P1 : forall k, Permutation (entries_at k b1) (outcome (ex0 k) (inc k)))
    by (intros k; apply merge_bundles_at; exact Hnd).
  assert (P2 : forall k, Permutation (entries_at k b2)
                           (outcome (last_opt (entries_at k b1)) (inc k))).
  { intros k. rewrite <- existing_lookup_last. apply merge_bundles_at. exact Hnd. }
  assert (L1 : forall k, List.length (live_at k b1) <= 1).
  { intros k. rewrite live_at_entries,
      (Permutation_length (filter_perm live _ _ (P1 k))).
    apply outcome_live_le1. }
  assert (E : forall k, live_at k b2 = live_at k b1).
  { intros k. destruct (resync_outcome _ _ _ (P1 k)) as [R _].
    symmetry. apply perm_short_eq; auto.
    rewrite !live_at_entries.
    eapply perm_trans; [apply filter_perm, P1|].
    rewrite <- R. apply Permutation_sym, filter_perm, P2. }
  split; [|split].
  - intros k. split; auto.
  - intros e. rewrite (count_occ_entries_at b2), (count_occ_entries_at b1).
    destruct (resync_outcome _ _ _ (P1 (key_of e))) as [_ R].
    rewrite (proj1 (Permutation_count_occ Entry_eq_dec _ _) (P2 (key_of e))).
    rewrite (proj1 (Permutation_count_occ Entry_eq_dec _ _) (P1 (key_of e))).
    apply R.
  - intros n Hin Hfresh Hcarried. rewrite E.
    assert (Hinc : inc (key_of n) = Some n)
      by (apply incoming_at_member; assumption).
    assert (Hlen : List.length (live_at (key_of n) b1) = 1).
    { rewrite live_at_entries,
        (Permutation_length (filter_perm live _ _ (P1 (key_of n)))).
      rewrite Hinc. unfold carried_stale in Hcarried. fold (ex0 (key_of n)) in Hcarried.
      unfold outcome. destruct (ex0 (key_of n)) as [e|].
      - destruct (String.eqb (extracted_text e) (extracted_text n)); simpl in *.
        + unfold live. simpl. now rewrite Hcarried.
        + unfold live. simpl. now rewrite Hfresh.
      - unfold live. simpl. now rewrite Hfresh. }
    destruct (live_at (key_of n) b1) as [|e [|? ?]]; simpl in Hlen; try lia.
    eauto.
Qed.

(** The amended C3 at the same bundle and batch. *)
Lemma second_run_keeps_live_entries_witness :
  NoDup (map key_of [run2_entry; kenya_entry]) /\
  live_at (key_of run2_entry)
    (merge_bundles (merge_bundles [run1_entry] [run2_entry; kenya_entry])
                   [run2_entry; kenya_entry]) =
  live_at (key_of run2_entry)
    (merge_bundles [run1_entry] [run2_entry; kenya_entry]).
Proof.
  assert (H : NoDup (map key_of [run2_entry; kenya_entry])).
  { repeat constructor; simpl; intuition discriminate. }
  split; [exact H|].
  exact (proj1 (proj1 (second_run_keeps_live_entries
                         [run1_entry] [run2_entry; kenya_entry] H)
                      (key_of run2_entry))).
Defined.

(** C5 (the code loses the non-stale entry).  A sorted bundle with one
    non-stale entry for its key, followed by a stale entry of the same
    key, meets a batch whose text for that key differs from the
    non-stale entry's.  The store only knows the last entry of the key,
    the stale one: the incoming entry is compared with that one, and
    here inherits its stale flag.  The bundle returned has no non-stale
    entry for the key, and the formerly non-stale entry is gone instead
    of being marked stale. *)
Theorem merge_changed_text_misses_live_entry :
  live_at (key_of live_entry) [live_entry; late_stale_entry] = [live_entry] /\
  sorted_bundle [live_entry; late_stale_entry] /\
  extracted_text changed_entry <> extracted_text live_entry /\
  merge_bundles [live_entry; late_stale_entry] [changed_entry] =
    [late_stale_entry] /\
  live_at (key_of live_entry)
          (merge_bundles [live_entry; late_stale_entry] [changed_entry]) = [] /\
  ~ retained live_entry
      (merge_bundles [live_entry; late_stale_entry] [changed_entry]).
Proof.
  repeat split; try reflexivity.
  - repeat constructor.
  - discriminate.
  - intros [H|H]; vm_compute in H; destruct H as [H|[]]; discriminate.
Qed.

End SyncFacts.

(* ================================================================= *)
(** ** Facts about [clean_extracted_text] *)

Module TextFacts.
Import Text.

(** *** The substitution scan *)


Lemma re_sub_skip m repl k : forall s,
  re_sub m repl k s = re_sub m repl 0 (skipn k s).
Proof.
  induction k as [|k IH]; intros [|c s]; simpl; auto.
Qed.

Lemma re_sub_cons m repl c s :
  re_sub m repl 0 (c :: s) =
  match m (c :: s) with
  | O => c :: re_sub m repl 0 s
  | S k => repl ++ re_sub m repl 0 (skipn k s)
  end.
Proof. simpl. destruct (m (c :: s)); auto. now rewrite re_sub_skip. Qed.

Lemma re_sub_Forall (P : ascii -> Prop) m repl : forall s k,
  Forall P repl -> Forall P s -> Forall P (re_sub m repl k s).
Proof.
  induction s as [|c s IH]; intros k Hr Hs; simpl; auto.
  inversion Hs; subst. destruct k; auto.
  destruct (m (c :: s)); auto.
  apply Forall_app. auto.
Qed.

Lemma skipn_length_le {A : Type} n (s : list A) :
  List.length (skipn n s) <= List.length s.
Proof. rewrite length_skipn. lia. Qed.

(** *** The three whitespace passes as plain recursions *)

Definition nl_after_blanks (s : str) : bool :=
  starts_with is_nl (skipn (span_len is_blank s) s).

Fixpoint drop_blanks_before_nl (s : str) : str :=
  match s with
  | [] => []
  | c :: s' =>
      if is_blank c && nl_after_blanks s'
      then drop_blanks_before_nl s'
      else c :: drop_blanks_before_nl s'
  end.

Fixpoint squeeze_newlines (s : str) : str :=
  match s with
  | [] => []
  | c :: s' =>
      if is_nl c && (2 <=? span_len is_nl s')
      then squeeze_newlines s'
      else c :: squeeze_newlines s'
  end.

(** [in_run] tells that blanks of the current run were already dropped. *)
Fixpoint squeeze_blanks (in_run : bool) (s : str) : str :=
  match s with
  | [] => []
  | c :: s' =>
      if is_blank c
      then if starts_with is_blank s'
           then squeeze_blanks true s'
           else (if in_run then space else c) :: squeeze_blanks false s'
      else c :: squeeze_blanks false s'
  end.

Lemma is_nl_eq c : is_nl c = true -> c = nl.
Proof. unfold is_nl. intros H. now apply Ascii.eqb_eq. Qed.

Lemma nl_not_blank c : is_nl c = true -> is_blank c = false.
Proof. intros H. apply is_nl_eq in H. subst. reflexivity. Qed.

Lemma nl_after_blanks_cons c s :
  nl_after_blanks (c :: s) = if is_blank c then nl_after_blanks s else is_nl c.
Proof. unfold nl_after_blanks. simpl. destruct (is_blank c); reflexivity. Qed.

Lemma blanks_newline_cons c s :
  blanks_newline (c :: s) =
  if is_blank c && nl_after_blanks s then S (S (span_len is_blank s)) else 0.
Proof.
  unfold blanks_newline, nl_after_blanks. simpl.
  destruct (is_blank c); simpl; auto.
Qed.

Lemma drop_blanks_run s :
  nl_after_blanks s = true ->
  drop_blanks_before_nl s =
  nl :: drop_blanks_before_nl (skipn (S (span_len is_blank s)) s).
Proof.
  induction s as [|d s IH]; [discriminate|].
  rewrite nl_after_blanks_cons. cbn [drop_blanks_before_nl span_len].
  destruct (is_blank d) eqn:Hd; intros H.
  - rewrite H. cbn [andb]. rewrite IH by exact H. reflexivity.
  - cbn [andb skipn]. now rewrite (is_nl_eq _ H).
Qed.

Lemma sub_blanks_newline_eq s :
  re_sub blanks_newline [nl] 0 s = drop_blanks_before_nl s.
Proof.
  remember (List.length s) as n eqn:Hn.
  assert (Hlen : List.length s <= n) by lia. clear Hn.
  revert s Hlen. induction n as [|n IH]; intros [|c s] Hlen; simpl in Hlen;
    try reflexivity; try lia.
  rewrite re_sub_cons, blanks_newline_cons. cbn [drop_blanks_before_nl].
  destruct (is_blank c && nl_after_blanks s) eqn:E.
  - apply andb_prop in E. destruct E as [_ E].
    rewrite (drop_blanks_run _ E). cbn [app]. f_equal.
    apply IH. pose proof (skipn_length_le (S (span_len is_blank s)) s). lia.
  - f_equal. apply IH. lia.
Qed.

Lemma newlines3_cons c s :
  newlines3 (c :: s) =
  if is_nl c && (2 <=? span_len is_nl s) then S (span_len is_nl s) else 0.
Proof.
  unfold newlines3. simpl. destruct (is_nl c); simpl; auto.
Qed.

Lemma squeeze_newlines_run s :
  2 <= span_len is_nl s ->
  squeeze_newlines s = nl :: nl :: squeeze_newlines (skipn (span_len is_nl s) s).
Proof.
  induction s as [|d s IH]; cbn [squeeze_newlines span_len]; [lia|].
  destruct (is_nl d) eqn:Hd; [|lia]. intros H. cbn [andb skipn].
  destruct (2 <=? span_len is_nl s) eqn:E.
  - apply Nat.leb_le in E. now apply IH.
  - apply Nat.leb_gt in E. rewrite (is_nl_eq _ Hd). f_equal.
    destruct s as [|e s]; cbn [squeeze_newlines span_len] in *; [lia|].
    destruct (is_nl e) eqn:He; [|lia].
    assert (E0 : span_len is_nl s = 0) by lia. rewrite E0.
    cbn [andb Nat.leb skipn]. now rewrite (is_nl_eq _ He).
Qed.

Lemma sub_newlines3_eq s :
  re_sub newlines3 [nl; nl] 0 s = squeeze_newlines s.
Proof.
  remember (List.length s) as n eqn:Hn.
  assert (Hlen : List.length s <= n) by lia. clear Hn.
  revert s Hlen. induction n as [|n IH]; intros [|c s] Hlen; simpl in Hlen;
    try reflexivity; try lia.
  rewrite re_sub_cons, newlines3_cons. cbn [squeeze_newlines].
  destruct (is_nl c && (2 <=? span_len is_nl s)) eqn:E.
  - apply andb_prop in E. destruct E as [_ E]. apply Nat.leb_le in E.
    rewrite (squeeze_newlines_run _ E). cbn [app]. do 2 f_equal.
    apply IH. pose proof (skipn_length_le (span_len is_nl s) s). lia.
  - f_equal. apply IH. lia.
Qed.

Lemma span_len_pos p s : starts_with p s = (1 <=? span_len p s).
Proof. destruct s as [|c s]; simpl; auto. now destruct (p c). Qed.

Lemma blanks2_cons c s :
  blanks2 (c :: s) =
  if is_blank c && starts_with is_blank s then S (span_len is_blank s) else 0.
Proof.
  unfold blanks2. rewrite span_len_pos. simpl.
  destruct (is_blank c); simpl; auto.
Qed.

Lemma squeeze_blanks_run s :
  starts_with is_blank s = true ->
  squeeze_blanks true s =
  space :: squeeze_blanks false (skipn (span_len is_blank s) s).
Proof.
  induction s as [|d s IH]; simpl; [discriminate|].
  intros Hd. rewrite Hd.
  destruct (starts_with is_blank s) eqn:E.
  - now apply IH.
  - rewrite span_len_pos in E. apply Nat.leb_gt in E.
    assert (span_len is_blank s = 0) as -> by lia. reflexivity.
Qed.

Lemma sub_blanks2_eq s :
  re_sub blanks2 [space] 0 s = squeeze_blanks false s.
Proof.
  remember (List.length s) as n eqn:Hn.
  assert (Hlen : List.length s <= n) by lia. clear Hn.
  revert s Hlen. induction n as [|n IH]; intros [|c s] Hlen; simpl in Hlen;
    try reflexivity; try lia.
  rewrite re_sub_cons, blanks2_cons. cbn [squeeze_blanks].
  destruct (is_blank c) eqn:Hc; cbn [andb].
  - destruct (starts_with is_blank s) eqn:E.
    + rewrite (squeeze_blanks_run _ E). cbn [app]. f_equal.
      apply IH. pose proof (skipn_length_le (span_len is_blank s) s). lia.
    + f_equal. apply IH. lia.
  - f_equal. apply IH. lia.
Qed.

(** *** Shapes that the passes remove *)

Definition starts_with2 (p : ascii -> bool) (s : str) : bool :=
  match s with
  | a :: b :: _ => p a && p b
  | _ => false
  end.

(** No character of class [p] directly followed by one of class [q]. *)
Fixpoint pair_free (p q : ascii -> bool) (s : str) : bool :=
  match s with
  | [] => true
  | c :: s' => negb (p c && starts_with q s') && pair_free p q s'
  end.

(** No three newlines in a row. *)
Fixpoint nl3_free (s : str) : bool :=
  match s with
  | [] => true
  | c :: s' => negb (is_nl c && starts_with2 is_nl s') && nl3_free s'
  end.

Definition no_cr (c : ascii) : Prop := is_cr c = false.

Lemma span2_starts_with2 p s : (2 <=? span_len p s) = starts_with2 p s.
Proof.
  destruct s as [|a [|b s]]; simpl; auto.
  - now destruct (p a).
  - destruct (p a), (p b); auto.
Qed.

Lemma starts_with_app p x y :
  starts_with p x = true -> starts_with p (x ++ y) = true.
Proof. destruct x; simpl; auto; discriminate. Qed.

Lemma starts_with2_app p x y :
  starts_with2 p x = true -> starts_with2 p (x ++ y) = true.
Proof. destruct x as [|a [|b x]]; simpl; auto; discriminate. Qed.

Lemma pair_free_prefix p q x y :
  pair_free p q (x ++ y) = true -> pair_free p q x = true.
Proof.
  induction x as [|c x IH]; simpl; auto.
  intros H. apply andb_prop in H. destruct H as [H1 H2].
  rewrite (IH H2), andb_true_r.
  destruct (p c); simpl in *; auto.
  destruct (starts_with q x) eqn:E; auto.
  now rewrite (starts_with_app _ _ y E) in H1.
Qed.

Lemma pair_free_suffix p q x y :
  pair_free p q (x ++ y) = true -> pair_free p q y = true.
Proof.
  induction x as [|c x IH]; simpl; auto.
  intros H. apply andb_prop in H. tauto.
Qed.

Lemma nl3_free_prefix x y : nl3_free (x ++ y) = true -> nl3_free x = true.
Proof.
  induction x as [|c x IH]; simpl; auto.
  intros H. apply andb_prop in H. destruct H as [H1 H2].
  rewrite (IH H2), andb_true_r.
  destruct (is_nl c); simpl in *; auto.
  destruct (starts_with2 is_nl x) eqn:E; auto.
  now rewrite (starts_with2_app _ _ y E) in H1.
Qed.

Lemma nl3_free_suffix x y : nl3_free (x ++ y) = true -> nl3_free y = true.
Proof.
  induction x as [|c x IH]; simpl; auto.
  intros H. apply andb_prop in H. tauto.
Qed.

(** *** [strip] *)

Lemma lstrip_suffix s : exists t, s = t ++ lstrip s.
Proof.
  induction s as [|c s [t IH]]; simpl.
  - now exists [].
  - destruct (is_space c).
    + exists (c :: t). simpl. now f_equal.
    + now exists [].
Qed.

Lemma rstrip_prefix s : exists t, s = rstrip s ++ t.
Proof.
  unfold rstrip. destruct (lstrip_suffix (rev s)) as [t Ht].
  exists (rev t). rewrite <- rev_app_distr, <- Ht. now rewrite rev_involutive.
Qed.

Lemma strip_infix s : exists t u, s = t ++ strip s ++ u.
Proof.
  unfold strip. destruct (lstrip_suffix s) as [t Ht].
  destruct (rstrip_prefix (lstrip s)) as [u Hu].
  exists t, u. now rewrite <- Hu.
Qed.

Lemma lstrip_fixed s : starts_with is_space s = false -> lstrip s = s.
Proof. destruct s as [|c s]; simpl; auto. now intros ->. Qed.

Lemma lstrip_head s : starts_with is_space (lstrip s) = false.
Proof.
  induction s as [|c s IH]; simpl; auto.
  destruct (is_space c) eqn:E; simpl; auto.
Qed.

Lemma rstrip_head s :
  starts_with is_space s = false -> starts_with is_space (rstrip s) = false.
Proof.
  intros H. destruct (rstrip_prefix s) as [t Ht].
  destruct (rstrip s) as [|c r] eqn:E; auto.
  rewrite Ht in H. exact H.
Qed.

Lemma strip_strip s : strip (strip s) = strip s.
Proof.
  unfold strip at 1.
  rewrite (lstrip_fixed (strip s)) by apply rstrip_head, lstrip_head.
  unfold strip, rstrip. rewrite rev_involutive.
  now rewrite (lstrip_fixed _ (lstrip_head _)).
Qed.

Lemma strip_pair_free p q s :
  pair_free p q s = true -> pair_free p q (strip s) = true.
Proof.
  intros H. destruct (strip_infix s) as (t & u & E). rewrite E in H.
  apply pair_free_suffix in H. now apply pair_free_prefix in H.
Qed.

Lemma strip_nl3_free s : nl3_free s = true -> nl3_free (strip s) = true.
Proof.
  intros H. destruct (strip_infix s) as (t & u & E). rewrite E in H.
  apply nl3_free_suffix in H. now apply nl3_free_prefix in H.
Qed.

Lemma strip_Forall (P : ascii -> Prop) s : Forall P s -> Forall P (strip s).
Proof.
  intros H. destruct (strip_infix s) as (t & u & E). rewrite E in H.
  apply Forall_app in H. destruct H as [_ H].
  apply Forall_app in H. tauto.
Qed.

(** *** What each pass establishes and what it keeps *)

Lemma drop_blanks_head s :
  starts_with is_nl (drop_blanks_before_nl s) = nl_after_blanks s.
Proof.
  induction s as [|c s IH]; auto.
  rewrite nl_after_blanks_cons. cbn [drop_blanks_before_nl].
  destruct (is_blank c) eqn:Hc; cbn [andb].
  - destruct (nl_after_blanks s) eqn:E; auto.
    simpl. destruct (is_nl c) eqn:Hn; auto.
    now rewrite (nl_not_blank _ Hn) in Hc.
  - reflexivity.
Qed.

Lemma drop_blanks_free s :
  pair_free is_blank is_nl (drop_blanks_before_nl s) = true.
Proof.
  induction s as [|c s IH]; auto. cbn [drop_blanks_before_nl].
  destruct (is_blank c && nl_after_blanks s) eqn:E; auto.
  cbn [pair_free]. now rewrite drop_blanks_head, E, IH.
Qed.

Lemma squeeze_newlines_head s :
  starts_with is_nl (squeeze_newlines s) = starts_with is_nl s.
Proof.
  induction s as [|c s IH]; auto. cbn [squeeze_newlines].
  destruct (is_nl c && (2 <=? span_len is_nl s)) eqn:E; auto.
  apply andb_prop in E. destruct E as [Hc E]. rewrite IH. simpl. rewrite Hc.
  rewrite span_len_pos. apply Nat.leb_le in E. apply Nat.leb_le. lia.
Qed.

Lemma squeeze_newlines_head2 s :
  starts_with2 is_nl (squeeze_newlines s) = starts_with2 is_nl s.
Proof.
  induction s as [|c s IH]; auto. cbn [squeeze_newlines].
  destruct (is_nl c && (2 <=? span_len is_nl s)) eqn:E.
  - apply andb_prop in E. destruct E as [Hc E]. rewrite IH.
    rewrite span2_starts_with2 in E. rewrite E.
    destruct s as [|a [|b s]]; try discriminate. simpl in *.
    apply andb_prop in E. destruct E as [-> _]. now rewrite Hc.
  - change (starts_with2 is_nl (c :: squeeze_newlines s))
      with (match squeeze_newlines s with
            | b :: _ => is_nl c && is_nl b | [] => false end).
    pose proof (squeeze_newlines_head s) as H.
    destruct (squeeze_newlines s), s; simpl in *;
      destruct (is_nl c); simpl; congruence.
Qed.

Lemma squeeze_newlines_keeps_blank_nl s :
  pair_free is_blank is_nl s = true ->
  pair_free is_blank is_nl (squeeze_newlines s) = true.
Proof.
  induction s as [|c s IH]; auto. cbn [squeeze_newlines pair_free].
  intros H. apply andb_prop in H. destruct H as [H1 H2].
  destruct (is_nl c && (2 <=? span_len is_nl s)); auto.
  cbn [pair_free]. now rewrite squeeze_newlines_head, H1, IH.
Qed.

Lemma squeeze_newlines_free s : nl3_free (squeeze_newlines s) = true.
Proof.
  induction s as [|c s IH]; auto. cbn [squeeze_newlines].
  destruct (is_nl c && (2 <=? span_len is_nl s)) eqn:E; auto.
  cbn [nl3_free]. rewrite squeeze_newlines_head2, IH, andb_true_r.
  now rewrite <- span2_starts_with2, E.
Qed.

Lemma squeeze_blanks_head b s :
  match s with
  | [] => squeeze_blanks b s = []
  | c :: s' =>
      if is_blank c
      then exists c' t, squeeze_blanks b s = c' :: t /\ is_blank c' = true
      else squeeze_blanks b s = c :: squeeze_blanks false s'
  end.
Proof.
  revert b. induction s as [|c s IH]; intros b; auto.
  cbn [squeeze_blanks]. destruct (is_blank c) eqn:Hc; auto.
  destruct (starts_with is_blank s) eqn:E.
  - specialize (IH true). destruct s as [|d s]; [discriminate|].
    simpl in E. now rewrite E in IH.
  - destruct b; eauto.
Qed.

Lemma squeeze_blanks_head_nl b s :
  starts_with is_nl (squeeze_blanks b s) = starts_with is_nl s.
Proof.
  pose proof (squeeze_blanks_head b s) as H. destruct s as [|c s]; [now rewrite H|].
  destruct (is_blank c) eqn:Hc.
  - destruct H as (c' & t & -> & Hc'). simpl.
    destruct (is_nl c') eqn:N1; [now rewrite (nl_not_blank _ N1) in Hc'|].
    destruct (is_nl c) eqn:N2; [now rewrite (nl_not_blank _ N2) in Hc|].
    reflexivity.
  - now rewrite H.
Qed.

Lemma squeeze_blanks_head_blank b s :
  starts_with is_blank (squeeze_blanks b s) = starts_with is_blank s.
Proof.
  pose proof (squeeze_blanks_head b s) as H. destruct s as [|c s]; [now rewrite H|].
  destruct (is_blank c) eqn:Hc.
  - destruct H as (c' & t & -> & Hc'). simpl. congruence.
  - rewrite H. reflexivity.
Qed.

Lemma squeeze_blanks_head2_nl b s :
  starts_with2 is_nl (squeeze_blanks b s) = starts_with2 is_nl s.
Proof.
  pose proof (squeeze_blanks_head b s) as H. destruct s as [|c s]; [now rewrite H|].
  destruct (is_blank c) eqn:Hc.
  - destruct H as (c' & t & -> & Hc').
    assert (N1 : is_nl c' = false)
      by (destruct (is_nl c') eqn:N; auto; now rewrite (nl_not_blank _ N) in Hc').
    assert (N2 : is_nl c = false)
      by (destruct (is_nl c) eqn:N; auto; now rewrite (nl_not_blank _ N) in Hc).
    simpl. rewrite N1, N2. now destruct t, s.
  - rewrite H. pose proof (squeeze_blanks_head_nl false s) as H'.
    destruct (squeeze_blanks false s), s; simpl in *;
      destruct (is_nl c); simpl; congruence.
Qed.

Lemma squeeze_blanks_keeps_blank_nl s : forall b,
  pair_free is_blank is_nl s = true ->
  pair_free is_blank is_nl (squeeze_blanks b s) = true.
Proof.
  induction s as [|c s IH]; intros b; auto. cbn [squeeze_blanks pair_free].
  intros H. apply andb_prop in H. destruct H as [H1 H2].
  destruct (is_blank c) eqn:Hc.
  - destruct (starts_with is_blank s); auto.
    cbn [pair_free]. rewrite squeeze_blanks_head_nl, (IH _ H2), andb_true_r.
    simpl in H1. destruct (starts_with is_nl s); [discriminate|].
    now rewrite andb_false_r.
  - cbn [pair_free]. now rewrite Hc, (IH _ H2).
Qed.

Lemma squeeze_blanks_keeps_nl3 s : forall b,
  nl3_free s = true -> nl3_free (squeeze_blanks b s) = true.
Proof.
  induction s as [|c s IH]; intros b; auto. cbn [squeeze_blanks nl3_free].
  intros H. apply andb_prop in H. destruct H as [H1 H2].
  destruct (is_blank c) eqn:Hc.
  - destruct (starts_with is_blank s); auto.
    cbn [nl3_free]. rewrite (IH _ H2), andb_true_r.
    assert (N : is_nl (if b then space else c) = false).
    { destruct b; auto.
      destruct (is_nl c) eqn:N; auto. now rewrite (nl_not_blank _ N) in Hc. }
    now rewrite N.
  - cbn [nl3_free]. now rewrite squeeze_blanks_head2_nl, H1, (IH _ H2).
Qed.

Lemma squeeze_blanks_free s : forall b,
  pair_free is_blank is_blank (squeeze_blanks b s) = true.
Proof.
  induction s as [|c s IH]; intros b; auto. cbn [squeeze_blanks].
  destruct (is_blank c) eqn:Hc.
  - destruct (starts_with is_blank s) eqn:E; auto.
    cbn [pair_free]. rewrite squeeze_blanks_head_blank, E, IH.
    now rewrite andb_false_r.
  - cbn [pair_free]. now rewrite Hc, IH.
Qed.

(** *** Texts the passes leave alone *)

Lemma replace_cr_fixed s : Forall no_cr s -> replace_cr s = s.
Proof.
  unfold replace_cr. induction 1 as [|c s Hc Hs IH]; simpl; auto.
  unfold no_cr in Hc. now rewrite Hc, IH.
Qed.

Lemma replace_cr_no_cr s : Forall no_cr (replace_cr s).
Proof.
  unfold replace_cr. induction s as [|c s IH]; simpl; constructor; auto.
  unfold no_cr. destruct (is_cr c) eqn:E; auto.
Qed.

Lemma sub_hyphen_break_fixed s :
  hyphen_break_free s = true -> re_sub hyphen_break [] 0 s = s.
Proof.
  induction s as [|c s IH]; auto. cbn [hyphen_break_free].
  intros H. apply andb_prop in H. destruct H as [H1 H2].
  apply Nat.eqb_eq in H1. cbn [re_sub]. now rewrite H1, IH.
Qed.

Lemma blank_nl_free_run c s :
  pair_free is_blank is_nl (c :: s) = true -> is_blank c = true ->
  nl_after_blanks s = false.
Proof.
  revert c. induction s as [|d s IH]; intros c H Hc; auto.
  rewrite nl_after_blanks_cons. cbn [pair_free] in H.
  apply andb_prop in H. destruct H as [H1 H2].
  rewrite Hc in H1. simpl in H1.
  destruct (is_blank d) eqn:Hd.
  - apply (IH d); [cbn [pair_free]; rewrite Hd; exact H2 | exact Hd].
  - now destruct (is_nl d).
Qed.

Lemma drop_blanks_fixed s :
  pair_free is_blank is_nl s = true -> drop_blanks_before_nl s = s.
Proof.
  induction s as [|c s IH]; auto. intros H. cbn [drop_blanks_before_nl].
  assert (H2 : pair_free is_blank is_nl s = true)
    by (cbn [pair_free] in H; apply andb_prop in H; tauto).
  destruct (is_blank c) eqn:Hc; cbn [andb].
  - rewrite (blank_nl_free_run c s H Hc). now rewrite IH.
  - now rewrite IH.
Qed.

Lemma squeeze_newlines_fixed s : nl3_free s = true -> squeeze_newlines s = s.
Proof.
  induction s as [|c s IH]; auto. cbn [nl3_free squeeze_newlines].
  intros H. apply andb_prop in H. destruct H as [H1 H2].
  rewrite span2_starts_with2. apply negb_true_iff in H1. now rewrite H1, IH.
Qed.

Lemma squeeze_blanks_fixed s :
  pair_free is_blank is_blank s = true -> squeeze_blanks false s = s.
Proof.
  induction s as [|c s IH]; auto. cbn [pair_free squeeze_blanks].
  intros H. apply andb_prop in H. destruct H as [H1 H2].
  destruct (is_blank c); simpl in H1.
  - apply negb_true_iff in H1. now rewrite H1, IH.
  - now rewrite IH.
Qed.

(** A text in normal form: what [clean_extracted_text] returns. *)
Definition normal (s : str) : Prop :=
  Forall no_cr s /\
  pair_free is_blank is_nl s = true /\
  nl3_free s = true /\
  pair_free is_blank is_blank s = true /\
  strip s = s.

Lemma clean_extracted_text_normal t : normal (clean_extracted_text t).
Proof.
  unfold clean_extracted_text.
  rewrite sub_blanks_newline_eq, sub_newlines3_eq, sub_blanks2_eq.
  set (t2 := re_sub hyphen_break [] 0 (replace_cr t)).
  assert (C2 : Forall no_cr t2).
  { apply re_sub_Forall; [constructor | apply replace_cr_no_cr]. }
  repeat split.
  - apply strip_Forall.
    rewrite <- sub_blanks2_eq, <- sub_newlines3_eq, <- sub_blanks_newline_eq.
    do 3 (apply re_sub_Forall; [repeat constructor|]). exact C2.
  - apply strip_pair_free, squeeze_blanks_keeps_blank_nl,
      squeeze_newlines_keeps_blank_nl, drop_blanks_free.
  - apply strip_nl3_free, squeeze_blanks_keeps_nl3, squeeze_newlines_free.
  - apply strip_pair_free, squeeze_blanks_free.
  - apply strip_strip.
Qed.

Lemma clean_extracted_text_fixed s :
  normal s -> hyphen_break_free s = true -> clean_extracted_text s = s.
Proof.
  intros (H1 & H3 & H4 & H5 & H6) H2. unfold clean_extracted_text.
  rewrite (replace_cr_fixed _ H1), (sub_hyphen_break_fixed _ H2).
  rewrite sub_blanks_newline_eq, (drop_blanks_fixed _ H3).
  rewrite sub_newlines3_eq, (squeeze_newlines_fixed _ H4).
  rewrite sub_blanks2_eq, (squeeze_blanks_fixed _ H5).
  exact H6.
Qed.

(** *** Texts a second run does change

    A hyphenated line break left in a normalised text is removed by the
    next run, and no pass makes a text longer: the condition of the
    amended claim below cannot be weakened. *)

Lemma sub_empty_length m s : forall k,
  List.length (re_sub m [] k s) <= List.length s.
Proof.
  induction s as [|c s IH]; intros k; simpl; auto.
  destruct k as [|k].
  - destruct (m (c :: s)); simpl; [specialize (IH 0) | specialize (IH n)]; lia.
  - specialize (IH k). lia.
Qed.

Lemma sub_hyphen_break_shorter s :
  hyphen_break_free s = false ->
  List.length (re_sub hyphen_break [] 0 s) < List.length s.
Proof.
  induction s as [|c s IH]; [discriminate|].
  cbn [hyphen_break_free re_sub]. intros H.
  destruct (hyphen_break (c :: s)) as [|k] eqn:E.
  - simpl in H. apply IH in H. simpl. lia.
  - pose proof (sub_empty_length hyphen_break s k). simpl. lia.
Qed.

Lemma drop_blanks_length s :
  List.length (drop_blanks_before_nl s) <= List.length s.
Proof.
  induction s as [|c s IH]; simpl; auto.
  destruct (is_blank c && nl_after_blanks s); simpl; lia.
Qed.

Lemma squeeze_newlines_length s :
  List.length (squeeze_newlines s) <= List.length s.
Proof.
  induction s as [|c s IH]; auto. cbn [squeeze_newlines].
  destruct (is_nl c && (2 <=? span_len is_nl s)); simpl; lia.
Qed.

Lemma squeeze_blanks_length s : forall b,
  List.length (squeeze_blanks b s) <= List.length s.
Proof.
  induction s as [|c s IH]; intros b; auto. cbn [squeeze_blanks].
  destruct (is_blank c); [destruct (starts_with is_blank s)|]; simpl;
    try (specialize (IH true); lia); specialize (IH false); lia.
Qed.

Lemma strip_length s : List.length (strip s) <= List.length s.
Proof.
  destruct (strip_infix s) as (t & u & E). rewrite E at 2.
  rewrite !length_app. lia.
Qed.

Lemma clean_extracted_text_changes t :
  hyphen_break_free (clean_extracted_text t) = false ->
  clean_extracted_text (clean_extracted_text t) <> clean_extracted_text t.
Proof.
  intros H E. apply (f_equal (@List.length ascii)) in E.
  set (s := clean_extracted_text t) in *.
  destruct (clean_extracted_text_normal t) as (H1 & _). fold s in H1.
  unfold clean_extracted_text at 1 in E.
  rewrite (replace_cr_fixed _ H1) in E.
  rewrite sub_blanks_newline_eq, sub_newlines3_eq, sub_blanks2_eq in E.
  pose proof (sub_hyphen_break_shorter s H) as L1.
  set (s2 := re_sub hyphen_break [] 0 s) in *.
  pose proof (drop_blanks_length s2) as L2.
  pose proof (squeeze_newlines_length (drop_blanks_before_nl s2)) as L3.
  pose proof (squeeze_blanks_length
                (squeeze_newlines (drop_blanks_before_nl s2)) false) as L4.
  pose proof (strip_length
                (squeeze_blanks false
                   (squeeze_newlines (drop_blanks_before_nl s2)))) as L5.
  lia.
Qed.

(** *** The claim about normalisation *)

(** C4, as stated, fails.  The trailing space of a line that ends in a
    hyphen is removed after the hyphenation pass has looked at it, so
    the first run leaves a hyphenated line break for the second. *)
Lemma clean_extracted_text_not_idempotent :
  clean_extracted_text hyphen_space_break =
    of_string "co-" ++ [nl] ++ of_string "operation" /\
  clean_extracted_text (clean_extracted_text hyphen_space_break) =
    of_string "cooperation" /\
  clean_extracted_text (clean_extracted_text hyphen_space_break) <>
    clean_extracted_text hyphen_space_break.
Proof.
  repeat split; try reflexivity. vm_compute. discriminate.
Qed.

(** C4, amended.  Normalising a normalised text returns the identical
    text whenever the normalised text holds no hyphen directly followed
    by a line break and a word character. *)
Theorem clean_extracted_text_idempotent (t : str) :
  hyphen_break_free (clean_extracted_text t) = true ->
  clean_extracted_text (clean_extracted_text t) = clean_extracted_text t.
Proof.
  intros H. apply clean_extracted_text_fixed; auto.
  apply clean_extracted_text_normal.
Qed.

(** The amended C4 at a text with a carriage return, a run of blanks
    and four newlines. *)
Lemma clean_extracted_text_idempotent_witness :
  hyphen_break_free (clean_extracted_text plain_text) = true /\
  clean_extracted_text (clean_extracted_text plain_text) =
  clean_extracted_text plain_text.
Proof.
  assert (H : hyphen_break_free (clean_extracted_text plain_text) = true)
    by reflexivity.
  split; [exact H|].
  exact (clean_extracted_text_idempotent plain_text H).
Defined.

End TextFacts.

(* ================================================================= *)
(** ** Facts about the span resolution *)

Module LocatorFacts.
Import Text Locator.

#[local] Arguments resolved_start : simpl never.
#[local] Arguments seed_start : simpl never.

(** *** The order of the seeds *)

Definition seed_le (a b : Seed) : Prop := seed_start a <= seed_start b.

Lemma insert_by_start_perm x l : Permutation (insert_by_start x l) (x :: l).
Proof.
  induction l as [|y l IH]; cbn [insert_by_start]; auto.
  destruct (seed_start y <? seed_start x); auto.
  apply perm_trans with (y :: x :: l); [apply perm_skip, IH | apply perm_swap].
Qed.


Lemma insert_by_start_sorted x l :
  StronglySorted seed_le l -> StronglySorted seed_le (insert_by_start x l).
Proof.
  induction 1 as [|y l Hl IH Hy]; cbn [insert_by_start].
  - repeat constructor.
  - destruct (seed_start y <? seed_start x) eqn:E.
    + apply Nat.ltb_lt in E. constructor; auto.
      eapply Permutation_Forall; [symmetry; apply insert_by_start_perm|].
      constructor; auto. unfold seed_le. lia.
    + apply Nat.ltb_ge in E. constructor; [now constructor|].
      constructor; auto.
      eapply Forall_impl; [|exact Hy]. unfold seed_le. intros; lia.
Qed.

Lemma ordered_sections_sorted l : StronglySorted seed_le (ordered_sections l).
Proof.
  induction l as [|x l IH]; simpl; [constructor|].
  now apply insert_by_start_sorted.
Qed.

Lemma insert_by_start_comm x y l :
  seed_start x <> seed_start y ->
  insert_by_start x (insert_by_start y l) = insert_by_start y (insert_by_start x l).
Proof.
  intros Hne. induction l as [|z l IH]; cbn [insert_by_start].
  - destruct (seed_start y <? seed_start x) eqn:E1,
             (seed_start x <? seed_start y) eqn:E2; auto;
      [apply Nat.ltb_lt in E1, E2 | apply Nat.ltb_ge in E1, E2]; lia.
  - destruct (seed_start z <? seed_start y) eqn:Ey,
             (seed_start z <? seed_start x) eqn:Ex;
      cbn [insert_by_start]; rewrite ?Ex, ?Ey.
    + now rewrite IH.
    + destruct (seed_start x <? seed_start y) eqn:E; auto.
      apply Nat.ltb_lt in Ey. apply Nat.ltb_ge in Ex, E. lia.
    + destruct (seed_start y <? seed_start x) eqn:E; auto.
      apply Nat.ltb_lt in Ex. apply Nat.ltb_ge in Ey, E. lia.
    + destruct (seed_start y <? seed_start x) eqn:E1,
               (seed_start x <? seed_start y) eqn:E2;
        cbn [insert_by_start]; rewrite ?Ex, ?Ey; auto;
        [apply Nat.ltb_lt in E1, E2 | apply Nat.ltb_ge in E1, E2]; lia.
Qed.

(** Seeds with pairwise distinct starts have one order only. *)
Lemma ordered_sections_unique l l' :
  Permutation l l' -> NoDup (map seed_start l) ->
  ordered_sections l = ordered_sections l'.
Proof.
  induction 1 as [|x l l' Hp IH|x y l|l l' l'' H1 IH1 H2 IH2]; intros Hnd.
  - reflexivity.
  - simpl. rewrite IH; auto. now inversion Hnd.
  - simpl. apply insert_by_start_comm.
    inversion Hnd as [|? ? Hx _]; subst. simpl in Hx. intuition.
  - rewrite IH1 by auto. apply IH2.
    eapply Permutation_NoDup; [|exact Hnd]. now apply Permutation_map.
Qed.

(** *** Offsets *)

Lemma rfind_from_bounds s : forall i stop j,
  rfind_from i s stop = Some j ->
  i <= j /\ j < i + stop /\ nth_error s (j - i) = Some nl.
Proof.
  induction s as [|c s IH]; intros i [|stop] j; simpl; try discriminate.
  destruct (rfind_from (S i) s stop) as [j'|] eqn:E.
  - intros [= <-]. destruct (IH _ _ _ E) as (H1 & H2 & H3).
    repeat split; try lia.
    replace (j' - i) with (S (j' - S i)) by lia. exact H3.
  - destruct (is_nl c) eqn:Hc; [|discriminate]. intros [= <-].
    repeat split; try lia. rewrite Nat.sub_diag. simpl.
    now rewrite (TextFacts.is_nl_eq _ Hc).
Qed.

Lemma rfind_nl_bounds text stop p :
  rfind_nl text stop = Some p -> p < stop /\ nth_error text p = Some nl.
Proof.
  unfold rfind_nl. intros H. apply rfind_from_bounds in H.
  rewrite Nat.sub_0_r in H. intuition lia.
Qed.


Lemma firstn_add_split {A : Type} n m (l : list A) :
  firstn (n + m) l = firstn n l ++ firstn m (skipn n l).
Proof.
  revert l. induction n as [|n IH]; intros [|x l]; simpl; auto.
  - now rewrite firstn_nil.
  - now rewrite IH.
Qed.

(** [text[a:c] = text[a:b] + text[b:c]] when [b] lies between. *)
Lemma slice_split a b c (text : str) :
  a <= b -> b <= c \/ List.length text <= c ->
  slice a c text = slice a b text ++ slice b c text.
Proof.
  intros Hab [Hbc|Hlen]; unfold slice.
  - replace (c - a) with ((b - a) + (c - b)) by lia.
    rewrite firstn_add_split, skipn_skipn.
    now replace (b - a + a) with b by lia.
  - destruct (Nat.le_gt_cases b c) as [Hbc|Hcb].
    + replace (c - a) with ((b - a) + (c - b)) by lia.
      rewrite firstn_add_split, skipn_skipn.
      now replace (b - a + a) with b by lia.
    + replace (c - b) with 0 by lia. simpl. rewrite app_nil_r.
      rewrite !firstn_all2; auto; rewrite length_skipn; lia.
Qed.

(** *** The loop over the ordered seeds *)

Definition next_start (text : str) (ordered : list Seed) (index : nat) : nat :=
  match nth_error ordered (S index) with
  | Some item => seed_start item
  | None => List.length text
  end.

Lemma resolve_from_nth text ordered : forall index,
  nth_error (resolve_from text ordered) index =
  match nth_error ordered index with
  | Some (section, (start, _)) =>
      Some (mkResolved section start (resolved_start text start)
                       (next_start text ordered index))
  | None => None
  end.
Proof.
  induction ordered as [|[section [start stop]] rest IH]; intros [|index];
    try reflexivity.
  - unfold next_start. simpl. now destruct rest.
  - simpl. rewrite IH. unfold next_start. reflexivity.
Qed.

Lemma sorted_nth (l : list Seed) : forall i j a b,
  StronglySorted seed_le l -> i < j ->
  nth_error l i = Some a -> nth_error l j = Some b -> seed_le a b.
Proof.
  induction l as [|x l IH]; intros i j a b Hs Hij Ha Hb.
  - now destruct i.
  - apply StronglySorted_inv in Hs. destruct Hs as [Hs Hx].
    destruct j as [|j]; [lia|]. simpl in Hb. destruct i as [|i]; simpl in Ha.
    + injection Ha as <-. rewrite Forall_forall in Hx.
      apply Hx. now apply nth_error_In in Hb.
    + apply (IH i j); auto. lia.
Qed.


(** *** The claims about span resolution *)




(** C7, as stated, fails.  When the label stands on a line of its own
    and the heading match starts on the next line, nothing precedes the
    match on its line and the start stays where it is; and a label that
    shares the first line of the document with its heading is not
    included either, because no newline precedes it. *)
Lemma label_line_not_included :
  label_line_before label_line_document 9 13 /\
  resolved_spans label_line_document label_line_seeds =
    [mkResolved "Institutional framework for climate action" 13 13 46] /\
  roman_label (slice 0 4 first_line_document) = true /\
  resolved_spans first_line_document first_line_seeds =
    [mkResolved "Institutional framework for climate action" 4 4 30].
Proof.
  repeat split; try reflexivity.
  - lia.
  - repeat constructor.
  - right. reflexivity.
Qed.

(** C7, amended.  When the text between the last newline before a
    section's seed and the seed is a bare roman-numeral label, the
    span of the section starts right after that newline, so that it
    consists of the label followed by the text from the seed on, and it
    ends at the next located seed (at the end of the document for the
    last section). *)
Theorem label_on_heading_line_included
    (text : str) (section_spans : list Seed) (index : nat)
    (section : string) (start stop previous_newline : nat) :
  nth_error (ordered_sections section_spans) index = Some (section, (start, stop)) ->
  rfind_nl text start = Some previous_newline ->
  roman_label (slice (S previous_newline) start text) = true ->
  nth_error (resolved_spans text section_spans) index =
    Some (mkResolved section start (S previous_newline)
            (next_start text (ordered_sections section_spans) index)) /\
  slice (S previous_newline)
        (next_start text (ordered_sections section_spans) index) text =
    slice (S previous_newline) start text ++
    slice start (next_start text (ordered_sections section_spans) index) text.
Proof.
  intros Hnth Hnl Hlabel. split.
  - unfold resolved_spans. rewrite resolve_from_nth, Hnth.
    unfold resolved_start. now rewrite Hnl, Hlabel.
  - apply rfind_nl_bounds in Hnl. apply slice_split; [lia|].
    unfold next_start.
    destruct (nth_error (ordered_sections section_spans) (S index)) as [item|] eqn:E.
    + left.
      exact (sorted_nth _ _ _ _ _ (ordered_sections_sorted section_spans)
               (Nat.lt_succ_diag_r index) Hnth E).
    + right. lia.
Qed.

(** The amended C7 at the example of the specification. *)
Lemma label_on_heading_line_included_witness :
  nth_error (ordered_sections [("Next Heading"%string, (39, 54));
                               ("Adaptation actions"%string, (12, 30))]) 0 =
    Some ("Adaptation actions"%string, (12, 30)) /\
  rfind_nl adaptation_document 12 = Some 7 /\
  roman_label (slice 8 12 adaptation_document) = true /\
  nth_error (resolved_spans adaptation_document
               [("Next Heading"%string, (39, 54));
                ("Adaptation actions"%string, (12, 30))]) 0 =
    Some (mkResolved "Adaptation actions" 12 8 39).
Proof.
  assert (H1 : nth_error (ordered_sections [("Next Heading"%string, (39, 54));
                                             ("Adaptation actions"%string, (12, 30))]) 0 =
               Some ("Adaptation actions"%string, (12, 30))) by reflexivity.
  assert (H2 : rfind_nl adaptation_document 12 = Some 7) by reflexivity.
  assert (H3 : roman_label (slice 8 12 adaptation_document) = true) by reflexivity.
  split; [exact H1 | split; [exact H2 | split; [exact H3 |]]].
  exact (proj1 (label_on_heading_line_included adaptation_document _ 0 _ 12 30 7
                  H1 H2 H3)).
Defined.

(** *** Independence of the order of the configuration *)

Section Order.

Variable re_search : Flags -> str -> str -> SearchResult.

Definition locate_one (text : str) (item : string * SectionConfig) : list Seed :=
  match locate_section re_search text (snd item) with
  | Some span => [(fst item, span)]
  | None => []
  end.

Lemma assoc_set_fresh {V : Type} k (v : V) d :
  ~ In k (map fst d) -> assoc_set k v d = d ++ [(k, v)].
Proof.
  induction d as [|[k' v'] d IH]; simpl; auto.
  intros H. destruct (String.eqb_spec k k') as [->|Hne]; [tauto|].
  rewrite IH; tauto.
Qed.

Lemma locate_one_names text item :
  forall x, In x (map fst (locate_one text item)) -> x = fst item.
Proof.
  unfold locate_one. destruct (locate_section re_search text (snd item));
    simpl; intuition.
Qed.

Lemma locate_from text defs : forall acc,
  NoDup (map fst defs) ->
  (forall x, In x (map fst acc) -> ~ In x (map fst defs)) ->
  fold_left (locate_step re_search text) defs acc =
  acc ++ flat_map (locate_one text) defs.
Proof.
  induction defs as [|item defs IH]; intros acc Hnd Hacc; simpl.
  - now rewrite app_nil_r.
  - inversion Hnd as [|? ? Hi Hnd']; subst.
    assert (Hstep : locate_step re_search text acc item =
                    acc ++ locate_one text item).
    { unfold locate_step, locate_one.
      destruct (locate_section re_search text (snd item)).
      - apply assoc_set_fresh. intros Hin. apply (Hacc _ Hin). now left.
      - now rewrite app_nil_r. }
    rewrite Hstep, IH, <- app_assoc; auto.
    intros x Hx. rewrite map_app in Hx. apply in_app_or in Hx.
    destruct Hx as [Hx|Hx].
    + intros Hin. apply (Hacc _ Hx). now right.
    + apply locate_one_names in Hx. now subst.
Qed.

Lemma locate_flat_map text defs :
  NoDup (map fst defs) ->
  locate re_search text defs = flat_map (locate_one text) defs.
Proof.
  intros Hnd. unfold locate. rewrite locate_from; auto.
Qed.

End Order.

(** C8, as stated, fails.  Two sections whose patterns match at the
    same offset are ordered by the stable sort as the configuration
    lists them; the first gets the empty span and is dropped, the
    second gets the text. *)
Lemma extraction_depends_on_configuration_order :
  Permutation policy_definitions policy_definitions_reordered /\
  NoDup (map fst policy_definitions) /\
  assoc_get "Policy"
    (extract_sections_from_pdf literal_search [policy_page] policy_definitions) =
    None /\
  assoc_get "Policy"
    (extract_sections_from_pdf literal_search [policy_page]
       policy_definitions_reordered) =
    Some policy_page.
Proof.
  split; [apply perm_swap|].
  split; [repeat constructor; simpl; intuition discriminate|].
  split; reflexivity.
Qed.

(** C8, amended.  Two configurations that bind the same section names
    to the same patterns in different orders yield the same result,
    provided no two located sections start at the same offset. *)
Theorem extraction_independent_of_configuration_order
    (re_search : Flags -> str -> str -> SearchResult)
    (pages : list str)
    (section_definitions reordered : list (string * SectionConfig)) :
  Permutation section_definitions reordered ->
  NoDup (map fst section_definitions) ->
  NoDup (map seed_start
           (locate re_search (clean_extracted_text (join [nl] pages))
                   section_definitions)) ->
  extract_sections_from_pdf re_search pages section_definitions =
  extract_sections_from_pdf re_search pages reordered.
Proof.
  intros Hperm Hnames Hstarts. unfold extract_sections_from_pdf. cbv zeta.
  set (text := clean_extracted_text (join [nl] pages)) in *.
  assert (Hnames' : NoDup (map fst reordered)).
  { eapply Permutation_NoDup; [|exact Hnames]. now apply Permutation_map. }
  rewrite (locate_flat_map re_search text _ Hnames) in *.
  rewrite (locate_flat_map re_search text _ Hnames').
  assert (Hp : Permutation (flat_map (locate_one re_search text) section_definitions)
                           (flat_map (locate_one re_search text) reordered))
    by now apply Permutation_flat_map.
  assert (Hex : extract_from_spans text
                  (flat_map (locate_one re_search text) section_definitions) =
                extract_from_spans text
                  (flat_map (locate_one re_search text) reordered)).
  { unfold extract_from_spans, resolved_spans.
    now rewrite (ordered_sections_unique _ _ Hp Hstarts). }
  destruct (flat_map (locate_one re_search text) section_definitions) as [|a l] eqn:E1,
           (flat_map (locate_one re_search text) reordered) as [|b l'] eqn:E2;
    try reflexivity; exact Hex.
Qed.

(** The amended C8 at a page with two sections at different offsets. *)
Lemma extraction_independent_of_configuration_order_witness :
  Permutation cuba_definitions cuba_definitions_reordered /\
  NoDup (map fst cuba_definitions) /\
  extract_sections_from_pdf literal_search [cuba_page] cuba_definitions =
  extract_sections_from_pdf literal_search [cuba_page] cuba_definitions_reordered.
Proof.
  assert (H1 : Permutation cuba_definitions cuba_definitions_reordered)
    by apply perm_swap.
  assert (H2 : NoDup (map fst cuba_definitions)).
  { repeat constructor; simpl; intuition discriminate. }
  assert (H3 : NoDup (map seed_start
                        (locate literal_search
                           (clean_extracted_text (join [nl] [cuba_page]))
                           cuba_definitions))).
  { vm_compute. repeat constructor; simpl; intuition discriminate. }
  split; [exact H1 | split; [exact H2 |]].
  exact (extraction_independent_of_configuration_order
           literal_search [cuba_page] cuba_definitions cuba_definitions_reordered
           H1 H2 H3).
Defined.

End LocatorFacts.

(* ================================================================= *)
(** ** Facts about the keyword pass *)

Module KeywordsFacts.
Import Text Locator Keywords.

(** *** Matching lines *)

Lemma matched_from_filter keywords lines : forall idx,
  matched_from idx keywords lines =
  filter (fun i => line_matches keywords (nth (i - idx) lines []))
         (seq idx (List.length lines)).
Proof.
  induction lines as [|line rest IH]; intros idx; auto.
  cbn [matched_from List.length seq filter]. rewrite Nat.sub_diag.
  cbn [nth]. rewrite IH.
  assert (E : filter (fun i => line_matches keywords (nth (i - S idx) rest []))
                     (seq (S idx) (List.length rest)) =
              filter (fun i => line_matches keywords (nth (i - idx) (line :: rest) []))
                     (seq (S idx) (List.length rest))).
  { apply filter_ext_in. intros i Hi. apply in_seq in Hi.
    replace (i - idx) with (S (i - S idx)) by lia. reflexivity. }
  rewrite E. reflexivity.
Qed.

Lemma matched_indices_spec keywords lines :
  matched_indices (map lower keywords) lines = spec_matching_lines keywords lines.
Proof.
  unfold matched_indices, spec_matching_lines. rewrite matched_from_filter.
  apply filter_ext. intros i. now rewrite Nat.sub_0_r.
Qed.

(** *** Clusters *)

Definition cluster_ends (group : list nat) : Window :=
  (hd 0 group, last group 0).

Lemma spec_cluster_head i rest :
  exists group groups, spec_cluster (i :: rest) = (i :: group) :: groups.
Proof.
  cbn [spec_cluster]. destruct (spec_cluster rest) as [|[|j group] groups]; eauto.
  destruct (j - i <=? 2); eauto.
Qed.

Lemma cluster_loop_spec rest : forall start prev,
  cluster_loop start prev rest =
  match spec_cluster (prev :: rest) with
  | group :: groups => (start, last group 0) :: map cluster_ends groups
  | [] => []
  end.
Proof.
  induction rest as [|i rest IH]; intros start prev; [reflexivity|].
  cbn [cluster_loop].
  destruct (spec_cluster_head i rest) as (group & groups & E).
  change (spec_cluster (prev :: i :: rest))
    with (match spec_cluster (i :: rest) with
          | (j :: g) :: gs =>
              if j - prev <=? 2 then (prev :: j :: g) :: gs
              else [prev] :: (j :: g) :: gs
          | _ => [[prev]]
          end).
  rewrite (IH start i), (IH i i), E.
  destruct (i - prev <=? 2); reflexivity.
Qed.

Lemma clusters_spec matched :
  clusters matched = map cluster_ends (spec_cluster matched).
Proof.
  destruct matched as [|first rest]; [reflexivity|].
  unfold clusters. rewrite cluster_loop_spec.
  destruct (spec_cluster_head first rest) as (group & groups & E).
  rewrite E. reflexivity.
Qed.

(** Every group of [spec_cluster] is a chain of steps of at most two
    lines, two neighbouring groups are more than two lines apart, and
    the groups together are the matching lines. *)
Fixpoint chained (group : list nat) : bool :=
  match group with
  | a :: (b :: _) as rest => (b - a <=? 2) && chained rest
  | _ => true
  end.

Fixpoint separated (groups : list (list nat)) : bool :=
  match groups with
  | g :: ((h :: _) :: _) as rest => (2 <? h - last g 0) && separated rest
  | _ => true
  end.

Lemma spec_cluster_step i rest :
  spec_cluster (i :: rest) =
  match rest with
  | [] => [[i]]
  | j :: _ =>
      match spec_cluster rest with
      | group :: groups =>
          if j - i <=? 2 then (i :: group) :: groups else [i] :: group :: groups
      | [] => [[i]]
      end
  end.
Proof.
  destruct rest as [|j rest']; [reflexivity|].
  destruct (spec_cluster_head j rest') as (group & groups & E).
  cbn [spec_cluster] in *. now rewrite E.
Qed.

Lemma spec_cluster_concat matched :
  List.concat (spec_cluster matched) = matched.
Proof.
  induction matched as [|i rest IH]; [reflexivity|].
  rewrite spec_cluster_step. destruct rest as [|j rest']; [reflexivity|].
  destruct (spec_cluster (j :: rest')) as [|group groups]; [discriminate|].
  destruct (j - i <=? 2); simpl in *; now rewrite IH.
Qed.

Lemma spec_cluster_chained matched :
  forallb chained (spec_cluster matched) = true.
Proof.
  induction matched as [|i rest IH]; [reflexivity|].
  rewrite spec_cluster_step. destruct rest as [|j rest']; [reflexivity|].
  destruct (spec_cluster_head j rest') as (group & groups & E).
  rewrite E in *. destruct (j - i <=? 2) eqn:G.
  - cbn [forallb chained] in *. now rewrite G.
  - cbn [forallb] in *. exact IH.
Qed.

Lemma spec_cluster_separated matched : separated (spec_cluster matched) = true.
Proof.
  induction matched as [|i rest IH]; [reflexivity|].
  rewrite spec_cluster_step. destruct rest as [|j rest']; [reflexivity|].
  destruct (spec_cluster_head j rest') as (group & groups & E).
  rewrite E in *. destruct (j - i <=? 2) eqn:G.
  - destruct groups as [|[|h g'] groups']; try reflexivity.
    cbn [separated] in *.
    replace (last (i :: j :: group) 0) with (last (j :: group) 0) by reflexivity.
    exact IH.
  - change (separated ([i] :: (j :: group) :: groups))
      with ((2 <? j - i) && separated ((j :: group) :: groups)).
    rewrite IH, andb_true_r.
    apply Nat.leb_gt in G. now apply Nat.ltb_lt.
Qed.

(** *** Windows *)



Lemma context_loop_windows lines cl : forall seen,
  context_loop lines seen cl =
  flat_map (window_lines lines) (surviving_windows (List.length lines) seen cl).
Proof.
  induction cl as [|cluster rest IH]; intros seen; [reflexivity|].
  cbn [context_loop surviving_windows].
  destruct (existsb (window_eqb (expand (List.length lines) cluster)) seen); auto.
  cbn [flat_map]. now rewrite IH.
Qed.

Definition unseen (seen : list Window) (w : Window) : bool :=
  negb (existsb (window_eqb w) seen).

Lemma filter_filter {A : Type} (f g : A -> bool) l :
  filter f (filter g l) = filter (fun x => g x && f x) l.
Proof.
  induction l as [|x l IH]; simpl; auto.
  destruct (g x); simpl; rewrite IH; auto.
Qed.

Lemma window_eqb_eq a b : window_eqb a b = true -> a = b.
Proof.
  destruct a, b. unfold window_eqb. simpl. intros H.
  apply andb_prop in H. destruct H as [H1 H2].
  apply Nat.eqb_eq in H1, H2. congruence.
Qed.

Lemma surviving_windows_spec n cl : forall seen,
  surviving_windows n seen cl =
  filter (unseen seen) (spec_drop_repeated (map (expand n) cl)).
Proof.
  induction cl as [|cluster rest IH]; intros seen; [reflexivity|].
  cbn [surviving_windows map spec_drop_repeated filter]. unfold unseen at 1.
  destruct (existsb (window_eqb (expand n cluster)) seen) eqn:E; cbn [negb].
  - rewrite IH, filter_filter. apply filter_ext. intros v.
    destruct (window_eqb v (expand n cluster)) eqn:Ev; auto.
    apply window_eqb_eq in Ev. subst v. unfold unseen. now rewrite E.
  - f_equal. rewrite IH, filter_filter. apply filter_ext. intros v.
    unfold unseen. cbn [existsb]. rewrite negb_orb. reflexivity.
Qed.

Lemma filter_all {A : Type} (l : list A) : filter (fun _ => true) l = l.
Proof. induction l; simpl; congruence. Qed.

Lemma surviving_windows_spec_windows keywords lines :
  surviving_windows (List.length lines) []
    (clusters (matched_indices (map lower keywords) lines)) =
  spec_windows keywords lines.
Proof.
  rewrite surviving_windows_spec, matched_indices_spec, clusters_spec.
  unfold spec_windows. rewrite map_map.
  unfold unseen. cbn [existsb negb]. rewrite filter_all.
  reflexivity.
Qed.

(** *** The claim about the keyword pass *)

(** C9, as stated, fails.  Lines 0 and 3 match and are three lines
    apart, so they form two clusters; their windows, lines 0-5 and
    lines 0-8, overlap without being equal and both survive, and the
    result repeats the lines they share. *)
Lemma overlapping_windows_survive :
  surviving_windows (List.length ndc_lines) []
    (clusters (matched_indices (map lower ndc_keywords) ndc_lines)) =
    [(0, 5); (0, 8)] /\
  ~ no_overlapping_windows
      (surviving_windows (List.length ndc_lines) []
         (clusters (matched_indices (map lower ndc_keywords) ndc_lines))) /\
  keyword_section ndc_keywords ndc_lines =
    join [nl] (firstn 6 ndc_lines ++ [[]] ++ firstn 9 ndc_lines).
Proof.
  assert (E : surviving_windows (List.length ndc_lines) []
                (clusters (matched_indices (map lower ndc_keywords) ndc_lines)) =
              [(0, 5); (0, 8)]) by reflexivity.
  rewrite E. split; [reflexivity|]. split; [|reflexivity].
  intros H. apply (H 0 1 _ _ (Nat.neq_0_succ 0) eq_refl eq_refl).
  unfold windows_overlap. simpl. lia.
Qed.

(** The loop body computes what the specification's words describe. *)
Lemma keyword_section_spec (keywords : list str) (lines : list str) :
  keyword_section keywords lines = spec_keyword_section keywords lines.
Proof.
  unfold spec_keyword_section.
  rewrite <- surviving_windows_spec_windows, <- context_loop_windows.
  unfold keyword_section. cbv zeta.
  destruct (map lower keywords) as [|kw kws] eqn:K.
  - assert (M : matched_indices [] lines = []).
    { unfold matched_indices. generalize 0.
      induction lines as [|l ls IH]; intros n; simpl; auto. }
    rewrite M. reflexivity.
  - destruct (matched_indices (kw :: kws) lines); reflexivity.
Qed.

Lemma assoc_get_set_same {V : Type} k (v : V) d :
  assoc_get k (assoc_set k v d) = Some v.
Proof.
  induction d as [|[k' v'] d IH]; simpl.
  - now rewrite String.eqb_refl.
  - destruct (String.eqb k k') eqn:E; simpl; rewrite ?String.eqb_refl, ?E; auto.
Qed.

Lemma assoc_get_set_other {V : Type} k k' (v : V) d :
  k' <> k -> assoc_get k' (assoc_set k v d) = assoc_get k' d.
Proof.
  intros Hne. apply String.eqb_neq in Hne.
  induction d as [|[k0 v0] d IH]; simpl.
  - now rewrite Hne.
  - destruct (String.eqb_spec k k0) as [->|Hk]; simpl.
    + now rewrite Hne.
    + destruct (String.eqb k' k0); auto.
Qed.

Lemma sections_get {V : Type} (f : string -> V) name names : forall sections,
  assoc_get name (fold_left (fun d k => assoc_set k (f k) d) names sections) =
  if in_dec string_dec name names then Some (f name) else assoc_get name sections.
Proof.
  induction names as [|k names IH]; intros sections; [reflexivity|].
  cbn [fold_left]. rewrite IH.
  destruct (in_dec string_dec name names) as [Hin|Hout];
    destruct (in_dec string_dec name (k :: names)) as [Hin'|Hout'].
  - reflexivity.
  - exfalso. apply Hout'. now right.
  - destruct Hin' as [->|Hin']; [|contradiction]. apply assoc_get_set_same.
  - apply assoc_get_set_other. intros ->. apply Hout'. now left.
Qed.

(** C9, amended.  For every document and every configured section,
    the keyword pass collects the lines that contain one of the
    section's keywords (letter case apart), puts matching line numbers
    at most two apart into one cluster, widens each cluster by five
    lines on each side within the document, drops a window that equals
    an earlier one (windows that merely overlap all stay), and joins
    the windows in document order, a blank line after each, stripping
    the result.  The clusters are chains of steps of at most two lines,
    more than two lines apart from each other, and together they are
    the matching lines. *)
Theorem extract_sections_by_keywords_spec
    (SECTION_NAMES : list string) (SECTION_KEYWORDS : list (string * list str))
    (text : str) :
  Forall (fun section_name =>
            assoc_get section_name
              (extract_sections_by_keywords SECTION_NAMES SECTION_KEYWORDS text) =
            Some (spec_keyword_section (keywords_of SECTION_KEYWORDS section_name)
                                       (document_lines text)) /\
            List.concat
              (spec_cluster
                 (spec_matching_lines (keywords_of SECTION_KEYWORDS section_name)
                                      (document_lines text))) =
            spec_matching_lines (keywords_of SECTION_KEYWORDS section_name)
                                (document_lines text) /\
            forallb chained
              (spec_cluster
                 (spec_matching_lines (keywords_of SECTION_KEYWORDS section_name)
                                      (document_lines text))) = true /\
            separated
              (spec_cluster
                 (spec_matching_lines (keywords_of SECTION_KEYWORDS section_name)
                                      (document_lines text))) = true)
         SECTION_NAMES.
Proof.
  apply Forall_forall. intros name Hin.
  split; [|split; [apply spec_cluster_concat |
                   split; [apply spec_cluster_chained | apply spec_cluster_separated]]].
  unfold extract_sections_by_keywords. cbv zeta.
  rewrite (sections_get
             (fun k => keyword_section (keywords_of SECTION_KEYWORDS k)
                         (split_nl (normalize_whitespace text)))).
  destruct (in_dec string_dec name SECTION_NAMES); [|contradiction].
  now rewrite keyword_section_spec.
Qed.

End KeywordsFacts.

(* ================================================================= *)
(** ** Dicts with [str] keys *)

Module DictFacts.
Import Locator.

Lemma assoc_get_not_key {V : Type} k (d : list (string * V)) :
  ~ In k (map fst d) -> assoc_get k d = None.
Proof.
  induction d as [|[k' v] d IH]; [reflexivity|]. simpl. intros H.
  destruct (String.eqb_spec k k') as [->|Hne]; [tauto|]. apply IH. tauto.
Qed.

Lemma assoc_get_key {V : Type} k (d : list (string * V)) v :
  assoc_get k d = Some v -> In k (map fst d).
Proof.
  induction d as [|[k' v'] d IH]; [discriminate|]. simpl.
  destruct (String.eqb_spec k k') as [->|Hne]; [now left|]. intros H. right. auto.
Qed.

Lemma assoc_set_keys {V : Type} k (v : V) d :
  forall k', In k' (map fst (assoc_set k v d)) <-> k' = k \/ In k' (map fst d).
Proof.
  induction d as [|[k0 v0] d IH]; intros k'; simpl.
  - intuition.
  - destruct (String.eqb_spec k k0) as [->|Hne]; simpl.
    + intuition.
    + rewrite IH. intuition.
Qed.

Lemma assoc_set_NoDup {V : Type} k (v : V) d :
  NoDup (map fst d) -> NoDup (map fst (assoc_set k v d)).
Proof.
  induction d as [|[k0 v0] d IH]; simpl; intros H.
  - constructor; [tauto | constructor].
  - inversion H as [|x l Hx Hl]; subst.
    destruct (String.eqb_spec k k0) as [->|Hne]; simpl.
    + now constructor.
    + constructor; [|now apply IH]. rewrite assoc_set_keys. intuition.
Qed.

Lemma fold_assoc_set_NoDup {V : Type} (f : string -> V) names : forall d,
  NoDup (map fst d) ->
  NoDup (map fst (fold_left (fun d k => assoc_set k (f k) d) names d)).
Proof.
  induction names as [|k names IH]; intros d H; [assumption|].
  cbn [fold_left]. apply IH. now apply assoc_set_NoDup.
Qed.

Lemma assoc_set_Forall {V : Type} (P : string * V -> Prop) k (v : V) d :
  P (k, v) -> Forall P d -> Forall P (assoc_set k v d).
Proof.
  intros Hk. induction 1 as [|[k0 v0] d H0 Hd IH]; simpl.
  - now repeat constructor.
  - destruct (String.eqb k k0); constructor; assumption.
Qed.

Lemma assoc_get_In {V : Type} k (v : V) d : assoc_get k d = Some v -> In (k, v) d.
Proof.
  induction d as [|[k0 v0] d IH]; simpl; [discriminate|].
  destruct (String.eqb_spec k k0) as [->|Hne].
  - intros [= ->]. now left.
  - intros H. right. now apply IH.
Qed.

Lemma In_assoc_get {V : Type} k (v : V) d :
  NoDup (map fst d) -> In (k, v) d -> assoc_get k d = Some v.
Proof.
  induction d as [|[k0 v0] d IH]; simpl; [intros _ []|].
  intros ND H. inversion ND as [|x l Hx Hl]; subst.
  destruct H as [[= -> ->]|H].
  - now rewrite String.eqb_refl.
  - destruct (String.eqb_spec k k0) as [->|Hne]; [|now apply IH].
    exfalso. apply Hx. change k0 with (fst (k0, v)). now apply in_map.
Qed.

End DictFacts.

(* ================================================================= *)
(** ** What [clean_extracted_text] and [extract_sections_from_pdf] return *)

Module ExtractionFacts.
Import Text Locator TextFacts LocatorFacts DictFacts.

Lemma resolve_from_sections text ordered :
  map r_section (resolve_from text ordered) = map fst ordered.
Proof.
  induction ordered as [|[section [start stop]] rest IH]; [reflexivity|].
  cbn [resolve_from map r_section fst]. now rewrite IH.
Qed.

Lemma ordered_sections_perm l : Permutation (ordered_sections l) l.
Proof.
  induction l as [|x l IH]; [constructor|]. cbn [ordered_sections fold_right].
  eapply perm_trans; [apply insert_by_start_perm|]. now constructor.
Qed.

Lemma resolved_sections_located text spans r :
  In r (resolved_spans text spans) -> In (r_section r) (map fst spans).
Proof.
  intros H. apply (in_map r_section) in H. unfold resolved_spans in H.
  rewrite resolve_from_sections in H.
  eapply Permutation_in; [|exact H]. apply Permutation_map, ordered_sections_perm.
Qed.

Lemma slice_infix a b (text : str) : exists t u, text = t ++ slice a b text ++ u.
Proof.
  exists (firstn a text), (skipn (b - a) (skipn a text)). unfold slice.
  now rewrite firstn_skipn, firstn_skipn.
Qed.

Lemma section_text_infix text r : exists t u, text = t ++ section_text text r ++ u.
Proof.
  unfold section_text.
  destruct (slice_infix (r_start r) (r_stop r) text) as [t [u E]].
  destruct (strip_infix (slice (r_start r) (r_stop r) text)) as [t' [u' E']].
  exists (t ++ t'), (u' ++ u). rewrite E at 1. rewrite E' at 1.
  now rewrite <- !app_assoc.
Qed.

(** A text that [extract_sections_from_pdf] may return for a section. *)
Definition section_of (text : str) (names : list string) (item : string * str)
  : Prop :=
  In (fst item) names /\
  snd item <> [] /\
  strip (snd item) = snd item /\
  exists t u, text = t ++ snd item ++ u.

Lemma keep_section_inv text names extracted r :
  In (r_section r) names ->
  NoDup (map fst extracted) /\ Forall (section_of text names) extracted ->
  NoDup (map fst (keep_section text extracted r)) /\
  Forall (section_of text names) (keep_section text extracted r).
Proof.
  intros Hr [ND HF]. unfold keep_section.
  destruct (section_text text r) as [|c t] eqn:E; [now split|]. split.
  - now apply assoc_set_NoDup.
  - apply assoc_set_Forall; [|assumption]. unfold section_of. cbn [fst snd].
    split; [assumption|]. split; [discriminate|]. split.
    + rewrite <- E. unfold section_text. apply strip_strip.
    + rewrite <- E. apply section_text_infix.
Qed.

Lemma keep_sections_inv text names : forall rs extracted,
  Forall (fun r => In (r_section r) names) rs ->
  NoDup (map fst extracted) /\ Forall (section_of text names) extracted ->
  NoDup (map fst (fold_left (keep_section text) rs extracted)) /\
  Forall (section_of text names) (fold_left (keep_section text) rs extracted).
Proof.
  induction rs as [|r rs IH]; intros extracted Hrs H; [exact H|].
  inversion Hrs as [|x l Hr Hl]; subst. cbn [fold_left].
  apply IH; [assumption|]. now apply keep_section_inv.
Qed.

Section Located.

Variable re_search : Flags -> str -> str -> SearchResult.

Lemma locate_names text : forall defs acc x,
  In x (map fst (fold_left (locate_step re_search text) defs acc)) ->
  In x (map fst acc) \/ In x (map fst defs).
Proof.
  induction defs as [|item defs IH]; intros acc x H; [now left|].
  cbn [fold_left] in H. apply IH in H. destruct H as [H|H].
  - unfold locate_step in H.
    destruct (locate_section re_search text (snd item)); [|now left].
    apply assoc_set_keys in H. destruct H as [->|H]; [right; now left | now left].
  - right. now right.
Qed.

Lemma extract_sections_from_pdf_inv pages defs :
  NoDup (map fst (extract_sections_from_pdf re_search pages defs)) /\
  Forall (section_of (clean_extracted_text (join [nl] pages)) (map fst defs))
         (extract_sections_from_pdf re_search pages defs).
Proof.
  unfold extract_sections_from_pdf. cbv zeta.
  set (text := clean_extracted_text (join [nl] pages)).
  destruct (locate re_search text defs) as [|s spans] eqn:E.
  - split; constructor.
  - rewrite <- E. unfold extract_from_spans. apply keep_sections_inv.
    + apply Forall_forall. intros r Hr.
      apply resolved_sections_located in Hr. unfold locate in Hr.
      apply locate_names in Hr. destruct Hr as [[]|Hr]. exact Hr.
    + split; constructor.
Qed.

End Located.

(** X5.  [extract_sections_from_pdf] returns texts for configured
    sections only, one for a section at most; no text is empty or
    begins or ends with whitespace, and each is a piece of the
    normalised text of the document. *)
Theorem extracted_sections_well_formed
    (re_search : Flags -> str -> str -> SearchResult)
    (pages : list str) (section_definitions : list (string * SectionConfig)) :
  NoDup (map fst (extract_sections_from_pdf re_search pages section_definitions)) /\
  Forall (fun item =>
            In (fst item) (map fst section_definitions) /\
            snd item <> [] /\
            strip (snd item) = snd item /\
            exists t u, clean_extracted_text (join [nl] pages) = t ++ snd item ++ u)
         (extract_sections_from_pdf re_search pages section_definitions).
Proof. exact (extract_sections_from_pdf_inv re_search pages section_definitions). Qed.

(** X4.  Whatever the input, the text that [clean_extracted_text]
    returns has no carriage return, no blank before a newline, no
    three newlines in a row, no two blanks in a row, and no whitespace
    at either end. *)
Theorem clean_extracted_text_normal_form (text : str) :
  Forall (fun c => is_cr c = false) (clean_extracted_text text) /\
  pair_free is_blank is_nl (clean_extracted_text text) = true /\
  nl3_free (clean_extracted_text text) = true /\
  pair_free is_blank is_blank (clean_extracted_text text) = true /\
  strip (clean_extracted_text text) = clean_extracted_text text.
Proof. exact (clean_extracted_text_normal text). Qed.

End ExtractionFacts.

(* ================================================================= *)
(** ** More on [merge_bundles] *)

Module MergeFacts.
Import Sync SyncExamples SyncFacts.

#[local] Arguments key_eqb : simpl never.
#[local] Arguments key_of : simpl never.
#[local] Arguments key_in : simpl never.

Lemma batch_values_absent k batch : forall d,
  dict_wf d -> ~ In k (map key_of batch) ->
  entries_at k (batch_values d batch) = [].
Proof.
  induction batch as [|n batch IH]; intros d Hd H; [reflexivity|].
  cbn [batch_values]. cbn [map] in H. rewrite entries_at_app.
  rewrite (entries_at_none k (key_of n)).
  - apply IH; [now apply store_after_wf | intros X; apply H; now right].
  - intros E. apply H. now left.
  - now apply per_entry_keys.
Qed.

(** A key that the batch does not list: the entry that the store
    holds for it comes back stale, and nothing else. *)
Lemma merge_bundles_absent k existing batch :
  ~ In k (map key_of batch) ->
  entries_at k (merge_bundles existing batch) =
  match last_opt (entries_at k existing) with
  | Some e => [set_stale e]
  | None => []
  end.
Proof.
  intros H. symmetry. apply perm_short_eq;
    [|destruct (last_opt (entries_at k existing)); simpl; lia].
  rewrite merge_bundles_values. cbv zeta.
  set (d := existing_lookup existing).
  assert (Hd : dict_wf d) by apply existing_lookup_wf.
  apply Permutation_sym.
  eapply perm_trans; [apply entries_at_perm, sort_entries_perm|].
  rewrite entries_at_app, (batch_values_absent _ _ _ Hd H).
  rewrite unseen_values_at;
    [| now apply batch_store_wf | rewrite batch_store_keys; apply Hd].
  rewrite key_in_keys_get.
  assert (Hseen : key_in k (rev (map key_of batch)) = false).
  { destruct (key_in_spec k (rev (map key_of batch))) as [Hin|]; auto.
    rewrite <- in_rev in Hin. contradiction. }
  rewrite Hseen, (batch_store_other _ _ _ H). unfold d.
  rewrite existing_lookup_last. cbn [app].
  destruct (last_opt (entries_at k existing)); apply Permutation_refl.
Qed.

(** *** The entry objects of the batch after the merge *)

Definition after_entry (d : Dict) (entry : Entry) : Entry :=
  match dict_get (key_of entry) d with
  | Some existing =>
      if String.eqb (extracted_text existing) (extracted_text entry)
      then refresh entry existing
      else entry
  | None => entry
  end.

Fixpoint batch_after (d : Dict) (batch : list Entry) : list Entry :=
  match batch with
  | [] => []
  | n :: batch' => after_entry d n :: batch_after (store_after d n) batch'
  end.

Lemma after_entry_in d n : In (after_entry d n) (per_entry d n).
Proof.
  unfold after_entry, per_entry. destruct (dict_get (key_of n) d) as [e|].
  - destruct (String.eqb _ _); simpl; auto.
  - now left.
Qed.

Lemma after_entry_same d n :
  key_of (after_entry d n) = key_of n /\
  extracted_text (after_entry d n) = extracted_text n.
Proof.
  unfold after_entry. destruct (dict_get (key_of n) d) as [e|]; [|now split].
  destruct (String.eqb _ _); now split.
Qed.

Lemma batch_after_in batch : forall d e,
  In e (batch_after d batch) -> In e (batch_values d batch).
Proof.
  induction batch as [|n batch IH]; intros d e H; [destruct H|].
  cbn [batch_after batch_values] in *. apply in_or_app.
  destruct H as [<-|H]; [left; apply after_entry_in | right; now apply IH].
Qed.

Lemma batch_after_same batch : forall d,
  Forall2 (fun n e => key_of e = key_of n /\ extracted_text e = extracted_text n)
          batch (batch_after d batch).
Proof.
  induction batch as [|n batch IH]; intros d; [constructor|].
  cbn [batch_after]. constructor; [apply after_entry_same | apply IH].
Qed.

Lemma merge_bundles_in existing batch e :
  In e (batch_values (existing_lookup existing) batch) ->
  In e (merge_bundles existing batch).
Proof.
  intros H. rewrite merge_bundles_values. cbv zeta.
  eapply Permutation_in; [apply Permutation_sym, sort_entries_perm|].
  apply in_or_app. now left.
Qed.

(** X6.  An entry of the bundle, the last one listed under its key,
    whose key the batch does not list comes back once, marked stale; the
    bundle returned has nothing else under that key. *)
Theorem merge_unlisted_key_marked_stale (existing batch : list Entry) (e : Entry) :
  ~ In (key_of e) (map key_of batch) ->
  last_opt (entries_at (key_of e) existing) = Some e ->
  entries_at (key_of e) (merge_bundles existing batch) = [set_stale e].
Proof.
  intros H Hlast. rewrite (merge_bundles_absent _ _ _ H). now rewrite Hlast.
Qed.

Lemma merge_unlisted_key_marked_stale_witness :
  ~ In (key_of run1_entry) (map key_of [kenya_entry]) /\
  last_opt (entries_at (key_of run1_entry) [run1_entry]) = Some run1_entry /\
  entries_at (key_of run1_entry) (merge_bundles [run1_entry] [kenya_entry]) =
  [set_stale run1_entry].
Proof.
  assert (H : ~ In (key_of run1_entry) (map key_of [kenya_entry])).
  { simpl. intros [E|[]]. discriminate E. }
  assert (Hlast : last_opt (entries_at (key_of run1_entry) [run1_entry])
                  = Some run1_entry) by reflexivity.
  split; [exact H|]. split; [exact Hlast|].
  exact (merge_unlisted_key_marked_stale [run1_entry] [kenya_entry] run1_entry
           H Hlast).
Defined.

(** X7.  With pairwise distinct keys in the batch, the entry that the
    bundle lists last under its key is still in the bundle returned,
    as it was or marked stale. *)
Theorem merge_keeps_last_listed (existing batch : list Entry) (e : Entry) :
  NoDup (map key_of batch) ->
  last_opt (entries_at (key_of e) existing) = Some e ->
  retained e (merge_bundles existing batch).
Proof. intros Hnd Hlast. now apply merge_bundles_retains_last. Qed.

Lemma merge_keeps_last_listed_witness :
  NoDup (map key_of [run2_entry; kenya_entry]) /\
  last_opt (entries_at (key_of run1_entry) [run1_entry]) = Some run1_entry /\
  retained run1_entry (merge_bundles [run1_entry] [run2_entry; kenya_entry]).
Proof.
  assert (H : NoDup (map key_of [run2_entry; kenya_entry])).
  { repeat constructor; simpl; intuition discriminate. }
  assert (Hlast : last_opt (entries_at (key_of run1_entry) [run1_entry])
                  = Some run1_entry) by reflexivity.
  split; [exact H|]. split; [exact Hlast|].
  exact (merge_keeps_last_listed [run1_entry] [run2_entry; kenya_entry] run1_entry
           H Hlast).
Defined.

(** X8.  With pairwise distinct keys in the batch, an incoming entry
    whose text differs from the text of the entry that the bundle
    lists last under its key leaves exactly two entries under that
    key: that entry marked stale, and the incoming entry as it came. *)
Theorem merge_changed_text_two_entries
    (existing batch : list Entry) (n e : Entry) :
  NoDup (map key_of batch) -> In n batch ->
  last_opt (entries_at (key_of n) existing) = Some e ->
  extracted_text e <> extracted_text n ->
  Permutation (entries_at (key_of n) (merge_bundles existing batch))
              [set_stale e; n].
Proof. intros Hnd Hin Hlast Ht. now apply merge_changed_text_when_last. Qed.

Lemma merge_changed_text_two_entries_witness :
  NoDup (map key_of [run2_entry; kenya_entry]) /\
  In run2_entry [run2_entry; kenya_entry] /\
  last_opt (entries_at (key_of run2_entry) [run1_entry]) = Some run1_entry /\
  extracted_text run1_entry <> extracted_text run2_entry /\
  Permutation
    (entries_at (key_of run2_entry)
       (merge_bundles [run1_entry] [run2_entry; kenya_entry]))
    [set_stale run1_entry; run2_entry].
Proof.
  assert (H : NoDup (map key_of [run2_entry; kenya_entry])).
  { repeat constructor; simpl; intuition discriminate. }
  assert (Hin : In run2_entry [run2_entry; kenya_entry]) by (now left).
  assert (Hlast : last_opt (entries_at (key_of run2_entry) [run1_entry])
                  = Some run1_entry) by reflexivity.
  assert (Ht : extracted_text run1_entry <> extracted_text run2_entry)
    by discriminate.
  split; [exact H|]. split; [exact Hin|]. split; [exact Hlast|]. split; [exact Ht|].
  exact (merge_changed_text_two_entries [run1_entry] [run2_entry; kenya_entry]
           run2_entry run1_entry H Hin Hlast Ht).
Defined.

(** X9.  With pairwise distinct keys in the batch, an incoming entry
    with the text of the entry that the bundle lists last under its
    key leaves that entry alone under the key, with its [created_utc]
    and [stale] as they were. *)
Theorem merge_same_text_keeps_entry
    (existing batch : list Entry) (n e : Entry) :
  NoDup (map key_of batch) -> In n batch ->
  last_opt (entries_at (key_of n) existing) = Some e ->
  extracted_text e = extracted_text n ->
  entries_at (key_of n) (merge_bundles existing batch) = [e].
Proof. intros Hnd Hin Hlast Ht. now apply merge_same_text_untouched. Qed.

Lemma merge_same_text_keeps_entry_witness :
  NoDup (map key_of [run3_entry; kenya_entry]) /\
  In run3_entry [run3_entry; kenya_entry] /\
  last_opt (entries_at (key_of run3_entry) bundle_after_run2) = Some run2_entry /\
  extracted_text run2_entry = extracted_text run3_entry /\
  entries_at (key_of run3_entry)
    (merge_bundles bundle_after_run2 [run3_entry; kenya_entry]) = [run2_entry].
Proof.
  assert (H : NoDup (map key_of [run3_entry; kenya_entry])).
  { repeat constructor; simpl; intuition discriminate. }
  assert (Hin : In run3_entry [run3_entry; kenya_entry]) by (now left).
  assert (Hlast : last_opt (entries_at (key_of run3_entry) bundle_after_run2)
                  = Some run2_entry) by reflexivity.
  assert (Ht : extracted_text run2_entry = extracted_text run3_entry)
    by reflexivity.
  split; [exact H|]. split; [exact Hin|]. split; [exact Hlast|]. split; [exact Ht|].
  exact (merge_same_text_keeps_entry bundle_after_run2 [run3_entry; kenya_entry]
           run3_entry run2_entry H Hin Hlast Ht).
Defined.

End MergeFacts.

(* ================================================================= *)
(** ** [slugify] *)

Module SlugFacts.
Import Text Locator Keywords Slug TextFacts.

(** The two substitutions as plain recursions. *)
Definition other (c : ascii) : bool := negb (is_slug_char c).

Fixpoint squash (s : str) : str :=
  match s with
  | [] => []
  | c :: s' =>
      if other c
      then if starts_with other s' then squash s' else underscore :: squash s'
      else c :: squash s'
  end.

Lemma squash_run c s :
  other c = true ->
  squash (c :: s) = underscore :: squash (skipn (span_len other s) s).
Proof.
  revert c. induction s as [|d s IH]; intros c Hc.
  - simpl. now rewrite Hc.
  - cbn [squash starts_with span_len]. rewrite Hc.
    destruct (other d) eqn:Hd.
    + cbn [skipn]. rewrite <- (IH d Hd). cbn [squash]. now rewrite Hd.
    + cbn [skipn]. cbn [squash]. now rewrite Hd.
Qed.

Lemma other_run_cons c s :
  other_run (c :: s) = if other c then S (span_len other s) else 0.
Proof. reflexivity. Qed.

Lemma sub_other_run_eq s :
  re_sub other_run [underscore] 0 s = squash s.
Proof.
  remember (List.length s) as n eqn:Hn. revert s Hn.
  induction n as [n IH] using lt_wf_ind. intros s Hn.
  destruct s as [|c s]; [reflexivity|].
  rewrite re_sub_cons, other_run_cons.
  destruct (other c) eqn:Hc.
  - rewrite (squash_run _ _ Hc). cbn [app]. f_equal.
    eapply IH; [|reflexivity].
    simpl in Hn. pose proof (skipn_length_le (span_len other s) s). lia.
  - cbn [squash]. rewrite Hc. f_equal. eapply IH; [|reflexivity]. simpl in Hn. lia.
Qed.

Definition slug_alphabet (c : ascii) : Prop :=
  is_slug_char c = true \/ c = underscore.

Lemma underscore_other : other underscore = true.
Proof. reflexivity. Qed.

Lemma is_underscore_eq c : is_underscore c = true -> c = underscore.
Proof. unfold is_underscore. intros H. now apply Ascii.eqb_eq. Qed.

Lemma squash_alphabet s : Forall slug_alphabet (squash s).
Proof.
  induction s as [|c s IH]; simpl; [constructor|].
  destruct (other c) eqn:Hc.
  - destruct (starts_with other s); [assumption|].
    constructor; [now right | assumption].
  - constructor; [|assumption]. left. unfold other in Hc.
    now destruct (is_slug_char c).
Qed.

Lemma squash_head s :
  starts_with other s = false -> starts_with is_underscore (squash s) = false.
Proof.
  destruct s as [|c s]; simpl; [reflexivity|]. intros Hc. rewrite Hc. simpl.
  destruct (is_underscore c) eqn:E; [|reflexivity].
  apply is_underscore_eq in E. subst c. discriminate.
Qed.

Lemma squash_free s : pair_free is_underscore is_underscore (squash s) = true.
Proof.
  induction s as [|c s IH]; [reflexivity|]. cbn [squash].
  destruct (other c) eqn:Hc.
  - destruct (starts_with other s) eqn:Hs; [assumption|].
    cbn [pair_free]. rewrite IH, (squash_head _ Hs).
    now destruct (is_underscore underscore).
  - cbn [pair_free]. rewrite IH.
    destruct (is_underscore c) eqn:E; [|reflexivity].
    apply is_underscore_eq in E. subst c. discriminate.
Qed.

Lemma underscores2_free s :
  pair_free is_underscore is_underscore s = true ->
  re_sub underscores2 [underscore] 0 s = s.
Proof.
  induction s as [|c s IH]; [reflexivity|]. intros H.
  rewrite re_sub_cons. unfold underscores2. rewrite span2_starts_with2.
  cbn [pair_free] in H. apply andb_true_iff in H. destruct H as [H1 H2].
  assert (E : starts_with2 is_underscore (c :: s) = false).
  { destruct s as [|d s]; simpl; [reflexivity|].
    simpl in H1. now apply negb_true_iff in H1. }
  rewrite E. f_equal. now apply IH.
Qed.

(** [strip_of] *)
Lemma lstrip_of_suffix p s : exists t, s = t ++ lstrip_of p s.
Proof.
  induction s as [|c s [t IH]]; [now exists []|]. simpl.
  destruct (p c).
  - exists (c :: t). simpl. now f_equal.
  - now exists [].
Qed.

Lemma rstrip_of_prefix p s : exists t, s = rstrip_of p s ++ t.
Proof.
  unfold rstrip_of. destruct (lstrip_of_suffix p (rev s)) as [t E].
  exists (rev t). rewrite <- rev_app_distr, <- E. now rewrite rev_involutive.
Qed.

Lemma strip_of_infix p s : exists t u, s = t ++ strip_of p s ++ u.
Proof.
  unfold strip_of. destruct (lstrip_of_suffix p s) as [t E].
  destruct (rstrip_of_prefix p (lstrip_of p s)) as [u E'].
  exists t, u. now rewrite <- E', <- E.
Qed.

Lemma lstrip_of_fixed p s : starts_with p s = false -> lstrip_of p s = s.
Proof. destruct s as [|c s]; simpl; auto. now intros ->. Qed.

Lemma lstrip_of_head p s : starts_with p (lstrip_of p s) = false.
Proof.
  induction s as [|c s IH]; [reflexivity|]. simpl.
  destruct (p c) eqn:E; [assumption|]. simpl. exact E.
Qed.

Lemma rstrip_of_last p s : starts_with p (rev (rstrip_of p s)) = false.
Proof. unfold rstrip_of. rewrite rev_involutive. apply lstrip_of_head. Qed.

Lemma rstrip_of_fixed p s : starts_with p (rev s) = false -> rstrip_of p s = s.
Proof.
  intros H. unfold rstrip_of. rewrite (lstrip_of_fixed _ _ H). apply rev_involutive.
Qed.

Lemma rstrip_of_head p s :
  starts_with p s = false -> starts_with p (rstrip_of p s) = false.
Proof.
  intros H. destruct (rstrip_of_prefix p s) as [t E].
  destruct (rstrip_of p s) as [|c r] eqn:R; [reflexivity|].
  rewrite E in H. exact H.
Qed.

Lemma Forall_infix {A : Type} (P : A -> Prop) t s u :
  Forall P (t ++ s ++ u) -> Forall P s.
Proof.
  intros H. apply Forall_app in H. destruct H as [_ H].
  apply Forall_app in H. now destruct H.
Qed.

(** What a slug looks like. *)
Definition slug (s : str) : Prop :=
  Forall slug_alphabet s /\
  pair_free is_underscore is_underscore s = true /\
  starts_with is_underscore s = false /\
  starts_with is_underscore (rev s) = false.

Lemma slugify_slug value : slug (slugify value).
Proof.
  unfold slugify. cbv zeta. rewrite sub_other_run_eq.
  set (t := squash (lower (strip value))).
  rewrite (underscores2_free t) by apply squash_free.
  destruct (strip_of_infix is_underscore t) as [a [b E]].
  pose proof (squash_alphabet (lower (strip value))) as HA. fold t in HA.
  pose proof (squash_free (lower (strip value))) as HF. fold t in HF.
  repeat split.
  - rewrite E in HA. now apply Forall_infix in HA.
  - rewrite E in HF. apply pair_free_suffix in HF. now apply pair_free_prefix in HF.
  - unfold strip_of. apply rstrip_of_head, lstrip_of_head.
  - unfold strip_of. apply rstrip_of_last.
Qed.

Lemma alphabet_not_space c : slug_alphabet c -> is_space c = false.
Proof.
  intros [H| ->]; [|reflexivity]. revert H.
  destruct c as [[] [] [] [] [] [] [] []]; vm_compute; congruence.
Qed.

Lemma alphabet_lower c : slug_alphabet c -> to_lower c = c.
Proof.
  intros [H| ->]; [|reflexivity]. revert H.
  destruct c as [[] [] [] [] [] [] [] []]; vm_compute; congruence.
Qed.

Lemma alphabet_other c : slug_alphabet c -> other c = true -> c = underscore.
Proof.
  intros [H| ->]; [|reflexivity]. unfold other. now rewrite H.
Qed.

Lemma slug_strip s : slug s -> strip s = s.
Proof.
  intros [HA [_ [H1 H2]]]. unfold strip.
  assert (L : lstrip s = s).
  { apply lstrip_fixed. destruct s as [|c s]; [reflexivity|]. simpl.
    apply alphabet_not_space. now inversion HA. }
  rewrite L. unfold rstrip.
  assert (R : lstrip (rev s) = rev s).
  { apply lstrip_fixed. destruct (rev s) as [|c r] eqn:E; [reflexivity|]. simpl.
    apply alphabet_not_space.
    assert (HR : Forall slug_alphabet (rev s)) by now apply Forall_rev.
    rewrite E in HR. now inversion HR. }
  rewrite R. apply rev_involutive.
Qed.

Lemma slug_lower s : Forall slug_alphabet s -> lower s = s.
Proof.
  induction 1 as [|c s Hc _ IH]; [reflexivity|]. unfold lower in *. simpl.
  now rewrite (alphabet_lower _ Hc), IH.
Qed.

Lemma slug_squash s :
  Forall slug_alphabet s -> pair_free is_underscore is_underscore s = true ->
  squash s = s.
Proof.
  induction 1 as [|c s Hc HA IH]; [reflexivity|]. intros HF.
  cbn [pair_free] in HF. apply andb_true_iff in HF. destruct HF as [H1 H2].
  cbn [squash]. rewrite (IH H2).
  destruct (other c) eqn:Oc; [|reflexivity].
  pose proof (alphabet_other _ Hc Oc) as ->.
  destruct s as [|d s]; [reflexivity|]. cbn [starts_with].
  destruct (other d) eqn:Od; [|reflexivity].
  assert (d = underscore) as ->.
  { apply alphabet_other; [now inversion HA | assumption]. }
  discriminate.
Qed.

Lemma slug_fixed s : slug s -> slugify s = s.
Proof.
  intros Hs. pose proof Hs as [HA [HF [H1 H2]]].
  unfold slugify. cbv zeta.
  rewrite (slug_strip _ Hs), (slug_lower _ HA), sub_other_run_eq,
    (slug_squash _ HA HF), (underscores2_free _ HF).
  unfold strip_of. rewrite (lstrip_of_fixed _ _ H1). now apply rstrip_of_fixed.
Qed.

(** X1.  A slug is made of small letters, digits and single underscores,
    and neither begins nor ends with an underscore. *)
Theorem slugify_shape (value : str) :
  Forall (fun c => is_slug_char c = true \/ c = underscore) (slugify value) /\
  pair_free is_underscore is_underscore (slugify value) = true /\
  starts_with is_underscore (slugify value) = false /\
  starts_with is_underscore (rev (slugify value)) = false.
Proof. exact (slugify_slug value). Qed.

(** X2.  [slugify] is idempotent. *)
Theorem slugify_idempotent (value : str) :
  slugify (slugify value) = slugify value.
Proof. apply slug_fixed, slugify_slug. Qed.

(** X3.  The second substitution of [slugify] never finds a run of two
    underscores: the first one leaves none. *)
Theorem slugify_second_pass_idle (value : str) :
  let value1 := re_sub other_run [underscore] 0 (lower (strip value)) in
  re_sub underscores2 [underscore] 0 value1 = value1.
Proof.
  cbv zeta. apply underscores2_free. rewrite sub_other_run_eq. apply squash_free.
Qed.

End SlugFacts.

(* ================================================================= *)
(** ** [main] and [write_section_outputs] *)

Module PipelineFacts.
Import Text Locator Pipeline DictFacts.

(** *** The links *)

Definition keyed (k : string) (link : PDFLink) : bool := String.eqb (link_key link) k.

Lemma dedupe_loop_in links : forall seen l,
  In l (dedupe_loop seen links) ->
  In l links /\ existsb (String.eqb (link_key l)) seen = false.
Proof.
  induction links as [|x links IH]; intros seen l H; [destruct H|].
  cbn [dedupe_loop] in H. cbv zeta in H.
  destruct (existsb (String.eqb (link_key x)) seen) eqn:E.
  - apply IH in H. destruct H as [H1 H2]. split; [now right | assumption].
  - destruct H as [<-|H]; [split; [now left | assumption]|].
    apply IH in H. destruct H as [H1 H2]. split; [now right|].
    cbn [existsb] in H2. apply orb_false_iff in H2. tauto.
Qed.

Lemma dedupe_loop_NoDup links : forall seen,
  NoDup (map link_key (dedupe_loop seen links)).
Proof.
  induction links as [|x links IH]; intros seen; [constructor|].
  cbn [dedupe_loop]. cbv zeta.
  destruct (existsb (String.eqb (link_key x)) seen); [apply IH|].
  cbn [map]. constructor; [|apply IH].
  intros H. apply in_map_iff in H. destruct H as [l [Hk Hl]].
  apply dedupe_loop_in in Hl. destruct Hl as [_ Hl].
  cbn [existsb] in Hl. rewrite Hk, String.eqb_refl in Hl. discriminate.
Qed.

Lemma dedupe_loop_find k links : forall seen,
  find (keyed k) (dedupe_loop seen links) =
  if existsb (String.eqb k) seen then None else find (keyed k) links.
Proof.
  induction links as [|x links IH]; intros seen.
  - simpl. now destruct (existsb (String.eqb k) seen).
  - cbn [dedupe_loop]. cbv zeta.
    destruct (existsb (String.eqb (link_key x)) seen) eqn:E.
    + rewrite IH. destruct (existsb (String.eqb k) seen) eqn:F; [reflexivity|].
      cbn [find]. unfold keyed at 2.
      destruct (String.eqb_spec (link_key x) k) as [Hk|Hne]; [|reflexivity].
      rewrite Hk in E. congruence.
    + cbn [find]. unfold keyed at 1 3.
      destruct (String.eqb_spec (link_key x) k) as [Hk|Hne].
      * rewrite <- Hk, E. reflexivity.
      * rewrite IH. cbn [existsb].
        destruct (String.eqb_spec k (link_key x)) as [Hk|_]; [congruence|].
        reflexivity.
Qed.

Lemma link_key_url l : url l <> EmptyString -> link_key l = url l.
Proof. unfold link_key. destruct (url l); [congruence | reflexivity]. Qed.

Lemma deduped_urls links :
  Forall (fun l => url l <> EmptyString) links ->
  NoDup (map url (deduped links)).
Proof.
  intros H. rewrite <- (map_ext_in link_key url).
  - apply dedupe_loop_NoDup.
  - intros l Hl. apply link_key_url. apply dedupe_loop_in in Hl.
    rewrite Forall_forall in H. now apply H.
Qed.

(** *** The entry objects after the merge *)

Lemma merge_step_incoming st n :
  flat_map incoming (Sync.updated_entries (Sync.merge_step st n)) =
  flat_map incoming (Sync.updated_entries st) ++
  [MergeFacts.after_entry (Sync.lookup st) n] /\
  Sync.lookup (Sync.merge_step st n) = SyncFacts.store_after (Sync.lookup st) n.
Proof.
  unfold Sync.merge_step, MergeFacts.after_entry, SyncFacts.store_after.
  cbv zeta.
  destruct (Sync.dict_get (Sync.key_of n) (Sync.lookup st)) as [e|].
  - destruct (String.eqb _ _); cbn [Sync.updated_entries Sync.lookup];
      rewrite flat_map_app; split; reflexivity.
  - cbn [Sync.updated_entries Sync.lookup]. rewrite flat_map_app. now split.
Qed.

Lemma merge_loop_incoming batch : forall st,
  flat_map incoming (Sync.updated_entries (fold_left Sync.merge_step batch st)) =
  flat_map incoming (Sync.updated_entries st) ++
  MergeFacts.batch_after (Sync.lookup st) batch.
Proof.
  induction batch as [|n batch IH]; intros st.
  - simpl. now rewrite app_nil_r.
  - cbn [fold_left MergeFacts.batch_after]. rewrite IH.
    destruct (merge_step_incoming st n) as [H1 H2]. rewrite H1, H2.
    now rewrite <- app_assoc.
Qed.

Lemma entries_after_merge_eq existing batch :
  entries_after_merge existing batch =
  MergeFacts.batch_after (Sync.existing_lookup existing) batch.
Proof. unfold entries_after_merge. cbv zeta. now rewrite merge_loop_incoming. Qed.

(** *** The per-document groups *)

Definition from_doc (d : string) (e : Sync.Entry) : bool :=
  String.eqb (Sync.source_doc e) d.

Lemma group_step_get docs e d :
  assoc_get d (group_step docs e) =
  if from_doc d e
  then Some (match assoc_get d docs with Some l => l | None => [] end ++ [e])
  else assoc_get d docs.
Proof.
  unfold group_step, from_doc.
  destruct (String.eqb_spec (Sync.source_doc e) d) as [<-|Hne].
  - destruct (assoc_get (Sync.source_doc e) docs);
      now rewrite KeywordsFacts.assoc_get_set_same.
  - destruct (assoc_get (Sync.source_doc e) docs);
      rewrite KeywordsFacts.assoc_get_set_other; congruence.
Qed.

Lemma group_loop_get d : forall entries docs,
  assoc_get d (fold_left group_step entries docs) =
  match filter (from_doc d) entries with
  | [] => assoc_get d docs
  | l => Some (match assoc_get d docs with Some l0 => l0 | None => [] end ++ l)
  end.
Proof.
  induction entries as [|e entries IH]; intros docs; [reflexivity|].
  cbn [fold_left filter]. rewrite IH, group_step_get.
  destruct (from_doc d e).
  - destruct (filter (from_doc d) entries); [reflexivity|].
    now rewrite <- app_assoc.
  - reflexivity.
Qed.

Lemma group_by_doc_get entries d :
  assoc_get d (group_by_doc entries) =
  match filter (from_doc d) entries with
  | [] => None
  | l => Some l
  end.
Proof.
  unfold group_by_doc. rewrite group_loop_get. cbn [assoc_get].
  now destruct (filter (from_doc d) entries).
Qed.

Lemma group_step_NoDup docs e :
  NoDup (map fst docs) -> NoDup (map fst (group_step docs e)).
Proof.
  intros H. unfold group_step.
  destruct (assoc_get (Sync.source_doc e) docs); now apply assoc_set_NoDup.
Qed.

Lemma group_by_doc_NoDup entries : NoDup (map fst (group_by_doc entries)).
Proof.
  unfold group_by_doc.
  assert (G : forall docs, NoDup (map fst docs) ->
                NoDup (map fst (fold_left group_step entries docs))).
  { induction entries as [|e entries IH]; intros docs H; [assumption|].
    cbn [fold_left]. apply IH. now apply group_step_NoDup. }
  apply G. constructor.
Qed.

Lemma group_by_doc_in entries d l :
  In (d, l) (group_by_doc entries) -> l = filter (from_doc d) entries /\ l <> [].
Proof.
  intros H. apply (In_assoc_get _ _ _ (group_by_doc_NoDup entries)) in H.
  rewrite group_by_doc_get in H.
  destruct (filter (from_doc d) entries); [discriminate|].
  injection H as <-. split; [reflexivity | discriminate].
Qed.

(** X14.  Every entry that [write_section_outputs] writes to a
    per-document file is an entry of the bundle that the same call
    writes, with the [created_utc] and [stale] it has there. *)
Theorem document_files_within_bundle
    (existing entries : list Sync.Entry) (file : str)
    (doc_entries : list Sync.Entry) (e : Sync.Entry) :
  In (file, doc_entries) (snd (write_section_outputs existing entries)) ->
  In e doc_entries ->
  In e (fst (write_section_outputs existing entries)).
Proof.
  unfold write_section_outputs. cbv zeta. cbn [fst snd]. intros H He.
  apply in_map_iff in H. destruct H as [[d l] [E H]]. cbn [fst snd] in E.
  injection E as _ ->. apply group_by_doc_in in H. destruct H as [-> _].
  apply filter_In in He. destruct He as [He _].
  rewrite entries_after_merge_eq in He.
  apply MergeFacts.merge_bundles_in. now apply MergeFacts.batch_after_in.
Qed.

Lemma document_files_within_bundle_witness :
  In (of_string "bur1.json", [SyncExamples.run2_entry])
     (snd (write_section_outputs SyncExamples.bundle_after_run2
             [SyncExamples.run3_entry])) /\
  In SyncExamples.run2_entry [SyncExamples.run2_entry] /\
  In SyncExamples.run2_entry
     (fst (write_section_outputs SyncExamples.bundle_after_run2
             [SyncExamples.run3_entry])).
Proof.
  assert (H : In (of_string "bur1.json", [SyncExamples.run2_entry])
                (snd (write_section_outputs SyncExamples.bundle_after_run2
                        [SyncExamples.run3_entry])))
    by (vm_compute; now left).
  assert (He : In SyncExamples.run2_entry [SyncExamples.run2_entry]) by (now left).
  split; [exact H|]. split; [exact He|].
  exact (document_files_within_bundle SyncExamples.bundle_after_run2
           [SyncExamples.run3_entry] (of_string "bur1.json")
           [SyncExamples.run2_entry] SyncExamples.run2_entry H He).
Defined.

(** X15.  Every entry of the batch is written to the file named after
    its source document, under its key and with its text. *)
Theorem batch_entry_in_document_file
    (existing entries : list Sync.Entry) (n : Sync.Entry) :
  In n entries ->
  exists doc_entries e,
    In (doc_name (Sync.source_doc n), doc_entries)
       (snd (write_section_outputs existing entries)) /\
    In e doc_entries /\
    Sync.key_of e = Sync.key_of n /\
    Sync.extracted_text e = Sync.extracted_text n.
Proof.
  intros Hn. unfold write_section_outputs. cbv zeta. cbn [snd].
  rewrite entries_after_merge_eq.
  pose proof (MergeFacts.batch_after_same entries (Sync.existing_lookup existing)) as F.
  assert (X : exists e, In e (MergeFacts.batch_after (Sync.existing_lookup existing)
                                entries) /\
                        Sync.key_of e = Sync.key_of n /\
                        Sync.extracted_text e = Sync.extracted_text n).
  { clear -Hn F. induction F as [|x y l l' Hxy _ IH]; [destruct Hn|].
    destruct Hn as [->|Hn].
    - exists y. split; [now left | exact Hxy].
    - destruct (IH Hn) as [e [H1 H2]]. exists e. split; [now right | exact H2]. }
  destruct X as [e [He [Hk Ht]]].
  set (after := MergeFacts.batch_after (Sync.existing_lookup existing) entries) in *.
  assert (Hd : Sync.source_doc e = Sync.source_doc n).
  { unfold Sync.key_of in Hk. congruence. }
  exists (filter (from_doc (Sync.source_doc n)) after), e.
  split; [|split; [|split; assumption]].
  - apply in_map_iff. exists (Sync.source_doc n, filter (from_doc (Sync.source_doc n)) after).
    split; [reflexivity|]. apply assoc_get_In. rewrite group_by_doc_get.
    assert (Y : In e (filter (from_doc (Sync.source_doc n)) after)).
    { apply filter_In. split; [assumption|]. unfold from_doc. rewrite Hd.
      apply String.eqb_refl. }
    destruct (filter (from_doc (Sync.source_doc n)) after); [destruct Y | reflexivity].
  - apply filter_In. split; [assumption|]. unfold from_doc. rewrite Hd.
    apply String.eqb_refl.
Qed.

Lemma batch_entry_in_document_file_witness :
  In SyncExamples.run3_entry [SyncExamples.run3_entry] /\
  exists doc_entries e,
    In (doc_name (Sync.source_doc SyncExamples.run3_entry), doc_entries)
       (snd (write_section_outputs SyncExamples.bundle_after_run2
               [SyncExamples.run3_entry])) /\
    In e doc_entries /\
    Sync.key_of e = Sync.key_of SyncExamples.run3_entry /\
    Sync.extracted_text e = Sync.extracted_text SyncExamples.run3_entry.
Proof.
  assert (H : In SyncExamples.run3_entry [SyncExamples.run3_entry]) by (now left).
  split; [exact H|].
  exact (batch_entry_in_document_file SyncExamples.bundle_after_run2
           [SyncExamples.run3_entry] SyncExamples.run3_entry H).
Defined.

(** X10.  Of the links with one key, the URL or else the local path,
    [main] keeps the first; the links kept have pairwise distinct
    keys. *)
Theorem deduped_keeps_first_of_each_key (pdf_links : list PDFLink) :
  NoDup (map link_key (deduped pdf_links)) /\
  forall key,
    find (fun link => String.eqb (link_key link) key) (deduped pdf_links) =
    find (fun link => String.eqb (link_key link) key) pdf_links.
Proof.
  split; [apply dedupe_loop_NoDup|]. intros key.
  exact (dedupe_loop_find key pdf_links []).
Qed.

(** *** The batches *)

Lemma append_to_spec n e : forall c es,
  assoc_get n c = Some es ->
  exists c', append_to n e c = Some c' /\
             map fst c' = map fst c /\
             forall m, assoc_get m c' =
                       if String.eqb m n then Some (es ++ [e]) else assoc_get m c.
Proof.
  induction c as [|[k v] c IH]; intros es H; [discriminate|].
  cbn [assoc_get append_to] in *.
  destruct (String.eqb_spec n k) as [->|Hne].
  - injection H as ->. exists ((k, es ++ [e]) :: c).
    split; [reflexivity|]. split; [reflexivity|].
    intros m. cbn [assoc_get]. now destruct (String.eqb m k).
  - destruct (IH _ H) as [c' [H1 [H2 H3]]]. rewrite H1. cbn [option_map].
    exists ((k, v) :: c'). split; [reflexivity|]. split; [cbn [map]; now rewrite H2|].
    intros m. cbn [assoc_get]. rewrite H3.
    destruct (String.eqb_spec m k) as [->|Hmk]; [|reflexivity].
    destruct (String.eqb_spec k n) as [->|_]; [congruence | reflexivity].
Qed.

Lemma fold_left_keys {A V : Type} (f : A -> V) (l : list (string * A)) : forall d,
  fold_left (fun d item => assoc_set (fst item) (f (snd item)) d) l d =
  fold_left (fun d k => assoc_set (fst k) (f (snd k)) d) l d.
Proof. reflexivity. Qed.

Section RunFacts.

Variable re_search : Flags -> str -> str -> SearchResult.
Variable pages_of : PDFLink -> list str.
Variable defs : list (string * SectionConfig).
Variable bundle_of : string -> list Sync.Entry.
Variables country created : string.

(** The entry that a link gives for a section, and the batch of a
    section. *)
Definition entry_of (section_name : string) (pdf : PDFLink) : list Sync.Entry :=
  match assoc_get section_name
          (extract_sections_from_pdf re_search (pages_of pdf) defs) with
  | Some text =>
      [build_json_entry country section_name (source_doc pdf) (url pdf) text created]
  | None => []
  end.

Definition batch_of (section_name : string) (pdf_links : list PDFLink)
  : list Sync.Entry :=
  flat_map (entry_of section_name) pdf_links.

Definition item_entry (pdf : PDFLink) (items : list (string * str)) (m : string)
  : list Sync.Entry :=
  match assoc_get m items with
  | Some text => [build_json_entry country m (source_doc pdf) (url pdf) text created]
  | None => []
  end.

Lemma collect_sections_spec pdf : forall items c,
  NoDup (map fst items) ->
  (forall k, In k (map fst items) -> assoc_get k c <> None) ->
  exists c', fold_left (collect_section country created pdf) items (Some c) = Some c' /\
             map fst c' = map fst c /\
             forall m, assoc_get m c' =
                       match assoc_get m c with
                       | Some es => Some (es ++ item_entry pdf items m)
                       | None => None
                       end.
Proof.
  induction items as [|[k t] items IH]; intros c ND Hk.
  - exists c. split; [reflexivity|]. split; [reflexivity|]. intros m.
    unfold item_entry. cbn [assoc_get]. destruct (assoc_get m c); [|reflexivity].
    now rewrite app_nil_r.
  - cbn [map fst] in ND. inversion ND as [|x l Hx Hl]; subst.
    cbn [fold_left]. unfold collect_section at 2. cbn [fst snd].
    destruct (assoc_get k c) as [es0|] eqn:G;
      [|exfalso; apply (Hk k); [now left | assumption]].
    destruct (append_to_spec k
                (build_json_entry country k (source_doc pdf) (url pdf) t created)
                c es0 G) as [c1 [H1 [H2 H3]]].
    rewrite H1.
    destruct (IH c1 Hl) as [c' [I1 [I2 I3]]].
    { intros k' Hk'. rewrite H3. destruct (String.eqb k' k); [discriminate|].
      apply Hk. now right. }
    exists c'. split; [exact I1|]. split; [congruence|].
    intros m. rewrite I3, H3. unfold item_entry. cbn [assoc_get].
    destruct (String.eqb_spec m k) as [->|Hne].
    + rewrite G, (assoc_get_not_key _ _ Hx). now rewrite app_nil_r.
    + reflexivity.
Qed.

Lemma collect_loop_spec : forall pdf_links c,
  (forall k, In k (map fst defs) -> assoc_get k c <> None) ->
  exists c', fold_left (collect_pdf re_search pages_of defs country created)
               pdf_links (Some c) = Some c' /\
             map fst c' = map fst c /\
             forall m, assoc_get m c' =
                       match assoc_get m c with
                       | Some es => Some (es ++ batch_of m pdf_links)
                       | None => None
                       end.
Proof.
  induction pdf_links as [|pdf pdf_links IH]; intros c Hk.
  - exists c. split; [reflexivity|]. split; [reflexivity|]. intros m.
    destruct (assoc_get m c); [|reflexivity]. cbn. now rewrite app_nil_r.
  - cbn [fold_left]. unfold collect_pdf at 2.
    destruct (ExtractionFacts.extract_sections_from_pdf_inv re_search (pages_of pdf) defs)
      as [ND HF].
    destruct (collect_sections_spec pdf _ c ND) as [c1 [H1 [H2 H3]]].
    { intros k Hin. apply Hk. apply in_map_iff in Hin.
      destruct Hin as [item [<- Hin]]. rewrite Forall_forall in HF.
      now destruct (HF _ Hin). }
    rewrite H1.
    destruct (IH c1) as [c' [I1 [I2 I3]]].
    { intros k Hin. rewrite H3. specialize (Hk k Hin).
      destruct (assoc_get k c); [discriminate | congruence]. }
    exists c'. split; [exact I1|]. split; [congruence|].
    intros m. rewrite I3, H3. destruct (assoc_get m c); [|reflexivity].
    unfold batch_of. cbn [flat_map]. unfold entry_of at 2, item_entry.
    now rewrite <- app_assoc.
Qed.

Lemma no_entries_get m :
  assoc_get m (no_entries defs) =
  if in_dec string_dec m (map fst defs) then Some [] else None.
Proof.
  unfold no_entries.
  assert (E : forall l d,
            fold_left (fun d (item : string * SectionConfig) =>
                         assoc_set (fst item) (@nil Sync.Entry) d) l d =
            fold_left (fun d k => assoc_set k (@nil Sync.Entry) d) (map fst l) d).
  { induction l as [|x l IH]; intros d; [reflexivity|]. cbn [fold_left map]. apply IH. }
  rewrite E. now rewrite (KeywordsFacts.sections_get (fun _ => @nil Sync.Entry)).
Qed.

Lemma no_entries_NoDup : NoDup (map fst (no_entries defs)).
Proof.
  unfold no_entries.
  assert (G : forall l d, NoDup (map fst d) ->
              NoDup (map fst (fold_left
                                (fun d (item : string * SectionConfig) =>
                                   assoc_set (fst item) (@nil Sync.Entry) d) l d))).
  { induction l as [|x l IH]; intros d H; [assumption|]. cbn [fold_left].
    apply IH. now apply assoc_set_NoDup. }
  apply G. constructor.
Qed.

Lemma collect_spec pdf_links :
  exists c, collect re_search pages_of defs country created pdf_links = Some c /\
            NoDup (map fst c) /\
            forall m, assoc_get m c =
                      if in_dec string_dec m (map fst defs)
                      then Some (batch_of m pdf_links) else None.
Proof.
  unfold collect. destruct (collect_loop_spec pdf_links (no_entries defs))
    as [c [H1 [H2 H3]]].
  { intros k Hk. rewrite no_entries_get.
    destruct (in_dec string_dec k (map fst defs)); [discriminate | contradiction]. }
  exists c. split; [exact H1|]. split; [rewrite H2; apply no_entries_NoDup|].
  intros m. rewrite H3, no_entries_get.
  now destruct (in_dec string_dec m (map fst defs)).
Qed.

Definition written (section_name : string)
    (out : list Sync.Entry * list (str * list Sync.Entry))
    (pdf_links : list PDFLink) : Prop :=
  In section_name (map fst defs) /\
  batch_of section_name (deduped pdf_links) <> [] /\
  out = write_section_outputs (bundle_of section_name)
          (batch_of section_name (deduped pdf_links)).

Lemma write_section_in item section_name out :
  In (section_name, out) (write_section bundle_of item) <->
  fst item = section_name /\ snd item <> [] /\
  out = write_section_outputs (bundle_of section_name) (snd item).
Proof.
  unfold write_section. destruct item as [k es]. cbn [fst snd].
  destruct es as [|e es].
  - split; [intros [] | intros [_ [H _]]; congruence].
  - split.
    + intros [[= <- <-]|[]]. split; [reflexivity|]. split; [discriminate | reflexivity].
    + intros [<- [_ ->]]. now left.
Qed.

Lemma main_spec pdf_links :
  exists outs,
    main re_search pages_of defs bundle_of country created pdf_links = Some outs /\
    forall section_name out,
      In (section_name, out) outs <-> written section_name out pdf_links.
Proof.
  unfold main.
  destruct (collect_spec (deduped pdf_links)) as [c [H1 [H2 H3]]].
  assert (W : forall section_name out,
            In (section_name, out) (flat_map (write_section bundle_of) c) <->
            written section_name out pdf_links).
  { intros section_name out. rewrite in_flat_map. unfold written. split.
    - intros [[k es] [Hin Hw]]. apply write_section_in in Hw.
      cbn [fst snd] in Hw. destruct Hw as [-> [Hne ->]].
      apply (In_assoc_get _ _ _ H2) in Hin. rewrite H3 in Hin.
      destruct (in_dec string_dec section_name (map fst defs)); [|discriminate].
      injection Hin as <-. tauto.
    - intros [Hn [Hne ->]].
      exists (section_name, batch_of section_name (deduped pdf_links)). split.
      + apply assoc_get_In. rewrite H3.
        destruct (in_dec string_dec section_name (map fst defs));
          [reflexivity | contradiction].
      + apply write_section_in. cbn [fst snd]. tauto. }
  destruct (deduped pdf_links) as [|l links] eqn:E.
  - exists []. split; [reflexivity|]. intros section_name out. split; [intros []|].
    intros [_ [H _]]. rewrite E in H. now apply H.
  - rewrite H1. cbn [option_map]. eexists. split; [reflexivity|]. exact W.
Qed.

Lemma entry_of_fields m pdf e :
  In e (entry_of m pdf) ->
  Sync.country e = country /\ Sync.section e = m /\
  Sync.source_doc e = source_doc pdf /\ Sync.doc_url e = url pdf /\
  Sync.created_utc e = created /\ Sync.stale e = false.
Proof.
  unfold entry_of.
  destruct (assoc_get m (extract_sections_from_pdf re_search (pages_of pdf) defs));
    [|intros []].
  intros [<-|[]]. repeat split.
Qed.

Lemma batch_of_countries m pdf_links e :
  In e (batch_of m pdf_links) -> Sync.country e = country.
Proof.
  unfold batch_of. rewrite in_flat_map. intros [pdf [_ H]].
  now apply entry_of_fields in H.
Qed.

Lemma batch_of_NoDup m pdf_links :
  NoDup (map url pdf_links) -> NoDup (map Sync.key_of (batch_of m pdf_links)).
Proof.
  induction pdf_links as [|pdf pdf_links IH]; intros ND; [constructor|].
  cbn [map] in ND. inversion ND as [|x l Hx Hl]; subst.
  unfold batch_of. cbn [flat_map]. fold (batch_of m pdf_links).
  destruct (entry_of m pdf) as [|e [|e' r]] eqn:E.
  - now apply IH.
  - cbn [app map]. constructor; [|now apply IH].
    intros Hin. apply in_map_iff in Hin. destruct Hin as [e2 [Hk H2]].
    unfold batch_of in H2. rewrite in_flat_map in H2. destruct H2 as [pdf2 [Hp H2]].
    apply entry_of_fields in H2.
    assert (H1 : In e (entry_of m pdf)) by (rewrite E; now left).
    apply entry_of_fields in H1. apply Hx.
    assert (U : url pdf2 = url pdf).
    { unfold Sync.key_of in Hk. destruct H1 as (_ & _ & _ & U1 & _).
      destruct H2 as (_ & _ & _ & U2 & _). congruence. }
    rewrite <- U. now apply in_map.
  - exfalso. unfold entry_of in E.
    destruct (assoc_get m (extract_sections_from_pdf re_search (pages_of pdf) defs));
      discriminate.
Qed.

End RunFacts.

(** X11.  [main] does not fail on a section name: what it writes are
    the outputs of [write_section_outputs] for each configured section
    for which some link gave a text, on the entries built from the
    links kept, one for each link that gave a text for the section. *)
Theorem main_writes_the_collected_sections
    (re_search : Flags -> str -> str -> SearchResult)
    (pages_of : PDFLink -> list str)
    (section_definitions : list (string * SectionConfig))
    (bundle_of : string -> list Sync.Entry) (country created : string)
    (pdf_links : list PDFLink) :
  exists outs,
    main re_search pages_of section_definitions bundle_of country created pdf_links
    = Some outs /\
    forall section_name out,
      In (section_name, out) outs <->
      In section_name (map fst section_definitions) /\
      batch_of re_search pages_of section_definitions country created
        section_name (deduped pdf_links) <> [] /\
      out = write_section_outputs (bundle_of section_name)
              (batch_of re_search pages_of section_definitions country created
                 section_name (deduped pdf_links)).
Proof.
  exact (main_spec re_search pages_of section_definitions bundle_of country created
           pdf_links).
Qed.

(** X12.  When every link has a URL, each bundle that [main] writes
    has at most one entry that is not stale for an identity key. *)
Theorem main_bundles_one_live_per_key
    (re_search : Flags -> str -> str -> SearchResult)
    (pages_of : PDFLink -> list str)
    (section_definitions : list (string * SectionConfig))
    (bundle_of : string -> list Sync.Entry) (country created : string)
    (pdf_links : list PDFLink)
    (outs : list (string * (list Sync.Entry * list (str * list Sync.Entry)))) :
  Forall (fun link => url link <> EmptyString) pdf_links ->
  main re_search pages_of section_definitions bundle_of country created pdf_links
  = Some outs ->
  Forall (fun item => Sync.one_live_per_key (fst (snd item))) outs.
Proof.
  intros Hurl Hmain.
  destruct (main_spec re_search pages_of section_definitions bundle_of country
              created pdf_links) as [outs' [H1 H2]].
  rewrite Hmain in H1. injection H1 as <-.
  apply Forall_forall. intros [section_name out] Hin. cbn [fst snd].
  apply H2 in Hin. destruct Hin as [_ [_ ->]].
  unfold write_section_outputs. cbv zeta. cbn [fst].
  assert (ND : NoDup (map Sync.key_of
                        (batch_of re_search pages_of section_definitions country
                           created section_name (deduped pdf_links)))).
  { apply batch_of_NoDup. now apply deduped_urls. }
  intros k. rewrite SyncFacts.live_at_entries.
  rewrite (Permutation_length
             (SyncFacts.filter_perm Sync.live _ _
                (SyncFacts.merge_bundles_at k _ _ ND))).
  apply SyncFacts.outcome_live_le1.
Qed.

Lemma main_bundles_one_live_per_key_witness :
  Forall (fun link => url link <> EmptyString) [bur1_link; nc3_link; bur1_link] /\
  main literal_search example_pages cuba_definitions example_bundle
       "Cuba" "2024-03-01T00:00:00Z" [bur1_link; nc3_link; bur1_link]
  = Some example_outputs /\
  Forall (fun item => Sync.one_live_per_key (fst (snd item))) example_outputs.
Proof.
  assert (Hurl : Forall (fun link => url link <> EmptyString)
                   [bur1_link; nc3_link; bur1_link])
    by (repeat constructor; discriminate).
  assert (Hmain : main literal_search example_pages cuba_definitions example_bundle
                    "Cuba" "2024-03-01T00:00:00Z" [bur1_link; nc3_link; bur1_link]
                  = Some example_outputs) by (vm_compute; reflexivity).
  split; [exact Hurl|]. split; [exact Hmain|].
  exact (main_bundles_one_live_per_key literal_search example_pages cuba_definitions
           example_bundle "Cuba" "2024-03-01T00:00:00Z"
           [bur1_link; nc3_link; bur1_link] example_outputs Hurl Hmain).
Defined.

(** X13.  In each bundle that [main] writes, every entry of another
    country than the one of the run is stale. *)
Theorem main_marks_other_countries_stale
    (re_search : Flags -> str -> str -> SearchResult)
    (pages_of : PDFLink -> list str)
    (section_definitions : list (string * SectionConfig))
    (bundle_of : string -> list Sync.Entry) (country created : string)
    (pdf_links : list PDFLink)
    (outs : list (string * (list Sync.Entry * list (str * list Sync.Entry))))
    (section_name : string)
    (out : list Sync.Entry * list (str * list Sync.Entry)) (e : Sync.Entry) :
  main re_search pages_of section_definitions bundle_of country created pdf_links
  = Some outs ->
  In (section_name, out) outs ->
  In e (fst out) ->
  Sync.country e <> country ->
  Sync.stale e = true.
Proof.
  intros Hmain Hin He Hc.
  destruct (main_spec re_search pages_of section_definitions bundle_of country
              created pdf_links) as [outs' [H1 H2]].
  rewrite Hmain in H1. injection H1 as <-.
  apply H2 in Hin. destruct Hin as [_ [_ ->]].
  unfold write_section_outputs in He. cbv zeta in He. cbn [fst] in He.
  apply SyncFacts.in_entries_at in He.
  rewrite MergeFacts.merge_bundles_absent in He.
  - destruct (SyncFacts.last_opt _) as [e'|]; [|destruct He].
    destruct He as [<-|[]]. reflexivity.
  - intros Hk. apply in_map_iff in Hk. destruct Hk as [n [Hk Hn]].
    apply batch_of_countries in Hn. apply Hc.
    unfold Sync.key_of in Hk. congruence.
Qed.

Lemma main_marks_other_countries_stale_witness :
  main literal_search example_pages cuba_definitions example_bundle
       "Cuba" "2024-03-01T00:00:00Z" [bur1_link; nc3_link; bur1_link]
  = Some example_outputs /\
  In ("Policy"%string, nth 0 (map snd example_outputs) ([], [])) example_outputs /\
  In (Sync.set_stale SyncExamples.kenya_entry)
     (fst (nth 0 (map snd example_outputs) ([], []))) /\
  Sync.country (Sync.set_stale SyncExamples.kenya_entry) <> "Cuba"%string /\
  Sync.stale (Sync.set_stale SyncExamples.kenya_entry) = true.
Proof.
  assert (Hmain : main literal_search example_pages cuba_definitions example_bundle
                    "Cuba" "2024-03-01T00:00:00Z" [bur1_link; nc3_link; bur1_link]
                  = Some example_outputs) by (vm_compute; reflexivity).
  assert (Hin : In ("Policy"%string, nth 0 (map snd example_outputs) ([], []))
                   example_outputs) by (vm_compute; now left).
  assert (He : In (Sync.set_stale SyncExamples.kenya_entry)
                  (fst (nth 0 (map snd example_outputs) ([], []))))
    by (vm_compute; right; right; now left).
  assert (Hc : Sync.country (Sync.set_stale SyncExamples.kenya_entry)
               <> "Cuba"%string) by discriminate.
  split; [exact Hmain|]. split; [exact Hin|]. split; [exact He|]. split; [exact Hc|].
  exact (main_marks_other_countries_stale literal_search example_pages
           cuba_definitions example_bundle "Cuba" "2024-03-01T00:00:00Z"
           [bur1_link; nc3_link; bur1_link] example_outputs "Policy"
           (nth 0 (map snd example_outputs) ([], []))
           (Sync.set_stale SyncExamples.kenya_entry) Hmain Hin He Hc).
Defined.

End PipelineFacts.

(* ================================================================= *)
(** ** [normalize_whitespace] *)

Module NormalizeFacts.
Import Text Locator Keywords TextFacts.

Definition no_nl (c : ascii) : Prop := is_nl c = false.

Lemma split_nl_cons_eq c s :
  split_nl (c :: s) =
  if is_nl c then [] :: split_nl s
  else (c :: hd [] (split_nl s)) :: tl (split_nl s).
Proof.
  cbn [split_nl]. destruct (is_nl c); [reflexivity|].
  destruct (split_nl s) eqn:E; [|reflexivity].
  destruct s as [|d s]; simpl in E; [discriminate|].
  destruct (is_nl d); [discriminate|]. now destruct (split_nl s).
Qed.

Lemma split_nl_not_nil s : split_nl s <> [].
Proof.
  destruct s as [|c s]; [discriminate|]. rewrite split_nl_cons_eq.
  destruct (is_nl c); discriminate.
Qed.

Lemma split_nl_hd_tl s : split_nl s = hd [] (split_nl s) :: tl (split_nl s).
Proof. pose proof (split_nl_not_nil s). now destruct (split_nl s). Qed.

Lemma split_nl_no_nl s : Forall (Forall no_nl) (split_nl s).
Proof.
  induction s as [|c s IH]; [repeat constructor|].
  rewrite split_nl_cons_eq. pose proof IH as IH0. rewrite split_nl_hd_tl in IH.
  inversion IH as [|x l Hx Hl]; subst.
  destruct (is_nl c) eqn:E.
  - constructor; [constructor | assumption].
  - constructor; [|assumption]. now constructor.
Qed.

Lemma join_cons sep x y rest :
  join sep (x :: y :: rest) = x ++ sep ++ join sep (y :: rest).
Proof. reflexivity. Qed.

(** ["\n".join(s.split("\n")) == s] *)
Lemma join_split_nl s : join [nl] (split_nl s) = s.
Proof.
  induction s as [|c s IH]; [reflexivity|].
  rewrite split_nl_cons_eq. pose proof (split_nl_not_nil s) as N.
  destruct (split_nl s) as [|x l]; [congruence|]. cbn [hd tl].
  destruct (is_nl c) eqn:E.
  - apply is_nl_eq in E. subst c. rewrite join_cons. cbn [app]. now rewrite IH.
  - destruct l as [|y rest]; simpl in *; now f_equal.
Qed.

Lemma split_nl_line l : Forall no_nl l -> split_nl l = [l].
Proof.
  induction 1 as [|c l Hc _ IH]; [reflexivity|].
  rewrite split_nl_cons_eq, IH. unfold no_nl in Hc. now rewrite Hc.
Qed.

Lemma split_nl_app l s :
  Forall no_nl l -> split_nl (l ++ nl :: s) = l :: split_nl s.
Proof.
  induction 1 as [|c l Hc _ IH]; [reflexivity|].
  cbn [app]. rewrite split_nl_cons_eq, IH. unfold no_nl in Hc. now rewrite Hc.
Qed.

(** [(sep.join(lines)).split(sep) == lines] for lines without line
    break, at least one. *)
Lemma split_nl_join lines :
  lines <> [] -> Forall (Forall no_nl) lines ->
  split_nl (join [nl] lines) = lines.
Proof.
  induction lines as [|l lines IH]; [congruence|]. intros _ H.
  inversion H as [|x y Hl Hr]; subst.
  destruct lines as [|l' lines].
  - now apply split_nl_line.
  - rewrite join_cons. cbn [app]. rewrite (split_nl_app _ _ Hl). f_equal.
    apply IH; [discriminate | assumption].
Qed.

Lemma lstrip_lstrip s : lstrip (lstrip s) = lstrip s.
Proof. apply lstrip_fixed, lstrip_head. Qed.

Lemma rstrip_rstrip s : rstrip (rstrip s) = rstrip s.
Proof. unfold rstrip. now rewrite rev_involutive, lstrip_lstrip. Qed.

Lemma rstrip_Forall (P : ascii -> Prop) s : Forall P s -> Forall P (rstrip s).
Proof.
  intros H. destruct (rstrip_prefix s) as [t E]. rewrite E in H.
  apply Forall_app in H. now destruct H.
Qed.

Lemma replace_crlf_fixed s : Forall no_cr s -> replace_crlf s = s.
Proof.
  induction 1 as [|c s Hc _ IH]; [reflexivity|].
  cbn [replace_crlf]. destruct s as [|d s]; [reflexivity|].
  unfold no_cr in Hc. rewrite Hc. cbn [andb]. now rewrite IH.
Qed.

Lemma join_Forall (P : ascii -> Prop) lines :
  P nl -> Forall (Forall P) lines -> Forall P (join [nl] lines).
Proof.
  intros Hn. induction 1 as [|l lines Hl _ IH]; [constructor|].
  destruct lines as [|l' lines]; [assumption|].
  rewrite join_cons. apply Forall_app. split; [assumption|].
  now constructor.
Qed.

(** The lines [normalize_whitespace] joins. *)
Definition stripped_lines (text : str) : list str :=
  map rstrip (split_nl (replace_cr (replace_crlf text))).

Lemma replace_crlf_no_more_cr s :
  Forall no_cr (replace_cr (replace_crlf s)).
Proof. apply replace_cr_no_cr. Qed.

Lemma stripped_lines_clean text :
  Forall (fun l => Forall no_nl l /\ Forall no_cr l /\ rstrip l = l)
         (stripped_lines text).
Proof.
  unfold stripped_lines. apply Forall_map.
  pose proof (split_nl_no_nl (replace_cr (replace_crlf text))) as H1.
  assert (H2 : Forall (Forall no_cr) (split_nl (replace_cr (replace_crlf text)))).
  { pose proof (replace_cr_no_cr (replace_crlf text)) as H.
    rewrite <- (join_split_nl (replace_cr (replace_crlf text))) in H.
    revert H. generalize (split_nl (replace_cr (replace_crlf text))).
    induction l as [|x l IH]; [constructor|]. intros H.
    destruct l as [|y l].
    - now repeat constructor.
    - rewrite join_cons in H. apply Forall_app in H. destruct H as [Hx H].
      constructor; [assumption|]. apply IH. now inversion H. }
  rewrite Forall_forall in *. intros l Hl. repeat split.
  - apply rstrip_Forall. now apply H1.
  - apply rstrip_Forall. now apply H2.
  - apply rstrip_rstrip.
Qed.

Lemma stripped_lines_not_nil text : stripped_lines text <> [].
Proof.
  unfold stripped_lines. intros E. apply map_eq_nil in E.
  exact (split_nl_not_nil _ E).
Qed.

Lemma document_lines_eq text : document_lines text = stripped_lines text.
Proof.
  unfold document_lines, normalize_whitespace. cbv zeta.
  apply split_nl_join; [apply stripped_lines_not_nil|].
  eapply Forall_impl; [|apply stripped_lines_clean]. now intros l [H _].
Qed.

(** X16.  The lines that the two extraction passes work on are the lines
    of the input, ended by CR LF, CR or LF, each without its trailing
    whitespace; none holds a line break. *)
Theorem document_lines_stripped (text : str) :
  document_lines text = map rstrip (split_nl (replace_cr (replace_crlf text))) /\
  Forall (fun l => Forall (fun c => is_nl c = false) l /\
                   Forall (fun c => is_cr c = false) l /\
                   rstrip l = l)
         (document_lines text).
Proof.
  split; [exact (document_lines_eq text)|].
  rewrite document_lines_eq. apply stripped_lines_clean.
Qed.

(** X17.  [normalize_whitespace] is idempotent. *)
Theorem normalize_whitespace_idempotent (text : str) :
  normalize_whitespace (normalize_whitespace text) = normalize_whitespace text.
Proof.
  pose proof (stripped_lines_clean text) as H.
  assert (C : Forall no_cr (normalize_whitespace text)).
  { unfold normalize_whitespace. cbv zeta. apply join_Forall; [reflexivity|].
    eapply Forall_impl; [|exact H]. now intros l [_ [Hc _]]. }
  unfold normalize_whitespace at 1. cbv zeta.
  rewrite (replace_crlf_fixed _ C), (replace_cr_fixed _ C).
  change (split_nl (normalize_whitespace text)) with (document_lines text).
  rewrite document_lines_eq. unfold stripped_lines.
  rewrite map_map. unfold normalize_whitespace. cbv zeta. f_equal.
  apply map_ext. intros l. apply rstrip_rstrip.
Qed.

End NormalizeFacts.

(* ================================================================= *)
(** ** [find_section_ranges] and [extract_sections] *)

Module RangesFacts.
Import Text Locator Keywords Ranges KeywordsFacts DictFacts.

Lemma has_key_set_same {V : Type} k (v : V) d : has_key k (assoc_set k v d) = true.
Proof. unfold has_key. now rewrite assoc_get_set_same. Qed.

(** *** The first occurrences *)

Lemma patterns_get names name :
  assoc_get name (patterns names) =
  if in_dec string_dec name names then Some (of_string name) else None.
Proof. unfold patterns. now rewrite sections_get. Qed.

Lemma patterns_NoDup names : NoDup (map fst (patterns names)).
Proof. unfold patterns. apply fold_assoc_set_NoDup. constructor. Qed.

(** One line: a section not yet found is found when its pattern
    matches. *)
Lemma starts_line_get i line name : forall pats starts,
  NoDup (map fst pats) ->
  assoc_get name (fold_left (starts_step i line) pats starts) =
  match assoc_get name starts with
  | Some j => Some j
  | None =>
      match assoc_get name pats with
      | Some p => if pattern_search p line then Some i else None
      | None => None
      end
  end.
Proof.
  induction pats as [|[k p] pats IH]; intros starts ND.
  - simpl. now destruct (assoc_get name starts).
  - inversion ND as [|x l Hx Hl]; subst. cbn [fold_left]. rewrite (IH _ Hl).
    unfold starts_step, has_key. cbn [fst snd assoc_get].
    destruct (String.eqb_spec name k) as [->|Hne].
    + destruct (assoc_get k starts) as [j|] eqn:E.
      * now rewrite E.
      * destruct (pattern_search p line).
        -- now rewrite assoc_get_set_same.
        -- rewrite E. now rewrite (assoc_get_not_key _ _ Hx).
    + destruct (assoc_get k starts) as [j|] eqn:E; [reflexivity|].
      destruct (pattern_search p line); [|reflexivity].
      now rewrite (assoc_get_set_other _ _ _ _ Hne).
Qed.

Definition first_match_from (i : nat) (p : str) (lines : list str) : option nat :=
  (fix go (i : nat) (lines : list str) : option nat :=
     match lines with
     | [] => None
     | line :: rest => if pattern_search p line then Some i else go (S i) rest
     end) i lines.

Lemma starts_from_get name pats : forall lines i starts,
  NoDup (map fst pats) ->
  assoc_get name (starts_from i pats lines starts) =
  match assoc_get name starts with
  | Some j => Some j
  | None =>
      match assoc_get name pats with
      | Some p => first_match_from i p lines
      | None => None
      end
  end.
Proof.
  induction lines as [|line rest IH]; intros i starts ND.
  - simpl. destruct (assoc_get name starts); [reflexivity|].
    now destruct (assoc_get name pats).
  - cbn [starts_from]. rewrite (IH _ _ ND), (starts_line_get _ _ _ _ _ ND).
    destruct (assoc_get name starts); [reflexivity|].
    destruct (assoc_get name pats) as [p|]; [|reflexivity].
    simpl. now destruct (pattern_search p line).
Qed.

Lemma first_match_from_shift p lines : forall i,
  first_match_from (S i) p lines = option_map S (first_match_from i p lines).
Proof.
  induction lines as [|line rest IH]; intros i; [reflexivity|]. simpl.
  destruct (pattern_search p line); [reflexivity|]. apply IH.
Qed.

Lemma first_match_first_line name lines :
  first_match_from 0 (of_string name) lines = first_line name lines.
Proof.
  induction lines as [|line rest IH]; [reflexivity|]. simpl.
  destruct (pattern_search (of_string name) line); [reflexivity|].
  fold (first_match_from 1 (of_string name) rest).
  now rewrite first_match_from_shift, IH.
Qed.

Lemma section_starts_get names lines name :
  assoc_get name (section_starts names lines) =
  if in_dec string_dec name names then first_line name lines else None.
Proof.
  unfold section_starts. rewrite starts_from_get by apply patterns_NoDup.
  cbn [assoc_get]. rewrite patterns_get.
  destruct (in_dec string_dec name names); [|reflexivity].
  apply first_match_first_line.
Qed.

Lemma first_line_spec name lines i :
  first_line name lines = Some i <->
  (exists line, nth_error lines i = Some line /\
                pattern_search (of_string name) line = true) /\
  (forall j line, j < i -> nth_error lines j = Some line ->
                  pattern_search (of_string name) line = false).
Proof.
  revert i. induction lines as [|l rest IH]; intros i.
  - simpl. split; [discriminate|]. intros [[line [H _]] _]. now destruct i.
  - cbn [first_line]. destruct (pattern_search (of_string name) l) eqn:E.
    + split.
      * intros [= <-]. split; [now exists l|]. intros j line Hj. lia.
      * intros [[line [H1 H2]] H3]. destruct i as [|i]; [reflexivity|].
        specialize (H3 0 l (Nat.lt_0_succ _) eq_refl). congruence.
    + destruct i as [|i].
      * split.
        -- destruct (first_line name rest); discriminate.
        -- intros [[line [H1 H2]] _]. simpl in H1. congruence.
      * assert (X : option_map S (first_line name rest) = Some (S i) <->
                    first_line name rest = Some i).
        { destruct (first_line name rest); simpl; split; congruence. }
        rewrite X, IH. split.
        -- intros [[line [H1 H2]] H3]. split; [now exists line|].
           intros j line' Hj Hn. destruct j as [|j]; [simpl in Hn; congruence|].
           apply (H3 j); [lia | assumption].
        -- intros [[line [H1 H2]] H3]. split; [now exists line|].
           intros j line' Hj Hn. apply (H3 (S j)); [lia | assumption].
Qed.

Lemma first_line_none name lines :
  first_line name lines = None <->
  Forall (fun line => pattern_search (of_string name) line = false) lines.
Proof.
  induction lines as [|l rest IH]; simpl.
  - split; [constructor | reflexivity].
  - destruct (pattern_search (of_string name) l) eqn:E.
    + split; [discriminate|]. intros H. inversion H. congruence.
    + destruct (first_line name rest); simpl.
      * split; [discriminate|]. intros H. inversion H; subst.
        destruct IH as [_ IH]. specialize (IH H3). discriminate.
      * split; [|reflexivity]. intros _. constructor; [assumption|]. now apply IH.
Qed.

(** *** The ranges *)

Lemma ranges_loop_other n starts name : forall sorted ranges,
  ~ In name sorted ->
  assoc_get name (ranges_loop n starts sorted ranges) = assoc_get name ranges.
Proof.
  induction sorted as [|s rest IH]; intros ranges H; [reflexivity|].
  cbn [ranges_loop]. cbv zeta. rewrite IH by (simpl in H; tauto).
  apply assoc_get_set_other. simpl in H. intros ->. tauto.
Qed.

Lemma ranges_loop_at n starts name : forall pre rest ranges,
  ~ In name pre -> ~ In name rest ->
  assoc_get name (ranges_loop n starts (pre ++ name :: rest) ranges) =
  Some (start_of starts name,
        match rest with
        | next_section :: _ => start_of starts next_section
        | [] => n
        end).
Proof.
  induction pre as [|s pre IH]; intros rest ranges Hp Hr.
  - cbn [app ranges_loop]. cbv zeta. rewrite (ranges_loop_other _ _ _ _ _ Hr).
    apply assoc_get_set_same.
  - cbn [app ranges_loop]. cbv zeta. apply IH; [simpl in Hp; tauto | assumption].
Qed.

Lemma ranges_loop_not_nil n starts : forall sorted ranges,
  (sorted <> [] \/ ranges <> []) -> ranges_loop n starts sorted ranges <> [].
Proof.
  induction sorted as [|s rest IH]; intros ranges H.
  - simpl. destruct H; congruence.
  - cbn [ranges_loop]. cbv zeta. apply IH. right.
    destruct ranges as [|[k v] r]; simpl; [discriminate|].
    destruct (String.eqb s k); discriminate.
Qed.

Lemma has_key_starts names lines name :
  has_key name (section_starts names lines) =
  if in_dec string_dec name names
  then match first_line name lines with Some _ => true | None => false end
  else false.
Proof.
  unfold has_key. rewrite section_starts_get.
  now destruct (in_dec string_dec name names).
Qed.

Lemma sorted_sections_eq names lines :
  sorted_sections names (section_starts names lines) =
  filter (fun s => match first_line s lines with Some _ => true | None => false end)
         names.
Proof.
  unfold sorted_sections. apply filter_ext_in. intros s Hs.
  rewrite has_key_starts. destruct (in_dec string_dec s names); tauto.
Qed.

Definition found (lines : list str) (s : string) : bool :=
  match first_line s lines with Some _ => true | None => false end.

Lemma find_section_ranges_nil names lines :
  Forall (fun s => first_line s lines = None) names ->
  find_section_ranges names lines = [].
Proof.
  intros H. unfold find_section_ranges. cbv zeta. rewrite sorted_sections_eq.
  assert (E : filter (found lines) names = []).
  { induction H as [|s names Hs _ IH]; [reflexivity|]. simpl.
    unfold found at 1. now rewrite Hs. }
  unfold found in E. now rewrite E.
Qed.

Lemma find_section_ranges_not_nil names lines s i :
  In s names -> first_line s lines = Some i ->
  find_section_ranges names lines <> [].
Proof.
  intros Hs Hi. unfold find_section_ranges. cbv zeta.
  apply ranges_loop_not_nil. left. rewrite sorted_sections_eq.
  assert (X : In s (filter (found lines) names)).
  { apply filter_In. split; [assumption|]. unfold found. now rewrite Hi. }
  unfold found in X. intros E. rewrite E in X. exact X.
Qed.

Lemma find_section_ranges_missing names lines name :
  first_line name lines = None ->
  assoc_get name (find_section_ranges names lines) = None.
Proof.
  intros H. unfold find_section_ranges. cbv zeta.
  rewrite ranges_loop_other; [reflexivity|].
  rewrite sorted_sections_eq. rewrite filter_In. rewrite H. intros [_ X]. discriminate.
Qed.

(** The sections that follow [name] in [SECTION_NAMES] up to the next
    one with a heading. *)
Lemma filter_found_split lines pre name rest :
  found lines name = true ->
  filter (found lines) (pre ++ name :: rest) =
  filter (found lines) pre ++ name :: filter (found lines) rest.
Proof. intros H. rewrite filter_app. simpl. now rewrite H. Qed.

Lemma find_section_ranges_at lines pre name rest i :
  NoDup (pre ++ name :: rest) ->
  first_line name lines = Some i ->
  assoc_get name (find_section_ranges (pre ++ name :: rest) lines) =
  Some (i, match filter (found lines) rest with
           | next_section :: _ =>
               match first_line next_section lines with Some j => j | None => 0 end
           | [] => List.length lines
           end).
Proof.
  intros ND Hi. unfold find_section_ranges. cbv zeta.
  rewrite sorted_sections_eq. fold (found lines).
  assert (F : found lines name = true) by (unfold found; now rewrite Hi).
  rewrite (filter_found_split _ _ _ _ F).
  apply NoDup_remove_2 in ND.
  rewrite ranges_loop_at.
  - f_equal. f_equal.
    + unfold start_of. rewrite section_starts_get.
      destruct (in_dec string_dec name (pre ++ name :: rest)) as [_|N].
      * now rewrite Hi.
      * exfalso. apply N, in_elt.
    + destruct (filter (found lines) rest) as [|b l] eqn:E; [reflexivity|].
      unfold start_of. rewrite section_starts_get.
      destruct (in_dec string_dec b (pre ++ name :: rest)) as [_|N]; [reflexivity|].
      exfalso. apply N. apply in_or_app. right. right.
      assert (X : In b (filter (found lines) rest)) by (rewrite E; now left).
      now apply filter_In in X.
  - rewrite filter_In. intros [X _]. apply ND, in_or_app. now left.
  - rewrite filter_In. intros [X _]. apply ND, in_or_app. now right.
Qed.

(** *** [extract_sections] *)

Definition ranged_text (lines : list str) (ranges : list (string * (nat * nat)))
    (name : string) : str :=
  match assoc_get name ranges with
  | Some range => range_text lines range
  | None => []
  end.

Lemma extract_sections_ranged names kws text :
  find_section_ranges names (document_lines text) <> [] ->
  extract_sections names kws text =
  fold_left
    (fun sections name =>
       assoc_set name
         (ranged_text (document_lines text)
            (find_section_ranges names (document_lines text)) name)
         sections)
    names [].
Proof.
  intros H. unfold extract_sections. cbv zeta.
  change (split_nl (normalize_whitespace text)) with (document_lines text).
  destruct (find_section_ranges names (document_lines text)) eqn:E; [congruence|].
  reflexivity.
Qed.

Lemma extract_sections_get_ranged names kws text name :
  find_section_ranges names (document_lines text) <> [] ->
  In name names ->
  assoc_get name (extract_sections names kws text) =
  Some (ranged_text (document_lines text)
          (find_section_ranges names (document_lines text)) name).
Proof.
  intros H Hn. rewrite (extract_sections_ranged _ _ _ H), sections_get.
  destruct (in_dec string_dec name names); [reflexivity | contradiction].
Qed.

Lemma range_text_empty lines i j : j <= i -> range_text lines (i, j) = [].
Proof.
  intros H. unfold range_text. cbn [fst snd].
  replace (j - i) with 0 by lia. reflexivity.
Qed.

(** X18.  The start recorded for a configured section is the number of
    the first line in which its name occurs, letter case apart. *)
Theorem section_starts_first_occurrence
    (names : list string) (lines : list str) (name : string) (i : nat) :
  In name names ->
  (assoc_get name (section_starts names lines) = Some i <->
   (exists line, nth_error lines i = Some line /\
                 pattern_search (of_string name) line = true) /\
   (forall j line, j < i -> nth_error lines j = Some line ->
                   pattern_search (of_string name) line = false)).
Proof.
  intros H. rewrite section_starts_get.
  destruct (in_dec string_dec name names); [|contradiction].
  apply first_line_spec.
Qed.

Lemma section_starts_first_occurrence_witness :
  In "NDC Tracking Module"%string module_names /\
  (assoc_get "NDC Tracking Module"%string
     (section_starts module_names (document_lines swapped_document)) = Some 2 <->
   (exists line, nth_error (document_lines swapped_document) 2 = Some line /\
                 pattern_search (of_string "NDC Tracking Module") line = true) /\
   (forall j line, j < 2 ->
                   nth_error (document_lines swapped_document) j = Some line ->
                   pattern_search (of_string "NDC Tracking Module") line = false)).
Proof.
  assert (H : In "NDC Tracking Module"%string module_names) by (now left).
  split; [exact H|].
  exact (section_starts_first_occurrence module_names
           (document_lines swapped_document) "NDC Tracking Module" 2 H).
Defined.

(** X19.  The result of [extract_sections] has a text, possibly empty,
    for every configured section and for nothing else. *)
Theorem extract_sections_keys
    (names : list string) (kws : list (string * list str)) (text : str)
    (name : string) :
  In name names <->
  exists t, assoc_get name (extract_sections names kws text) = Some t.
Proof.
  destruct (find_section_ranges names (document_lines text)) eqn:E.
  - assert (X : extract_sections names kws text =
                extract_sections_by_keywords names kws text).
    { unfold extract_sections. cbv zeta.
      change (split_nl (normalize_whitespace text)) with (document_lines text).
      now rewrite E. }
    rewrite X. unfold extract_sections_by_keywords. cbv zeta.
    rewrite (sections_get
               (fun k => keyword_section (keywords_of kws k)
                           (split_nl (normalize_whitespace text)))).
    destruct (in_dec string_dec name names) as [Hin|Hout].
    + split; [eauto | auto].
    + split; [contradiction|]. intros [t Ht]. discriminate.
  - assert (N : find_section_ranges names (document_lines text) <> [])
      by (rewrite E; discriminate).
    rewrite (extract_sections_ranged _ _ _ N), sections_get.
    destruct (in_dec string_dec name names) as [Hin|Hout].
    + split; [eauto | auto].
    + split; [contradiction|]. intros [t Ht]. discriminate.
Qed.

(** X20.  The keyword pass is the result exactly when no line of the
    document holds the name of a configured section. *)
Theorem extract_sections_falls_back
    (names : list string) (kws : list (string * list str)) (text : str) :
  (forall name line, In name names -> In line (document_lines text) ->
                     pattern_search (of_string name) line = false) ->
  extract_sections names kws text = extract_sections_by_keywords names kws text.
Proof.
  intros H. unfold extract_sections. cbv zeta.
  change (split_nl (normalize_whitespace text)) with (document_lines text).
  rewrite find_section_ranges_nil; [reflexivity|].
  apply Forall_forall. intros s Hs. apply first_line_none.
  apply Forall_forall. intros line Hl. now apply H.
Qed.

Lemma extract_sections_falls_back_witness :
  (forall name line, In name module_names ->
                     In line (document_lines plain_document) ->
                     pattern_search (of_string name) line = false) /\
  extract_sections module_names [] plain_document =
  extract_sections_by_keywords module_names [] plain_document.
Proof.
  assert (H : forall name line, In name module_names ->
                In line (document_lines plain_document) ->
                pattern_search (of_string name) line = false).
  { intros name line Hn Hl. vm_compute in Hl.
    destruct Hn as [<-|[<-|[<-|[]]]]; destruct Hl as [<-|[<-|[]]];
      vm_compute; reflexivity. }
  split; [exact H|].
  exact (extract_sections_falls_back module_names [] plain_document H).
Defined.

(** X21.  Once the heading of one section is found, a section whose
    name occurs in no line gets the empty text: the keyword pass is
    not tried for it. *)
Theorem extract_sections_no_keyword_pass_beside_heading
    (names : list string) (kws : list (string * list str)) (text : str)
    (name other : string) (line : str) :
  In name names -> In other names ->
  In line (document_lines text) ->
  pattern_search (of_string other) line = true ->
  (forall l, In l (document_lines text) ->
             pattern_search (of_string name) l = false) ->
  assoc_get name (extract_sections names kws text) = Some [].
Proof.
  intros Hn Ho Hl Hm Hnone.
  assert (Fo : exists i, first_line other (document_lines text) = Some i).
  { destruct (first_line other (document_lines text)) as [i|] eqn:E; [eauto|].
    apply first_line_none in E. rewrite Forall_forall in E.
    specialize (E line Hl). congruence. }
  destruct Fo as [i Fo].
  rewrite extract_sections_get_ranged;
    [|exact (find_section_ranges_not_nil _ _ _ _ Ho Fo) | exact Hn].
  unfold ranged_text. rewrite find_section_ranges_missing; [reflexivity|].
  apply first_line_none, Forall_forall. exact Hnone.
Qed.

Lemma extract_sections_no_keyword_pass_beside_heading_witness :
  In "Other baseline initiatives"%string module_names /\
  In "NDC Tracking Module"%string module_names /\
  In (of_string "NDC Tracking Module") (document_lines headed_document) /\
  pattern_search (of_string "NDC Tracking Module")
    (of_string "NDC Tracking Module") = true /\
  (forall l, In l (document_lines headed_document) ->
             pattern_search (of_string "Other baseline initiatives") l = false) /\
  assoc_get "Other baseline initiatives"%string
    (extract_sections module_names baseline_keywords headed_document) = Some [].
Proof.
  assert (Hn : In "Other baseline initiatives"%string module_names)
    by (right; right; now left).
  assert (Ho : In "NDC Tracking Module"%string module_names) by (now left).
  assert (Hl : In (of_string "NDC Tracking Module") (document_lines headed_document))
    by (vm_compute; now left).
  assert (Hm : pattern_search (of_string "NDC Tracking Module")
                 (of_string "NDC Tracking Module") = true) by (vm_compute; reflexivity).
  assert (Hnone : forall l, In l (document_lines headed_document) ->
            pattern_search (of_string "Other baseline initiatives") l = false).
  { intros l H. vm_compute in H.
    destruct H as [<-|[<-|[<-|[<-|[<-|[]]]]]]; vm_compute; reflexivity. }
  split; [exact Hn|]. split; [exact Ho|]. split; [exact Hl|]. split; [exact Hm|].
  split; [exact Hnone|].
  exact (extract_sections_no_keyword_pass_beside_heading module_names
           baseline_keywords headed_document "Other baseline initiatives"
           "NDC Tracking Module" (of_string "NDC Tracking Module") Hn Ho Hl Hm Hnone).
Defined.

Lemma filter_found_none lines mid :
  Forall (fun s => first_line s lines = None) mid -> filter (found lines) mid = [].
Proof.
  induction 1 as [|s mid Hs _ IH]; [reflexivity|]. simpl.
  unfold found at 1. now rewrite Hs.
Qed.

Lemma extract_sections_at pre mid post a b kws text i j :
  NoDup (pre ++ a :: mid ++ b :: post) ->
  first_line a (document_lines text) = Some i ->
  first_line b (document_lines text) = Some j ->
  Forall (fun s => first_line s (document_lines text) = None) mid ->
  assoc_get a (extract_sections (pre ++ a :: mid ++ b :: post) kws text) =
  Some (range_text (document_lines text) (i, j)).
Proof.
  intros ND Ha Hb Hmid.
  assert (Hin : In a (pre ++ a :: mid ++ b :: post)) by apply in_elt.
  rewrite extract_sections_get_ranged;
    [|exact (find_section_ranges_not_nil _ _ _ _ Hin Ha) | exact Hin].
  unfold ranged_text.
  rewrite (find_section_ranges_at _ _ _ _ _ ND Ha).
  rewrite filter_app, (filter_found_none _ _ Hmid).
  cbn [app filter]. unfold found at 1. rewrite Hb. cbv iota.
  now rewrite Hb.
Qed.

Lemma extract_sections_at_last pre rest a kws text i :
  NoDup (pre ++ a :: rest) ->
  first_line a (document_lines text) = Some i ->
  Forall (fun s => first_line s (document_lines text) = None) rest ->
  assoc_get a (extract_sections (pre ++ a :: rest) kws text) =
  Some (range_text (document_lines text) (i, List.length (document_lines text))).
Proof.
  intros ND Ha Hrest.
  assert (Hin : In a (pre ++ a :: rest)) by apply in_elt.
  rewrite extract_sections_get_ranged;
    [|exact (find_section_ranges_not_nil _ _ _ _ Hin Ha) | exact Hin].
  unfold ranged_text.
  rewrite (find_section_ranges_at _ _ _ _ _ ND Ha).
  now rewrite (filter_found_none _ _ Hrest).
Qed.

Lemma skipn_firstn_all {A : Type} i (l : list A) :
  firstn (List.length l - i) (skipn i l) = skipn i l.
Proof. apply firstn_all2. rewrite length_skipn. lia. Qed.

(** X22.  With distinct section names, the text of a section with a
    heading runs from the first line that holds its name up to the
    first line that holds the name of the next section, in the order
    of [SECTION_NAMES], that has a heading. *)
Theorem extract_sections_between_headings
    (pre mid post : list string) (a b : string)
    (kws : list (string * list str)) (text : str) (i j : nat) :
  NoDup (pre ++ a :: mid ++ b :: post) ->
  first_line a (document_lines text) = Some i ->
  first_line b (document_lines text) = Some j ->
  Forall (fun s => first_line s (document_lines text) = None) mid ->
  assoc_get a (extract_sections (pre ++ a :: mid ++ b :: post) kws text) =
  Some (strip (join [nl] (firstn (j - i) (skipn i (document_lines text))))).
Proof. intros ND Ha Hb Hmid. exact (extract_sections_at _ _ _ _ _ _ _ _ _ ND Ha Hb Hmid). Qed.

Lemma extract_sections_between_headings_witness :
  NoDup ([] ++ "NDC Tracking Module"%string
             :: [] ++ "Support Needed and Received Module"%string
             :: ["Other baseline initiatives"%string]) /\
  first_line "NDC Tracking Module" (document_lines headed_document) = Some 0 /\
  first_line "Support Needed and Received Module"
    (document_lines headed_document) = Some 3 /\
  Forall (fun s => first_line s (document_lines headed_document) = None) [] /\
  assoc_get "NDC Tracking Module"%string
    (extract_sections
       ([] ++ "NDC Tracking Module"%string
           :: [] ++ "Support Needed and Received Module"%string
           :: ["Other baseline initiatives"%string])
       [] headed_document) =
  Some (strip (join [nl] (firstn (3 - 0) (skipn 0 (document_lines headed_document))))).
Proof.
  assert (ND : NoDup ([] ++ "NDC Tracking Module"%string
                         :: [] ++ "Support Needed and Received Module"%string
                         :: ["Other baseline initiatives"%string])).
  { repeat constructor; simpl; intuition discriminate. }
  assert (Ha : first_line "NDC Tracking Module" (document_lines headed_document)
               = Some 0) by (vm_compute; reflexivity).
  assert (Hb : first_line "Support Needed and Received Module"
                 (document_lines headed_document) = Some 3)
    by (vm_compute; reflexivity).
  assert (Hm : Forall (fun s => first_line s (document_lines headed_document) = None)
                 []) by constructor.
  split; [exact ND|]. split; [exact Ha|]. split; [exact Hb|]. split; [exact Hm|].
  exact (extract_sections_between_headings [] [] ["Other baseline initiatives"%string]
           "NDC Tracking Module" "Support Needed and Received Module"
           [] headed_document 0 3 ND Ha Hb Hm).
Defined.

(** X23.  When the next section with a heading, in the order of
    [SECTION_NAMES], has its heading at or above the heading of this
    one, the text of this section is empty although its heading is in
    the document. *)
Theorem extract_sections_out_of_order
    (pre mid post : list string) (a b : string)
    (kws : list (string * list str)) (text : str) (i j : nat) :
  NoDup (pre ++ a :: mid ++ b :: post) ->
  first_line a (document_lines text) = Some i ->
  first_line b (document_lines text) = Some j ->
  Forall (fun s => first_line s (document_lines text) = None) mid ->
  j <= i ->
  assoc_get a (extract_sections (pre ++ a :: mid ++ b :: post) kws text) = Some [].
Proof.
  intros ND Ha Hb Hmid Hji.
  rewrite (extract_sections_at _ _ _ _ _ _ _ _ _ ND Ha Hb Hmid).
  now rewrite range_text_empty.
Qed.

Lemma extract_sections_out_of_order_witness :
  NoDup ([] ++ "NDC Tracking Module"%string
             :: [] ++ "Support Needed and Received Module"%string
             :: ["Other baseline initiatives"%string]) /\
  first_line "NDC Tracking Module" (document_lines swapped_document) = Some 2 /\
  first_line "Support Needed and Received Module"
    (document_lines swapped_document) = Some 0 /\
  Forall (fun s => first_line s (document_lines swapped_document) = None) [] /\
  0 <= 2 /\
  assoc_get "NDC Tracking Module"%string
    (extract_sections
       ([] ++ "NDC Tracking Module"%string
           :: [] ++ "Support Needed and Received Module"%string
           :: ["Other baseline initiatives"%string])
       [] swapped_document) = Some [].
Proof.
  assert (ND : NoDup ([] ++ "NDC Tracking Module"%string
                         :: [] ++ "Support Needed and Received Module"%string
                         :: ["Other baseline initiatives"%string])).
  { repeat constructor; simpl; intuition discriminate. }
  assert (Ha : first_line "NDC Tracking Module" (document_lines swapped_document)
               = Some 2) by (vm_compute; reflexivity).
  assert (Hb : first_line "Support Needed and Received Module"
                 (document_lines swapped_document) = Some 0)
    by (vm_compute; reflexivity).
  assert (Hm : Forall (fun s => first_line s (document_lines swapped_document) = None)
                 []) by constructor.
  assert (Hji : 0 <= 2) by lia.
  split; [exact ND|]. split; [exact Ha|]. split; [exact Hb|]. split; [exact Hm|].
  split; [exact Hji|].
  exact (extract_sections_out_of_order [] [] ["Other baseline initiatives"%string]
           "NDC Tracking Module" "Support Needed and Received Module"
           [] swapped_document 2 0 ND Ha Hb Hm Hji).
Defined.

(** X24.  The text of the last section with a heading, in the order of
    [SECTION_NAMES], runs from the first line that holds its name to
    the end of the document. *)
Theorem extract_sections_last_heading
    (pre rest : list string) (a : string)
    (kws : list (string * list str)) (text : str) (i : nat) :
  NoDup (pre ++ a :: rest) ->
  first_line a (document_lines text) = Some i ->
  Forall (fun s => first_line s (document_lines text) = None) rest ->
  assoc_get a (extract_sections (pre ++ a :: rest) kws text) =
  Some (strip (join [nl] (skipn i (document_lines text)))).
Proof.
  intros ND Ha Hrest.
  rewrite (extract_sections_at_last _ _ _ _ _ _ ND Ha Hrest).
  unfold range_text. cbn [fst snd]. now rewrite skipn_firstn_all.
Qed.

Lemma extract_sections_last_heading_witness :
  NoDup (["NDC Tracking Module"%string]
           ++ "Support Needed and Received Module"%string
           :: ["Other baseline initiatives"%string]) /\
  first_line "Support Needed and Received Module"
    (document_lines headed_document) = Some 3 /\
  Forall (fun s => first_line s (document_lines headed_document) = None)
    ["Other baseline initiatives"%string] /\
  assoc_get "Support Needed and Received Module"%string
    (extract_sections
       (["NDC Tracking Module"%string]
          ++ "Support Needed and Received Module"%string
          :: ["Other baseline initiatives"%string])
       [] headed_document) =
  Some (strip (join [nl] (skipn 3 (document_lines headed_document)))).
Proof.
  assert (ND : NoDup (["NDC Tracking Module"%string]
                        ++ "Support Needed and Received Module"%string
                        :: ["Other baseline initiatives"%string])).
  { repeat constructor; simpl; intuition discriminate. }
  assert (Ha : first_line "Support Needed and Received Module"
                 (document_lines headed_document) = Some 3)
    by (vm_compute; reflexivity).
  assert (Hr : Forall (fun s => first_line s (document_lines headed_document) = None)
                 ["Other baseline initiatives"%string]).
  { constructor; [vm_compute; reflexivity | constructor]. }
  split; [exact ND|]. split; [exact Ha|]. split; [exact Hr|].
  exact (extract_sections_last_heading ["NDC Tracking Module"%string]
           ["Other baseline initiatives"%string]
           "Support Needed and Received Module" [] headed_document 3 ND Ha Hr).
Defined.

End RangesFacts.

(* ================================================================= *)
(** ** [upsert_country_sections] *)

Module UpsertFacts.
Import Text Locator Upsert.

Lemma has_doc_type_eq dt dt' doc :
  has_doc_type dt doc = true -> has_doc_type dt' doc = true -> dt = dt'.
Proof.
  unfold has_doc_type. destruct (doc_type doc) as [t|]; [|discriminate].
  intros H1 H2. apply String.eqb_eq in H1, H2. congruence.
Qed.

Lemma has_name_eq n n' sec :
  has_name n sec = true -> has_name n' sec = true -> n = n'.
Proof.
  unfold has_name. destruct (name sec) as [t|]; [|discriminate].
  intros H1 H2. apply String.eqb_eq in H1, H2. congruence.
Qed.

(** *** Documents *)

Lemma find_set_document_same dt text docs :
  exists doc, find_document dt (set_document dt text docs) = Some doc /\
              extracted_text doc = Some text.
Proof.
  induction docs as [|d docs IH]; simpl.
  - unfold has_doc_type. simpl. rewrite String.eqb_refl. eauto.
  - destruct (has_doc_type dt d) eqn:E; simpl.
    + unfold has_doc_type in *. simpl. rewrite E. eauto.
    + rewrite E. exact IH.
Qed.

Lemma find_set_document_other dt dt' text docs :
  dt' <> dt ->
  find_document dt' (set_document dt text docs) = find_document dt' docs.
Proof.
  intros Hne. induction docs as [|d docs IH]; simpl.
  - unfold has_doc_type. simpl. apply String.eqb_neq in Hne.
    rewrite String.eqb_sym. now rewrite Hne.
  - destruct (has_doc_type dt d) eqn:E; simpl.
    + destruct (has_doc_type dt' d) eqn:E'.
      * exfalso. apply Hne. exact (has_doc_type_eq _ _ _ E' E).
      * unfold has_doc_type in *. simpl. now rewrite E'.
    + now rewrite IH.
Qed.

Lemma set_document_fixed dt text docs doc :
  find_document dt docs = Some doc -> extracted_text doc = Some text ->
  set_document dt text docs = docs.
Proof.
  induction docs as [|d docs IH]; simpl; [discriminate|].
  destruct (has_doc_type dt d) eqn:E.
  - intros [= ->] H. destruct doc as [t x]. simpl in *. now subst.
  - intros H1 H2. f_equal. now apply IH.
Qed.

(** *** Sections *)

Lemma stored_text_set_same sections n dt text :
  stored_text (set_section n dt text sections) n dt = Some text.
Proof.
  unfold stored_text. induction sections as [|s sections IH].
  - cbn [set_section find_section]. unfold has_name at 1. cbn [name].
    rewrite String.eqb_refl. cbn [documents_of documents].
    destruct (find_set_document_same dt text []) as [doc [H1 H2]]. now rewrite H1.
  - cbn [set_section]. destruct (has_name n s) eqn:E.
    + cbn [find_section]. unfold has_name at 1. cbn [name].
      unfold has_name in E. rewrite E. cbn [documents_of documents].
      destruct (find_set_document_same dt text (documents_of s)) as [doc [H1 H2]].
      now rewrite H1.
    + cbn [find_section]. rewrite E. exact IH.
Qed.

Lemma find_section_set_other sections n n' dt text :
  n' <> n ->
  find_section n' (set_section n dt text sections) = find_section n' sections.
Proof.
  intros Hne. induction sections as [|s sections IH].
  - cbn [set_section find_section]. unfold has_name. cbn [name].
    apply String.eqb_neq in Hne. rewrite String.eqb_sym. now rewrite Hne.
  - cbn [set_section]. destruct (has_name n s) eqn:E.
    + cbn [find_section]. destruct (has_name n' s) eqn:E'.
      * exfalso. apply Hne. exact (has_name_eq _ _ _ E' E).
      * unfold has_name in *. cbn [name]. now rewrite E'.
    + cbn [find_section]. now rewrite IH.
Qed.

Lemma stored_text_set_other_name sections n n' dt dt' text :
  n' <> n ->
  stored_text (set_section n dt text sections) n' dt' = stored_text sections n' dt'.
Proof.
  intros Hne. unfold stored_text. now rewrite (find_section_set_other _ _ _ _ _ Hne).
Qed.

Lemma stored_text_set_other_type sections n dt dt' text :
  dt' <> dt ->
  stored_text (set_section n dt text sections) n dt' = stored_text sections n dt'.
Proof.
  intros Hne. unfold stored_text. induction sections as [|s sections IH].
  - cbn [set_section find_section]. unfold has_name. cbn [name].
    rewrite String.eqb_refl. cbn [documents_of documents].
    now rewrite (find_set_document_other _ _ _ _ Hne).
  - cbn [set_section]. destruct (has_name n s) eqn:E.
    + cbn [find_section]. rewrite E. unfold has_name at 1. cbn [name].
      unfold has_name in E. rewrite E. cbn [documents_of documents].
      now rewrite (find_set_document_other _ _ _ _ Hne).
    + cbn [find_section]. rewrite E. exact IH.
Qed.

Lemma stored_text_set_other sections n n' dt dt' text :
  n' <> n \/ dt' <> dt ->
  stored_text (set_section n dt text sections) n' dt' = stored_text sections n' dt'.
Proof.
  intros [H|H]; [now apply stored_text_set_other_name|].
  destruct (string_dec n' n) as [->|Hne];
    [now apply stored_text_set_other_type | now apply stored_text_set_other_name].
Qed.

Lemma set_section_fixed sections n dt text :
  stored_text sections n dt = Some text -> set_section n dt text sections = sections.
Proof.
  unfold stored_text. induction sections as [|s sections IH]; [discriminate|].
  cbn [find_section set_section]. destruct (has_name n s) eqn:E.
  - destruct (find_document dt (documents_of s)) as [doc|] eqn:F; [|discriminate].
    intros H. rewrite (set_document_fixed _ _ _ _ F H).
    destruct s as [sn [ds|]]; [reflexivity|]. discriminate.
  - intros H. f_equal. now apply IH.
Qed.

(** *** The loop *)

Definition nonempty (text : str) : bool :=
  match text with [] => false | _ => true end.

Lemma upsert_step_eq dt sections item :
  upsert_step dt sections item =
  if nonempty (snd item) then set_section (fst item) dt (snd item) sections
  else sections.
Proof. unfold upsert_step. now destruct (snd item). Qed.

Lemma upsert_loop_other dt n' dt' : forall items sections,
  (dt' <> dt \/ forall t, In (n', t) items -> t = []) ->
  stored_text (fold_left (upsert_step dt) items sections) n' dt' =
  stored_text sections n' dt'.
Proof.
  induction items as [|[n t] items IH]; intros sections H; [reflexivity|].
  cbn [fold_left]. rewrite IH.
  - rewrite upsert_step_eq. cbn [fst snd].
    destruct (nonempty t) eqn:E; [|reflexivity].
    apply stored_text_set_other. destruct H as [H|H]; [now right|]. left.
    intros ->. specialize (H t (or_introl eq_refl)). subst t. discriminate.
  - destruct H as [H|H]; [now left|]. right. intros t' Ht. apply H. now right.
Qed.

Lemma upsert_loop_same dt n text : forall items sections,
  NoDup (map fst items) -> In (n, text) items -> text <> [] ->
  stored_text (fold_left (upsert_step dt) items sections) n dt = Some text.
Proof.
  induction items as [|[k t] items IH]; intros sections ND Hin Hne; [destruct Hin|].
  cbn [fold_left]. cbn [map fst] in ND. inversion ND as [|x l Hx Hl]; subst.
  destruct Hin as [[= -> ->]|Hin].
  - rewrite upsert_loop_other.
    + rewrite upsert_step_eq. cbn [fst snd].
      destruct text; [congruence|]. cbn [nonempty]. apply stored_text_set_same.
    + right. intros t' Ht'. exfalso. apply Hx.
      change n with (fst (n, t')). now apply in_map.
  - now apply IH.
Qed.

Lemma upsert_loop_fixed dt : forall items sections,
  (forall n t, In (n, t) items -> t <> [] -> stored_text sections n dt = Some t) ->
  fold_left (upsert_step dt) items sections = sections.
Proof.
  induction items as [|[k t] items IH]; intros sections H; [reflexivity|].
  cbn [fold_left]. rewrite upsert_step_eq. cbn [fst snd].
  destruct (nonempty t) eqn:E.
  - rewrite set_section_fixed.
    + apply IH. intros n t' Hin. apply H. now right.
    + apply H; [now left|]. intros ->. discriminate.
  - apply IH. intros n t' Hin. apply H. now right.
Qed.


(** *** The old format *)

Lemma find_convert_documents dt (text : str) : forall old : list (string * str),
  assoc_get dt old = Some text -> text <> [] ->
  find_document dt (convert_documents old) = Some (mkDocument (Some dt) (Some text)).
Proof.
  induction old as [|[k t] old IH]; [discriminate|]. unfold convert_documents in *.
  cbn [assoc_get]. destruct (String.eqb_spec dt k) as [->|Hne].
  - intros [= ->] Ht. cbn [filter snd]. destruct text; [congruence|].
    cbn [map find_document fst snd]. unfold has_doc_type. cbn [doc_type].
    now rewrite String.eqb_refl.
  - intros H Ht. cbn [filter snd]. destruct t.
    + now apply IH.
    + cbn [map find_document fst snd]. unfold has_doc_type at 1. cbn [doc_type].
      apply String.eqb_neq in Hne. rewrite String.eqb_sym, Hne. now apply IH.
Qed.

Lemma convert_section_names (data : list (string * list (string * str))) n s :
  In s (convert_section data n) -> name s = Some n.
Proof.
  unfold convert_section. destruct (assoc_get n data) as [old|]; [|intros []].
  destruct (convert_documents old); [intros []|]. intros [<-|[]]. reflexivity.
Qed.

Lemma find_section_convert (data : list (string * list (string * str))) n dt
    (text : str) (old : list (string * str)) : forall names,
  In n names -> assoc_get n data = Some old ->
  assoc_get dt old = Some text -> text <> [] ->
  find_section n (flat_map (convert_section data) names) =
  Some (mkSection (Some n) (Some (convert_documents old))).
Proof.
  intros names Hin Hd Ht Hne.
  assert (C : convert_section data n =
              [mkSection (Some n) (Some (convert_documents old))]).
  { unfold convert_section. rewrite Hd.
    pose proof (find_convert_documents _ _ _ Ht Hne) as F.
    destruct (convert_documents old); [discriminate | reflexivity]. }
  induction names as [|k names IH]; [destruct Hin|].
  cbn [flat_map]. destruct (string_dec k n) as [->|Hk].
  - rewrite C. cbn [app find_section]. unfold has_name. cbn [name].
    now rewrite String.eqb_refl.
  - assert (X : forall l, find_section n (convert_section data k ++ l) =
                          find_section n l).
    { intros l. pose proof (convert_section_names data k) as N.
      destruct (convert_section data k) as [|s [|s' r]] eqn:Ec; [reflexivity| |].
      - cbn [app find_section]. unfold has_name. rewrite (N s (or_introl eq_refl)).
        apply String.eqb_neq in Hk. now rewrite Hk.
      - exfalso. unfold convert_section in Ec.
        destruct (assoc_get k data); [|discriminate].
        destruct (convert_documents l0); discriminate. }
    rewrite X. apply IH. destruct Hin; [contradiction | assumption].
Qed.

Lemma stored_sections_old first_key docs rest names :
  existsb (String.eqb first_key) names = true ->
  stored_sections names (OldFormat ((first_key, docs) :: rest)) =
  flat_map (convert_section ((first_key, docs) :: rest)) names.
Proof. intros H. cbn [stored_sections]. now rewrite H. Qed.

(** X25.  After the upsert, the store holds each new text that is not
    empty under its section and the document type of the file. *)
Theorem upsert_stores_new_text
    (names : list string) (data : Stored) (new : list (string * str))
    (dt n : string) (text : str) :
  NoDup (map fst new) -> In (n, text) new -> text <> [] ->
  stored_text (upsert_country_sections names data new dt) n dt = Some text.
Proof. intros ND Hin Hne. now apply upsert_loop_same. Qed.

Lemma upsert_stores_new_text_witness :
  NoDup (map fst bur2_sections) /\
  In ("NDC Tracking Module"%string, of_string "Indicators 2021") bur2_sections /\
  of_string "Indicators 2021" <> [] /\
  stored_text
    (upsert_country_sections Ranges.module_names bur1_store bur2_sections "BUR2")
    "NDC Tracking Module" "BUR2" = Some (of_string "Indicators 2021").
Proof.
  assert (ND : NoDup (map fst bur2_sections)).
  { repeat constructor; simpl; intuition discriminate. }
  assert (Hin : In ("NDC Tracking Module"%string, of_string "Indicators 2021")
                   bur2_sections) by (now left).
  assert (Hne : of_string "Indicators 2021" <> []) by discriminate.
  split; [exact ND|]. split; [exact Hin|]. split; [exact Hne|].
  exact (upsert_stores_new_text Ranges.module_names bur1_store bur2_sections
           "BUR2" "NDC Tracking Module" (of_string "Indicators 2021") ND Hin Hne).
Defined.





(** X28.  Processing the same file once more does not change the
    store. *)
Theorem upsert_twice
    (names : list string) (data : Stored) (new : list (string * str))
    (dt : string) :
  NoDup (map fst new) ->
  upsert_country_sections names
    (NewFormat (upsert_country_sections names data new dt)) new dt =
  upsert_country_sections names data new dt.
Proof.
  intros ND. unfold upsert_country_sections at 1. cbn [stored_sections].
  apply upsert_loop_fixed. intros n t Hin Hne. now apply upsert_loop_same.
Qed.

Lemma upsert_twice_witness :
  NoDup (map fst bur2_sections) /\
  upsert_country_sections Ranges.module_names
    (NewFormat
       (upsert_country_sections Ranges.module_names bur1_store bur2_sections "BUR2"))
    bur2_sections "BUR2" =
  upsert_country_sections Ranges.module_names bur1_store bur2_sections "BUR2".
Proof.
  assert (ND : NoDup (map fst bur2_sections)).
  { repeat constructor; simpl; intuition discriminate. }
  split; [exact ND|].
  exact (upsert_twice Ranges.module_names bur1_store bur2_sections "BUR2" ND).
Defined.

(** X29.  A store in the old format whose first key is a configured
    section name keeps, through the conversion, every text that is
    not empty of every configured section. *)
Theorem old_format_texts_kept
    (names : list string) (first_key : string) (docs : list (string * str))
    (rest : list (string * list (string * str)))
    (n dt : string) (old : list (string * str)) (text : str) :
  existsb (String.eqb first_key) names = true ->
  In n names ->
  assoc_get n ((first_key, docs) :: rest) = Some old ->
  assoc_get dt old = Some text ->
  text <> [] ->
  stored_text (stored_sections names (OldFormat ((first_key, docs) :: rest))) n dt =
  Some text.
Proof.
  intros Hk Hn Hd Ht Hne. rewrite (stored_sections_old _ _ _ _ Hk).
  unfold stored_text. rewrite (find_section_convert _ _ _ _ _ _ Hn Hd Ht Hne).
  cbn [documents_of documents]. now rewrite (find_convert_documents _ _ _ Ht Hne).
Qed.

Lemma old_format_texts_kept_witness :
  existsb (String.eqb "NDC Tracking Module") Ranges.module_names = true /\
  In "NDC Tracking Module"%string Ranges.module_names /\
  assoc_get "NDC Tracking Module"
    [("NDC Tracking Module"%string,
      [("BUR1"%string, of_string "Indicators 2019"); ("BUR2"%string, [])])] =
  Some [("BUR1"%string, of_string "Indicators 2019"); ("BUR2"%string, [])] /\
  assoc_get "BUR1"
    [("BUR1"%string, of_string "Indicators 2019"); ("BUR2"%string, [])] =
  Some (of_string "Indicators 2019") /\
  of_string "Indicators 2019" <> [] /\
  stored_text (stored_sections Ranges.module_names old_store)
    "NDC Tracking Module" "BUR1" = Some (of_string "Indicators 2019").
Proof.
  assert (Hk : existsb (String.eqb "NDC Tracking Module") Ranges.module_names = true)
    by reflexivity.
  assert (Hn : In "NDC Tracking Module"%string Ranges.module_names) by (now left).
  assert (Hd : assoc_get "NDC Tracking Module"
                 [("NDC Tracking Module"%string,
                   [("BUR1"%string, of_string "Indicators 2019");
                    ("BUR2"%string, [])])] =
               Some [("BUR1"%string, of_string "Indicators 2019");
                     ("BUR2"%string, [])]) by reflexivity.
  assert (Ht : assoc_get "BUR1"
                 [("BUR1"%string, of_string "Indicators 2019"); ("BUR2"%string, [])] =
               Some (of_string "Indicators 2019")) by reflexivity.
  assert (Hne : of_string "Indicators 2019" <> []) by discriminate.
  split; [exact Hk|]. split; [exact Hn|]. split; [exact Hd|]. split; [exact Ht|].
  split; [exact Hne|].
  exact (old_format_texts_kept Ranges.module_names "NDC Tracking Module"
           [("BUR1"%string, of_string "Indicators 2019"); ("BUR2"%string, [])] []
           "NDC Tracking Module" "BUR1" _ (of_string "Indicators 2019")
           Hk Hn Hd Ht Hne).
Defined.

(** X30.  A store in the old format whose first key is not a configured
    section name is emptied: after the upsert no text of another
    document type is left. *)
Theorem old_format_unknown_first_key_lost
    (names : list string) (first_key : string) (docs : list (string * str))
    (rest : list (string * list (string * str)))
    (new : list (string * str)) (dt n' dt' : string) :
  existsb (String.eqb first_key) names = false ->
  dt' <> dt ->
  stored_text
    (upsert_country_sections names (OldFormat ((first_key, docs) :: rest)) new dt)
    n' dt' = None.
Proof.
  intros Hk Hne. unfold upsert_country_sections.
  rewrite upsert_loop_other by now left.
  cbn [stored_sections]. now rewrite Hk.
Qed.

Lemma old_format_unknown_first_key_lost_witness :
  existsb (String.eqb "Summary") Ranges.module_names = false /\
  "BUR1"%string <> "BUR2"%string /\
  stored_text
    (upsert_country_sections Ranges.module_names summary_first_store
       bur2_sections "BUR2")
    "NDC Tracking Module" "BUR1" = None.
Proof.
  assert (Hk : existsb (String.eqb "Summary") Ranges.module_names = false)
    by reflexivity.
  assert (Hne : "BUR1"%string <> "BUR2"%string) by discriminate.
  split; [exact Hk|]. split; [exact Hne|].
  exact (old_format_unknown_first_key_lost Ranges.module_names "Summary"
           [("BUR1"%string, of_string "In short")]
           [("NDC Tracking Module"%string,
             [("BUR1"%string, of_string "Indicators 2019")])]
           bur2_sections "BUR2" "NDC Tracking Module" "BUR1" Hk Hne).
Defined.

End UpsertFacts.
